(** * Critical-path analysis of [scripts/script3.py]

    A shallow embedding of the CPM part of the report script: the [Task]
    class, [create_task_objects], [forward_pass], [backward_pass],
    [calculate_floats_and_critical_path] and
    [perform_critical_path_analysis], with the loop of
    [create_comprehensive_excel_report] that highlights the critical rows
    and the [', '.join] of [scripts/script2.py] that builds the predecessor
    strings, followed by the properties of the schedule they compute.

    Conventions of the embedding.
    - Task ids are strings, as the entries of [pred_task_id.split(', ')]
      are.
    - A [pd.Timestamp] is an integer number of microseconds since the epoch
      and a [timedelta] an integer number of microseconds; [days] is the
      [.days] attribute (floor division by one day).  The columns are taken
      to hold valid timestamps (no [NaT]) and finite durations, so a
      timestamp is always truthy and [x is not None] and [bool(x)] agree.
    - [duration] holds the offset the source writes
      [timedelta(days=task.duration)].
    - The [tasks] dict is an association list in insertion order; task
      objects live in it and are mutated through their key.
    - Date arithmetic is exact: the bounds of [pd.Timestamp] and
      [pd.Timedelta] are not modelled, so a sum or a difference that
      pandas refuses is a number here.
    - Exceptions are values of [exn]; the interpreter's bound on nested
      calls is the explicit [limit] argument of the two passes, and running
      past it raises [RecursionError] while the mutations made so far stay.
      Only the frames of [process_task] are counted: a pass stops between
      two visits here, while the interpreter can stop one in the middle.
    - For these two reasons no general property below rests on a pass
      running to its end for a given [limit]: each holds for every
      [limit], or takes as a hypothesis that the function has returned or
      that a pass has run to its end ([snd (forward_pass limit s) = Ok tt]).
      The scenarios are run with a [limit] far above their depth.
    - [executor.submit] keeps an exception of the submitted call inside the
      future, which the source never reads: [swallow]. *)

From Stdlib Require Import List String Ascii ZArith Lia Bool Permutation Relations.
Import ListNotations.
Open Scope string_scope.
Open Scope Z_scope.

(** ** Time *)

Definition day_us : Z := 86400000000.

Definition whole_days (n : Z) : Z := n * day_us.

(** [td.days] *)
Definition days (td : Z) : Z := td / day_us.

(** ** Exceptions and the state monad of the passes *)

Inductive exn : Type :=
| RecursionError
| TypeError
| ValueError
| KeyError.

Inductive result (A : Type) : Type :=
| Ok (a : A)
| Raise (e : exn).
Arguments Ok {A} a.
Arguments Raise {A} e.

(** ** The Task class *)

Record Task : Type := mkTask {
  task_id : string;
  name : string;
  planned_start : Z;
  planned_finish : Z;
  duration : Z;
  predecessors : list string;
  successors : list string;
  early_start : option Z;
  early_finish : option Z;
  late_start : option Z;
  late_finish : option Z;
  total_float : option Z;
  free_float : option Z;
  is_critical : bool
}.

(** [Task.__init__] *)
Definition Task_init (tid nm : string) (ps pf dur : Z) (preds : list string) : Task :=
  mkTask tid nm ps pf dur preds [] None None None None None None false.

Definition set_successors (v : list string) (t : Task) : Task :=
  mkTask (task_id t) (name t) (planned_start t) (planned_finish t) (duration t)
         (predecessors t) v (early_start t) (early_finish t)
         (late_start t) (late_finish t) (total_float t) (free_float t) (is_critical t).

Definition set_early_start (v : option Z) (t : Task) : Task :=
  mkTask (task_id t) (name t) (planned_start t) (planned_finish t) (duration t)
         (predecessors t) (successors t) v (early_finish t)
         (late_start t) (late_finish t) (total_float t) (free_float t) (is_critical t).

Definition set_early_finish (v : option Z) (t : Task) : Task :=
  mkTask (task_id t) (name t) (planned_start t) (planned_finish t) (duration t)
         (predecessors t) (successors t) (early_start t) v
         (late_start t) (late_finish t) (total_float t) (free_float t) (is_critical t).

Definition set_late_start (v : option Z) (t : Task) : Task :=
  mkTask (task_id t) (name t) (planned_start t) (planned_finish t) (duration t)
         (predecessors t) (successors t) (early_start t) (early_finish t)
         v (late_finish t) (total_float t) (free_float t) (is_critical t).

Definition set_late_finish (v : option Z) (t : Task) : Task :=
  mkTask (task_id t) (name t) (planned_start t) (planned_finish t) (duration t)
         (predecessors t) (successors t) (early_start t) (early_finish t)
         (late_start t) v (total_float t) (free_float t) (is_critical t).

Definition set_total_float (v : option Z) (t : Task) : Task :=
  mkTask (task_id t) (name t) (planned_start t) (planned_finish t) (duration t)
         (predecessors t) (successors t) (early_start t) (early_finish t)
         (late_start t) (late_finish t) v (free_float t) (is_critical t).

Definition set_free_float (v : option Z) (t : Task) : Task :=
  mkTask (task_id t) (name t) (planned_start t) (planned_finish t) (duration t)
         (predecessors t) (successors t) (early_start t) (early_finish t)
         (late_start t) (late_finish t) (total_float t) v (is_critical t).

Definition set_is_critical (v : bool) (t : Task) : Task :=
  mkTask (task_id t) (name t) (planned_start t) (planned_finish t) (duration t)
         (predecessors t) (successors t) (early_start t) (early_finish t)
         (late_start t) (late_finish t) (total_float t) (free_float t) v.

(** ** The tasks dict *)

Definition store : Type := list (string * Task).

Definition keys (d : store) : list string := map fst d.

Definition values (d : store) : list Task := map snd d.

(** [d.get(k)] *)
Fixpoint lookup (k : string) (d : store) : option Task :=
  match d with
  | [] => None
  | (k', v) :: d' => if String.eqb k k' then Some v else lookup k d'
  end.

(** [k in d] *)
Definition mem (k : string) (d : store) : bool :=
  match lookup k d with
  | Some _ => true
  | None => false
  end.

(** [d[k] = v]: an existing key keeps its position, a new key goes last. *)
Fixpoint dict_set (k : string) (v : Task) (d : store) : store :=
  match d with
  | [] => [(k, v)]
  | (k', v') :: d' =>
      if String.eqb k k' then (k, v) :: d' else (k', v') :: dict_set k v d'
  end.

(** An attribute assignment on the object [d[k]]. *)
Fixpoint update (k : string) (f : Task -> Task) (d : store) : store :=
  match d with
  | [] => []
  | (k', v) :: d' =>
      if String.eqb k k' then (k', f v) :: d' else (k', v) :: update k f d'
  end.

(** ** State and exceptions *)

Definition M (A : Type) : Type := store -> store * result A.

Definition ret {A : Type} (a : A) : M A := fun s => (s, Ok a).

Definition raise {A : Type} (e : exn) : M A := fun s => (s, Raise e).

Definition bind {A B : Type} (m : M A) (f : A -> M B) : M B :=
  fun s =>
    match m s with
    | (s', Ok a) => f a s'
    | (s', Raise e) => (s', Raise e)
    end.

Declare Scope cpm_scope.
Delimit Scope cpm_scope with cpm.
Notation "x <- m ;; k" := (bind m (fun x => k))
  (at level 100, m at next level, right associativity) : cpm_scope.
Notation "m ;;; k" := (bind m (fun _ => k))
  (at level 100, right associativity) : cpm_scope.
Open Scope cpm_scope.

Definition get : M store := fun s => (s, Ok s).

(** [tasks[k]] *)
Definition get_task (k : string) : M Task :=
  fun s =>
    match lookup k s with
    | Some t => (s, Ok t)
    | None => (s, Raise KeyError)
    end.

Definition assign (k : string) (f : Task -> Task) : M unit :=
  fun s => (update k f s, Ok tt).

(** [for x in l: body(x)] *)
Fixpoint for_each {A : Type} (l : list A) (body : A -> M unit) : M unit :=
  match l with
  | [] => ret tt
  | x :: l' => body x ;;; for_each l' body
  end.

(** The call runs to its end or to its exception; the exception stays in the
    future object. *)
Definition swallow (m : M unit) : M unit :=
  fun s => (fst (m s), Ok tt).

(** ** Input records *)

Record Row : Type := mkRow {
  row_task_id : string;
  row_task_name : string;
  target_start_date : Z;
  target_end_date : Z;
  planned_duration : Z;
  pred_task_id : option string
}.

(** [s.split(sep)] for a non-empty separator; [skip] counts the characters
    of a matched separator still to be passed over. *)
Fixpoint split_go (sep : string) (skip : nat) (cur s : string) : list string :=
  match s with
  | EmptyString => [cur]
  | String c s' =>
      match skip with
      | S n => split_go sep n cur s'
      | O =>
          if String.prefix sep s
          then cur :: split_go sep (String.length sep - 1) EmptyString s'
          else split_go sep O (cur ++ String c EmptyString) s'
      end
  end.

Definition split (sep s : string) : list string := split_go sep O EmptyString s.

(** [row['pred_task_id'].split(', ') if pd.notna(row['pred_task_id']) else []] *)
Definition row_predecessors (r : Row) : list string :=
  match pred_task_id r with
  | Some s => split ", " s
  | None => []
  end.

Definition task_of_row (r : Row) : Task :=
  Task_init (row_task_id r) (row_task_name r) (target_start_date r)
            (target_end_date r) (planned_duration r) (row_predecessors r).

(** ** create_task_objects *)

Definition append_successor (sid : string) (t : Task) : Task :=
  set_successors (successors t ++ [sid])%list t.

Definition insert_rows (df : list Row) : store :=
  fold_left (fun tasks row => dict_set (row_task_id row) (task_of_row row) tasks) df [].

Definition link_task (tasks : store) (task : Task) : store :=
  fold_left
    (fun tasks pred_id =>
       if mem pred_id tasks
       then update pred_id (append_successor (task_id task)) tasks
       else tasks)
    (predecessors task) tasks.

Definition link_successors (tasks : store) : store :=
  fold_left
    (fun tasks k =>
       match lookup k tasks with
       | Some task => link_task tasks task
       | None => tasks
       end)
    (keys tasks) tasks.

Definition create_task_objects (df : list Row) : store :=
  link_successors (insert_rows df).

(** ** forward_pass *)

Definition is_some {A : Type} (o : option A) : bool :=
  match o with
  | Some _ => true
  | None => false
  end.

(** [max(x :: xs)] and [min(x :: xs)] *)
Definition max_list (x : Z) (xs : list Z) : Z := fold_left Z.max xs x.
Definition min_list (x : Z) (xs : list Z) : Z := fold_left Z.min xs x.

(** [[tasks[p].early_finish for p in preds
      if p in tasks and tasks[p].early_finish]] *)
Fixpoint pred_finish_dates (tasks : store) (preds : list string) : list Z :=
  match preds with
  | [] => []
  | p :: preds' =>
      match lookup p tasks with
      | Some t =>
          match early_finish t with
          | Some ef => ef :: pred_finish_dates tasks preds'
          | None => pred_finish_dates tasks preds'
          end
      | None => pred_finish_dates tasks preds'
      end
  end.

(** The nested [process_task] of [forward_pass]. *)
Module ForwardPass.

Fixpoint process_task (depth : nat) (k : string) : M unit :=
  match depth with
  | O => raise RecursionError
  | S d =>
      task <- get_task k ;;
      if is_some (early_start task) then ret tt else
      (match predecessors task with
       | [] => assign k (set_early_start (Some (planned_start task)))
       | _ :: _ =>
           tasks <- get ;;
           match pred_finish_dates tasks (predecessors task) with
           | [] => ret tt
           | x :: xs => assign k (set_early_start (Some (max_list x xs)))
           end
       end) ;;;
      task' <- get_task k ;;
      (match early_start task' with
       | Some es => assign k (set_early_finish (Some (es + duration task')))
       | None => ret tt
       end) ;;;
      for_each (successors task)
        (fun succ_id =>
           tasks <- get ;;
           if mem succ_id tasks then process_task d succ_id else ret tt)
  end.

End ForwardPass.

Definition forward_pass (limit : nat) : M unit :=
  tasks <- get ;;
  for_each (keys tasks)
    (fun k =>
       task <- get_task k ;;
       match predecessors task with
       | [] => ForwardPass.process_task limit k
       | _ :: _ => ret tt
       end).

(** ** backward_pass *)

(** [[tasks[s].late_start for s in succs
      if s in tasks and tasks[s].late_start]] *)
Fixpoint succ_start_dates (tasks : store) (succs : list string) : list Z :=
  match succs with
  | [] => []
  | s :: succs' =>
      match lookup s tasks with
      | Some t =>
          match late_start t with
          | Some ls => ls :: succ_start_dates tasks succs'
          | None => succ_start_dates tasks succs'
          end
      | None => succ_start_dates tasks succs'
      end
  end.

(** The nested [process_task] of [backward_pass]. *)
Module BackwardPass.

Fixpoint process_task (depth : nat) (k : string) : M unit :=
  match depth with
  | O => raise RecursionError
  | S d =>
      task <- get_task k ;;
      if is_some (late_finish task) then ret tt else
      (match successors task with
       | [] => assign k (set_late_finish (early_finish task))
       | _ :: _ =>
           tasks <- get ;;
           match succ_start_dates tasks (successors task) with
           | x :: xs => assign k (set_late_finish (Some (min_list x xs)))
           | [] => assign k (set_late_finish (early_finish task))
           end
       end) ;;;
      task' <- get_task k ;;
      (match late_finish task' with
       | Some lf => assign k (set_late_start (Some (lf - duration task')))
       | None => ret tt
       end) ;;;
      for_each (predecessors task)
        (fun pred_id =>
           tasks <- get ;;
           if mem pred_id tasks then process_task d pred_id else ret tt)
  end.

End BackwardPass.

(** [a > b] on two sort keys that may be [None]. *)
Definition key_gt (a b : option Z) : result bool :=
  match a, b with
  | Some x, Some y => Ok (y <? x)
  | _, _ => Raise TypeError
  end.

(** The loop of [max(items, key=...)] after the first item. *)
Fixpoint max_scan (best : string * Task) (rest : store) : result (string * Task) :=
  match rest with
  | [] => Ok best
  | item :: rest' =>
      match key_gt (early_finish (snd item)) (early_finish (snd best)) with
      | Ok true => max_scan item rest'
      | Ok false => max_scan best rest'
      | Raise e => Raise e
      end
  end.

(** [max(tasks.values(), key=lambda t: t.early_finish)], as the key of the
    chosen object. *)
Definition latest_task (tasks : store) : result string :=
  match tasks with
  | [] => Raise ValueError
  | first :: rest =>
      match max_scan first rest with
      | Ok best => Ok (fst best)
      | Raise e => Raise e
      end
  end.

(** [[task for task in tasks.values() if not task.successors]], as keys. *)
Definition end_tasks (tasks : store) : list string :=
  keys (filter (fun kt => match successors (snd kt) with [] => true | _ :: _ => false end) tasks).

Definition backward_pass (limit : nat) : M unit :=
  tasks <- get ;;
  ends <- (match end_tasks tasks with
           | [] =>
               match latest_task tasks with
               | Ok k =>
                   latest <- get_task k ;;
                   assign k (set_late_finish (early_finish latest)) ;;;
                   ret [k]
               | Raise e => raise e
               end
           | k :: ks => ret (k :: ks)
           end) ;;
  for_each ends (BackwardPass.process_task limit).

(** ** calculate_floats_and_critical_path *)

(** [a - b] on two timestamps that may be [None]. *)
Definition sub_stamps (a b : option Z) : result Z :=
  match a, b with
  | Some x, Some y => Ok (x - y)
  | _, _ => Raise TypeError
  end.

(** The values the generator
    [(tasks[s].early_start - task.early_finish).days
       for s in task.successors if s in tasks]
    yields, up to the first one that raises. *)
Fixpoint free_float_terms (tasks : store) (ef : option Z) (succs : list string)
  : result (list Z) :=
  match succs with
  | [] => Ok []
  | s :: succs' =>
      match lookup s tasks with
      | Some t =>
          match sub_stamps (early_start t) ef with
          | Ok td =>
              match free_float_terms tasks ef succs' with
              | Ok l => Ok (days td :: l)
              | Raise e => Raise e
              end
          | Raise e => Raise e
          end
      | None => free_float_terms tasks ef succs'
      end
  end.

(** [min(...)] of that generator. *)
Definition min_free_float (tasks : store) (ef : option Z) (succs : list string)
  : result Z :=
  match free_float_terms tasks ef succs with
  | Ok [] => Raise ValueError
  | Ok (x :: xs) => Ok (min_list x xs)
  | Raise e => Raise e
  end.

(** One turn of the loop; [cp] is [critical_path] so far. *)
Definition calc_task (k : string) (cp : list string) : M (list string) :=
  task <- get_task k ;;
  cp' <- (match early_start task, late_start task with
          | Some es, Some ls =>
              let tf := days (ls - es) in
              assign k (set_total_float (Some tf)) ;;;
              assign k (set_is_critical (tf =? 0)) ;;;
              ret (if tf =? 0 then (cp ++ [task_id task])%list else cp)
          | _, _ => ret cp
          end) ;;
  task' <- get_task k ;;
  (match successors task' with
   | _ :: _ =>
       tasks <- get ;;
       match min_free_float tasks (early_finish task') (successors task') with
       | Ok ff => assign k (set_free_float (Some ff))
       | Raise e => raise e
       end
   | [] => assign k (set_free_float (total_float task'))
   end) ;;;
  ret cp'.

Fixpoint calc_loop (ks : list string) (cp : list string) : M (list string) :=
  match ks with
  | [] => ret cp
  | k :: ks' => cp' <- calc_task k cp ;; calc_loop ks' cp'
  end.

Definition calculate_floats_and_critical_path : M (list string) :=
  tasks <- get ;;
  calc_loop (keys tasks) [].

(** ** perform_critical_path_analysis *)

Record ResultRow : Type := mkResultRow {
  r_task_id : string;
  r_task_name : string;
  r_early_start : option Z;
  r_early_finish : option Z;
  r_late_start : option Z;
  r_late_finish : option Z;
  r_total_float : option Z;
  r_free_float : option Z;
  r_is_critical : bool
}.

Definition result_of_task (t : Task) : ResultRow :=
  mkResultRow (task_id t) (name t) (early_start t) (early_finish t)
              (late_start t) (late_finish t) (total_float t) (free_float t)
              (is_critical t).

(** The body after [tasks = create_task_objects(df)]. *)
Definition analysis (limit : nat) : M (list ResultRow * list string) :=
  swallow (forward_pass limit) ;;;
  swallow (backward_pass limit) ;;;
  critical_path <- calculate_floats_and_critical_path ;;
  tasks <- get ;;
  ret (map result_of_task (values tasks), critical_path).

(** The task objects when the function is left, and what it returns or
    raises. *)
Definition run_analysis (limit : nat) (df : list Row)
  : store * result (list ResultRow * list string) :=
  analysis limit (create_task_objects df).

Definition perform_critical_path_analysis (limit : nat) (df : list Row)
  : result (list ResultRow * list string) :=
  snd (run_analysis limit df).

(** The tasks after the two passes, before the floats are computed. *)
Definition scheduled (limit : nat) (df : list Row) : store :=
  fst (swallow (backward_pass limit)
         (fst (swallow (forward_pass limit) (create_task_objects df)))).

(** ** The scenarios of the specification *)

Definition row (tid : string) (start dur : Z) (preds : option string) : Row :=
  mkRow tid tid (whole_days start) (whole_days (start + dur)) (whole_days dur) preds.

Definition chain_rows : list Row :=
  [ row "A" 0 2 None; row "B" 0 3 (Some "A"); row "C" 0 1 (Some "B") ].

Definition parallel_rows : list Row :=
  [ row "A" 0 5 None; row "B" 0 2 None; row "C" 0 1 (Some "A, B") ].

(** ** The passes, one visit at a time

    What a call of the nested [process_task] that gets past its first test
    writes before it recurses, and what one turn of the float loop writes. *)

Definition fwd_early_start (tasks : store) (task : Task) : option Z :=
  match predecessors task with
  | [] => Some (planned_start task)
  | _ :: _ =>
      match pred_finish_dates tasks (predecessors task) with
      | [] => None
      | x :: xs => Some (max_list x xs)
      end
  end.

Definition fwd_visit (k : string) (task : Task) (tasks : store) : store :=
  match fwd_early_start tasks task with
  | Some es =>
      update k (fun t => set_early_finish (Some (es + duration task))
                           (set_early_start (Some es) t)) tasks
  | None => tasks
  end.

Definition fwd_recurse (d : nat) (succ_id : string) : M unit :=
  tasks <- get ;;
  if mem succ_id tasks then ForwardPass.process_task d succ_id else ret tt.

Definition bwd_late_finish (tasks : store) (task : Task) : option Z :=
  match successors task with
  | [] => early_finish task
  | _ :: _ =>
      match succ_start_dates tasks (successors task) with
      | x :: xs => Some (min_list x xs)
      | [] => early_finish task
      end
  end.

Definition bwd_visit (k : string) (task : Task) (tasks : store) : store :=
  match bwd_late_finish tasks task with
  | Some lf =>
      update k (fun t => set_late_start (Some (lf - duration task))
                           (set_late_finish (Some lf) t)) tasks
  | None => update k (set_late_finish None) tasks
  end.

Definition bwd_recurse (d : nat) (pred_id : string) : M unit :=
  tasks <- get ;;
  if mem pred_id tasks then BackwardPass.process_task d pred_id else ret tt.

Definition calc_floats (task : Task) : Task :=
  match early_start task, late_start task with
  | Some es, Some ls =>
      set_is_critical (days (ls - es) =? 0)
        (set_total_float (Some (days (ls - es))) task)
  | _, _ => task
  end.

Definition calc_cp (task : Task) (cp : list string) : list string :=
  match early_start task, late_start task with
  | Some es, Some ls => if days (ls - es) =? 0 then (cp ++ [task_id task])%list else cp
  | _, _ => cp
  end.

(** A property of every task object of the table. *)
Definition all_tasks (P : Task -> Prop) (d : store) : Prop :=
  Forall (fun kt => P (snd kt)) d.

(** A property of every entry of the table. *)
Definition all_entries (P : string -> Task -> Prop) (d : store) : Prop :=
  Forall (fun kt => P (fst kt) (snd kt)) d.

(** Every object is stored under its own [task_id]. *)
Definition key_is_id (d : store) : Prop :=
  all_entries (fun k t => task_id t = k) d.

(** The state [Task.__init__] leaves the computed fields in. *)
Definition fresh (t : Task) : Prop :=
  early_start t = None /\ early_finish t = None /\
  late_start t = None /\ late_finish t = None /\
  total_float t = None /\ free_float t = None /\ is_critical t = false.

(** The ids of a list in the order of their first occurrence: the key order
    of a dict filled with them one after the other. *)
Definition first_occurrences (ids : list string) : list string :=
  fold_left
    (fun seen k => if existsb (String.eqb k) seen then seen else (seen ++ [k])%list)
    ids [].

(** Properties of an entry that no write of a pass can break: the forward
    visit, the backward visit, and any write to the two late dates. *)
Definition fwd_stable (P : string -> Task -> Prop) : Prop :=
  forall k t es, early_start t = None -> P k t ->
    P k (set_early_finish (Some (es + duration t)) (set_early_start (Some es) t)).

Definition bwd_stable (P : string -> Task -> Prop) : Prop :=
  (forall k t lf, late_finish t = None -> P k t ->
     P k (set_late_start (Some (lf - duration t)) (set_late_finish (Some lf) t))) /\
  (forall k t, late_finish t = None -> P k t -> P k (set_late_finish None t)).

Definition ignores_late (P : string -> Task -> Prop) : Prop :=
  forall k t v, P k t -> P k (set_late_start v t) /\ P k (set_late_finish v t).


(** [is_critical] agrees with [total_float == 0]. *)
Definition crit_ok (t : Task) : Prop :=
  is_critical t = true <-> total_float t = Some 0.

(** A result row whose dates are whole days. *)
Definition day_row (tid : string) (es ef ls lf tf ff : Z) (crit : bool) : ResultRow :=
  mkResultRow tid tid (Some (whole_days es)) (Some (whole_days ef))
              (Some (whole_days ls)) (Some (whole_days lf)) (Some tf) (Some ff) crit.

(** C joins A (2 days) and B (5 days); A comes first in the table. *)
Definition late_predecessor_rows : list Row :=
  [ row "A" 0 2 None; row "B" 0 5 None; row "C" 0 1 (Some "A, B") ].

(** The same join behind a chain T -> B, so that T has a successor whose
    float is negative. *)
Definition negative_float_rows : list Row :=
  [ row "A" 0 2 None; row "T" 0 1 None; row "B" 0 5 (Some "T");
    row "C" 0 1 (Some "A, B") ].

(** The finish dates follow from the start dates and the duration. *)
Definition early_consistent (t : Task) : Prop :=
  forall a, early_start t = Some a -> early_finish t = Some (a + duration t).

Definition late_consistent (t : Task) : Prop :=
  forall b, late_start t = Some b -> late_finish t = Some (b + duration t).

Definition late_unset (t : Task) : Prop :=
  late_start t = None /\ late_finish t = None.

(** The float loop has been over the task. *)
Definition float_computed (t : Task) : Prop :=
  forall a b, early_start t = Some a -> late_start t = Some b ->
              total_float t = Some (days (b - a)).

Definition returned {A : Type} (r : result A) : bool :=
  match r with
  | Ok _ => true
  | Raise _ => false
  end.

(** Twelve hours. *)
Definition half_day : Z := 43200000000.

(** B (4 days) runs beside A (4.5 days, one week of a 36-hour calendar
    with 8-hour days); C follows both. *)
Definition half_day_rows : list Row :=
  [ mkRow "A" "A" 0 (9 * half_day) (9 * half_day) None;
    mkRow "B" "B" 0 (8 * half_day) (8 * half_day) None;
    mkRow "C" "C" 0 (2 * half_day) (2 * half_day) (Some "A, B") ].

(** The ids of the critical tasks among the keys [ks], in the order of [ks]. *)
Definition crit_ids (s : store) (ks : list string) : list string :=
  flat_map
    (fun k =>
       match lookup k s with
       | Some t => if is_critical t then [task_id t] else []
       | None => []
       end)
    ks.

(** A list of ids that is ordered along the successor edges: a task comes
    before each of its successors that is listed. *)
Definition follows_successor_edges (tasks : store) (cp : list string) : Prop :=
  forall i j x y t,
    nth_error cp i = Some x -> nth_error cp j = Some y ->
    lookup x tasks = Some t -> In y (successors t) -> (i < j)%nat.

(** The chain A -> B -> C of the first scenario, last record first. *)
Definition reversed_chain_rows : list Row :=
  [ row "C" 0 1 (Some "B"); row "B" 0 3 (Some "A"); row "A" 0 2 None ].

(** [late_predecessor_rows] with its first two records exchanged. *)
Definition swapped_rows : list Row :=
  [ row "B" 0 5 None; row "A" 0 2 None; row "C" 0 1 (Some "A, B") ].

(** The first loop of [create_task_objects], started on a dict that is
    already partly filled. *)
Definition insert_from (tasks : store) (df : list Row) : store :=
  fold_left (fun tasks row => dict_set (row_task_id row) (task_of_row row) tasks) df tasks.

(** Two records with the id A. *)
Definition duplicate_rows : list Row :=
  [ row "A" 0 1 None; row "B" 0 1 (Some "A"); row "A" 3 2 None ].

(** A task with its late dates blanked: what the backward pass does not
    write. *)
Definition unlate (t : Task) : Task := set_late_start None (set_late_finish None t).

(** A task without successors has no late finish yet, or its own early
    finish. *)
Definition sink_seeded (t : Task) : Prop :=
  successors t = [] -> late_finish t = None \/ late_finish t = early_finish t.

(** Where a late finish in the table comes from: the task's own early
    finish, or the late start of one of its successors. *)
Definition late_finish_source (s : store) : Prop :=
  forall k t lf,
    lookup k s = Some t -> late_finish t = Some lf ->
    early_finish t = Some lf \/
    exists x tx, In x (successors t) /\ lookup x s = Some tx /\ late_start tx = Some lf.

(** A joins the short branch B -> D and the late sink C; X makes C late. *)
Definition two_sink_rows : list Row :=
  [ row "X" 0 10 None; row "A" 0 1 None; row "B" 0 1 (Some "A");
    row "C" 0 1 (Some "A, X"); row "D" 0 1 (Some "B") ].

(** The sink stored under [k] has been given its late finish. *)
Definition sink_done (k : string) (s : store) : Prop :=
  forall t, lookup k s = Some t -> successors t = [] -> late_finish t = early_finish t.

(** A late finish comes with its late start. *)
Definition late_start_set (t : Task) : Prop :=
  forall lf, late_finish t = Some lf -> late_start t = Some (lf - duration t).

(** The dependency graph of a task table: [k] depends on [p] when [p] is
    listed among the predecessors of the task [k] and is itself in the
    table. *)
Definition depends_on (tasks : store) (k p : string) : Prop :=
  exists t, lookup k tasks = Some t /\ In p (predecessors t) /\ mem p tasks = true.

Definition cyclic (tasks : store) : Prop :=
  exists k, clos_trans string (depends_on tasks) k k.

(** No task of the table has an empty predecessor list. *)
Definition no_source (tasks : store) : Prop :=
  all_tasks (fun t => predecessors t <> []) tasks.

(** Every successor listed in the table is a key of [s0]. *)
Definition successors_within (s0 : store) (t : Task) : Prop :=
  forall x, In x (successors t) -> In x (keys s0).

(** The task stored under [p] has a successor. *)
Definition has_successor (p : string) (s : store) : Prop :=
  exists tp, lookup p s = Some tp /\ successors tp <> [].

(** A task with its successor list blanked: what the second loop of
    [create_task_objects] does not write. *)
Definition unlinked (t : Task) : Task := set_successors [] t.

(** The cycle A -> B -> C -> A of the specification. *)
Definition cycle_rows : list Row :=
  [ row "A" 0 1 (Some "C"); row "B" 0 1 (Some "A"); row "C" 0 1 (Some "B") ].

(** The cycle A -> B -> A entered from the source S and left to the sink E. *)
Definition entered_cycle_rows : list Row :=
  [ row "S" 0 1 None; row "A" 0 1 (Some "S, B"); row "B" 0 1 (Some "A");
    row "E" 0 1 (Some "B") ].

(** Neither pass has given the task a date that the other pass reads. *)
Definition unscheduled (t : Task) : Prop :=
  early_finish t = None /\ late_start t = None /\ late_finish t = None.

(** ** Dangling references, dropped

    The table and the records as they would be if every predecessor id
    outside [ids] had been removed from the predecessor lists. *)

Definition set_predecessors (v : list string) (t : Task) : Task :=
  mkTask (task_id t) (name t) (planned_start t) (planned_finish t) (duration t)
         v (successors t) (early_start t) (early_finish t)
         (late_start t) (late_finish t) (total_float t) (free_float t) (is_critical t).

Definition defined_in (ids : list string) (p : string) : bool :=
  existsb (String.eqb p) ids.

Definition drop_dangling_task (ids : list string) (t : Task) : Task :=
  set_predecessors (filter (defined_in ids) (predecessors t)) t.

Definition drop_dangling (ids : list string) (s : store) : store :=
  map (fun kt => (fst kt, drop_dangling_task ids (snd kt))) s.

Definition lift {A : Type} (ids : list string) (out : store * result A)
  : store * result A :=
  (drop_dangling ids (fst out), snd out).

(** [r'] is the record [r] without its dangling references. *)
Definition without_dangling (ids : list string) (r r' : Row) : Prop :=
  row_task_id r' = row_task_id r /\
  row_task_name r' = row_task_name r /\
  target_start_date r' = target_start_date r /\
  target_end_date r' = target_end_date r /\
  planned_duration r' = planned_duration r /\
  row_predecessors r' = filter (defined_in ids) (row_predecessors r).

(** A predecessor list that is not made of dangling references only. *)
Definition keeps_a_predecessor (ids : list string) (preds : list string) : Prop :=
  preds <> [] -> filter (defined_in ids) preds <> [].

(** What the comparison of the two runs relies on: [ids] are the keys of
    the table, and no task has dangling predecessors only. *)
Definition dangling_inv (ids : list string) (s : store) : Prop :=
  (forall p, mem p s = defined_in ids p) /\
  all_tasks (fun t => keeps_a_predecessor ids (predecessors t)) s.

(** B follows A and names Z, which no record defines. *)
Definition dangling_rows : list Row :=
  [ row "A" 0 1 None; row "B" 0 1 (Some "A, Z") ].

Definition cleaned_rows : list Row :=
  [ row "A" 0 1 None; row "B" 0 1 (Some "A") ].

(** A names only Z; B follows A. *)
Definition only_dangling_rows : list Row :=
  [ row "A" 0 1 (Some "Z"); row "B" 0 1 (Some "A") ].

(** ** What a visit of the forward pass finds *)

(** Every successor listed for [p] names [p] among its predecessors. *)
Definition link_ok (s : store) : Prop :=
  forall p tp x tx,
    lookup p s = Some tp -> In x (successors tp) ->
    lookup x s = Some tx -> In p (predecessors tx).

(** The same, with the predecessor lists read in the table [s0]. *)
Definition linked_from (s0 : store) (p : string) (tp : Task) : Prop :=
  forall x, In x (successors tp) ->
            exists tx, lookup x s0 = Some tx /\ In p (predecessors tx).

(** A visit of [k] will give it an early start. *)
Definition ready (k : string) (s : store) : Prop :=
  forall t, lookup k s = Some t ->
            early_start t <> None \/ predecessors t = [] \/
            pred_finish_dates s (predecessors t) <> [].

(** The task stored under [k] has an early finish. *)
Definition finished (k : string) (s : store) : Prop :=
  exists t ef, lookup k s = Some t /\ early_finish t = Some ef.

(** A task without predecessors has no early start yet, or its planned
    start and the finish that follows from it. *)
Definition source_seeded (t : Task) : Prop :=
  predecessors t = [] ->
  early_start t = None \/
  (early_start t = Some (planned_start t) /\
   early_finish t = Some (planned_start t + duration t)).

(** The source stored under [k] has been given its early dates. *)
Definition source_done (k : string) (s : store) : Prop :=
  forall t, lookup k s = Some t -> predecessors t = [] ->
            early_start t = Some (planned_start t) /\
            early_finish t = Some (planned_start t + duration t).

(** ** Successor lists and reachability *)

(** The task stored under [p] lists [x] among its successors. *)
Definition lists_successor (p x : string) (s : store) : Prop :=
  exists tp, lookup p s = Some tp /\ In x (successors tp).

(** A task with its early dates blanked: what the forward pass does not
    write. *)
Definition unearly (t : Task) : Task := set_early_start None (set_early_finish None t).

(** No early finish without an early start. *)
Definition early_ordered (t : Task) : Prop :=
  early_start t = None -> early_finish t = None.

(** Where an early start in the table comes from: the planned start of a
    task without predecessors, or the early finish of one of the task's
    predecessors. *)
Definition early_start_source (s : store) : Prop :=
  forall k t e,
    lookup k s = Some t -> early_start t = Some e ->
    (predecessors t = [] /\ e = planned_start t) \/
    exists p tp, In p (predecessors t) /\ lookup p s = Some tp /\
                 early_finish tp = Some e.

(** The tasks a walk along successor lists gets to from a task without
    predecessors. *)
Inductive reachable (s : store) : string -> Prop :=
| reach_source k t :
    lookup k s = Some t -> predecessors t = [] -> reachable s k
| reach_step p tp x :
    reachable s p -> lookup p s = Some tp -> In x (successors tp) ->
    mem x s = true -> reachable s x.

(** Every finished task outside [stack] has all its successors finished:
    the tasks of [stack] are the ones still being visited. *)
Definition open_except (stack : list string) (s : store) : Prop :=
  forall p tp x,
    lookup p s = Some tp -> early_finish tp <> None -> ~ In p stack ->
    In x (successors tp) -> mem x s = true -> finished x s.

(** [s'] is [s] after some visits of the forward pass: finished tasks stay
    finished, and nothing but the early dates has changed. *)
Definition extends (s s' : store) : Prop :=
  (forall j, finished j s -> finished j s') /\
  (forall j, option_map unearly (lookup j s') = option_map unearly (lookup j s)).

(** What the walk of the forward pass keeps. *)
Definition walk_inv (s : store) : Prop :=
  link_ok s /\ all_tasks early_consistent s.

(** Every task with an early start is reachable, when predecessor lists
    are mirrored by successor lists in the table the pass started from. *)
Definition scheduled_reachable (s0 s : store) : Prop :=
  forall k t e, lookup k s = Some t -> early_start t = Some e -> reachable s0 k.


(** ** What the float calculation reads *)

(** A task with the floats and the critical flag blanked: what the float
    loop does not write. *)
Definition unfloat (t : Task) : Task :=
  set_total_float None (set_free_float None (set_is_critical false t)).

(** A task with everything blanked that is written after the forward
    pass: the late dates, the floats and the critical flag. *)
Definition early_part (t : Task) : Task := unlate (unfloat t).

(** Two tables with the same keys that differ at most in those fields. *)
Definition same_early (s s' : store) : Prop :=
  forall j, option_map early_part (lookup j s') = option_map early_part (lookup j s).

(** The free float of the task under [k] cannot be computed: the task has
    a successor, and its early finish or the early start of a successor in
    the table is missing. *)
Definition floats_fail (k : string) (s : store) : Prop :=
  exists t, lookup k s = Some t /\ successors t <> [] /\
            (early_finish t = None \/
             exists x tx, In x (successors t) /\ lookup x s = Some tx /\
                          early_start tx = None).

(** Every listed successor is a key of the table. *)
Definition closed (s : store) : Prop :=
  forall k t x, lookup k s = Some t -> In x (successors t) -> mem x s = true.

(** ** The table the backward pass starts from *)

(** Every task with a successor has an early finish. *)
Definition successors_finish (t : Task) : Prop :=
  successors t <> [] -> early_finish t <> None.

(** A predecessor that is in the table lists the task as a successor. *)
Definition mirrored (s : store) : Prop :=
  forall p x tx, lookup x s = Some tx -> In p (predecessors tx) ->
                 mem p s = true -> lists_successor p x s.

(** ** The predecessor string of a record *)

(** [', '.join(x)], as the merge step of the pipeline builds the
    [pred_task_id] of a task from the ids of its predecessors. *)
Definition join (sep : string) (parts : list string) : string :=
  String.concat sep parts.

(** The id contains a comma. *)
Fixpoint has_comma (s : string) : bool :=
  match s with
  | EmptyString => false
  | String c s' => Ascii.eqb c ","%char || has_comma s'
  end.

(** ** The highlighted rows of the report *)

(** [[for row, is_critical in enumerate(flags, start=row): if is_critical:
    worksheet.set_row(row, None, critical_format)]], as the list of the row
    numbers passed to [set_row]. *)
Fixpoint highlight_from (row : nat) (flags : list bool) : list nat :=
  match flags with
  | [] => []
  | is_crit :: flags' =>
      if is_crit then row :: highlight_from (S row) flags'
      else highlight_from (S row) flags'
  end.

(** The loop over [results_df['is_critical']]; a frame built from an empty
    list of records has no column of that name. *)
Definition highlighted_rows (results : list ResultRow) : result (list nat) :=
  match results with
  | [] => Raise KeyError
  | _ :: _ => Ok (highlight_from 1 (map r_is_critical results))
  end.

(** ** A cycle entered from a source, without a sink *)

(** S starts the cycle A -> B -> A; every task has a successor. *)
Definition closed_loop_rows : list Row :=
  [ row "S" 0 1 None; row "A" 0 2 (Some "S, B"); row "B" 0 3 (Some "A") ].

(** ** Which tasks the backward pass reaches *)

(** The task stored under [k] has a late start. *)
Definition late_started (k : string) (s : store) : Prop :=
  exists t ls, lookup k s = Some t /\ late_start t = Some ls.

(** A visit of [k] will not fall back on the early finish of a task that
    has successors: [k] has a late finish, or no successor, or a successor
    with a late start. *)
Definition bwd_ready (k : string) (s : store) : Prop :=
  forall t, lookup k s = Some t ->
            late_finish t <> None \/ successors t = [] \/
            succ_start_dates s (successors t) <> [].

(** The tasks from which a walk along successor lists gets to a task
    without successors. *)
Inductive coreachable (s : store) : string -> Prop :=
| coreach_end k t :
    lookup k s = Some t -> successors t = [] -> coreachable s k
| coreach_step k t x :
    lookup k s = Some t -> In x (successors t) -> coreachable s x ->
    coreachable s k.

(** Every task with a late start outside [stack] has all its predecessors
    late-started: the tasks of [stack] are the ones still being visited. *)
Definition late_open (stack : list string) (s : store) : Prop :=
  forall x tx p,
    lookup x s = Some tx -> late_start tx <> None -> ~ In x stack ->
    In p (predecessors tx) -> mem p s = true -> late_started p s.

(** [s'] is [s] after some visits of the backward pass. *)
Definition late_extends (s s' : store) : Prop :=
  (forall j, late_started j s -> late_started j s') /\ same_early s s'.

(** What the walk of the backward pass keeps, on a table whose tasks with
    a successor all have an early finish: a late finish comes with its late
    start, and a late start is only given to a task that has an early
    finish and leads to a task without successors of the table [s0]. *)
Definition back_inv (s0 s : store) : Prop :=
  all_tasks late_start_set s /\
  (forall k t, lookup k s = Some t -> late_start t <> None ->
               early_finish t <> None /\ coreachable s0 k).

(** ** A cycle beside a source *)

(** The cycle A -> B -> C -> A next to the task X, which has no
    predecessor and no successor. *)
Definition cycle_beside_source_rows : list Row :=
  [ row "X" 0 1 None; row "A" 0 1 (Some "C"); row "B" 0 1 (Some "A");
    row "C" 0 1 (Some "B") ].

(** [s] is [s0] after some visits of the backward pass that started at
    tasks without successors: a late start is only given to a task from
    which a walk along successor lists gets to such a task. *)
Definition late_from_ends (s0 s : store) : Prop :=
  same_early s0 s /\
  (forall k t, lookup k s = Some t -> late_start t <> None -> coreachable s0 k).

(** * Properties *)

(** ** The dict *)

Section Dict.

Implicit Types (d : store) (k : string) (f g : Task -> Task).

Lemma lookup_update d k k' f :
  lookup k' (update k f d) =
  if String.eqb k k' then option_map f (lookup k' d) else lookup k' d.
Proof.
  induction d as [|[k0 v] d IH]; simpl.
  - now destruct (String.eqb k k').
  - destruct (String.eqb k k0) eqn:E0; simpl.
    + apply String.eqb_eq in E0; subst k0.
      rewrite (String.eqb_sym k' k).
      now destruct (String.eqb k k').
    + rewrite IH. destruct (String.eqb k' k0) eqn:E1; [|reflexivity].
      apply String.eqb_eq in E1; subst k0. now rewrite E0.
Qed.

Lemma lookup_update_same d k f :
  lookup k (update k f d) = option_map f (lookup k d).
Proof. now rewrite lookup_update, String.eqb_refl. Qed.

Lemma lookup_update_other d k k' f :
  k <> k' -> lookup k' (update k f d) = lookup k' d.
Proof.
  intros H. rewrite lookup_update.
  destruct (String.eqb k k') eqn:E; [|reflexivity].
  now apply String.eqb_eq in E.
Qed.

Lemma keys_update d k f : keys (update k f d) = keys d.
Proof.
  unfold keys. induction d as [|[k0 v] d IH]; simpl; [reflexivity|].
  destruct (String.eqb k k0); simpl; [reflexivity|].
  now rewrite IH.
Qed.

Lemma mem_update d k k' f : mem k' (update k f d) = mem k' d.
Proof.
  unfold mem. rewrite lookup_update.
  destruct (String.eqb k k'); [|reflexivity].
  now destruct (lookup k' d).
Qed.

Lemma update_update d k f g :
  update k g (update k f d) = update k (fun t => g (f t)) d.
Proof.
  induction d as [|[k0 v] d IH]; simpl; [reflexivity|].
  destruct (String.eqb k k0) eqn:E; simpl; rewrite E; [reflexivity|].
  now rewrite IH.
Qed.

Lemma update_ext d k f g :
  (forall t, lookup k d = Some t -> f t = g t) -> update k f d = update k g d.
Proof.
  induction d as [|[k0 v] d IH]; simpl; intros H; [reflexivity|].
  destruct (String.eqb k k0) eqn:E.
  - now rewrite H.
  - now rewrite IH.
Qed.

Lemma update_id d k f :
  (forall t, lookup k d = Some t -> f t = t) -> update k f d = d.
Proof.
  induction d as [|[k0 v] d IH]; simpl; intros H; [reflexivity|].
  destruct (String.eqb k k0) eqn:E.
  - now rewrite H.
  - now rewrite IH.
Qed.

Lemma lookup_In d k t : lookup k d = Some t -> In (k, t) d.
Proof.
  induction d as [|[k0 v] d IH]; simpl; [discriminate|].
  destruct (String.eqb k k0) eqn:E.
  - apply String.eqb_eq in E; subst. intros [= ->]. now left.
  - intros H. right. now apply IH.
Qed.

Lemma In_lookup d k t : NoDup (keys d) -> In (k, t) d -> lookup k d = Some t.
Proof.
  induction d as [|[k0 v] d IH]; simpl; [easy|].
  intros ND [[= -> ->]|H].
  - now rewrite String.eqb_refl.
  - inversion ND as [|? ? Hn ND']; subst.
    destruct (String.eqb k k0) eqn:E.
    + apply String.eqb_eq in E; subst k0.
      exfalso. apply Hn. change k with (fst (k, t)). now apply in_map.
    + now apply IH.
Qed.

Lemma mem_keys d k : mem k d = true <-> In k (keys d).
Proof.
  unfold mem. induction d as [|[k0 v] d IH]; simpl; [easy|].
  destruct (String.eqb k k0) eqn:E.
  - apply String.eqb_eq in E; subst. intuition.
  - rewrite IH. apply String.eqb_neq in E. intuition congruence.
Qed.

Lemma In_keys_lookup d k : In k (keys d) -> exists t, lookup k d = Some t.
Proof.
  intros H. apply mem_keys in H. unfold mem in H.
  destruct (lookup k d) as [t|]; [now exists t|discriminate].
Qed.

Lemma lookup_dict_set d k k' v :
  lookup k' (dict_set k v d) = if String.eqb k' k then Some v else lookup k' d.
Proof.
  induction d as [|[k0 v0] d IH]; simpl; [reflexivity|].
  destruct (String.eqb k k0) eqn:E; simpl.
  - apply String.eqb_eq in E; subst k0. now destruct (String.eqb k' k).
  - rewrite IH. destruct (String.eqb k' k0) eqn:E1; [|reflexivity].
    apply String.eqb_eq in E1; subst k0.
    now rewrite String.eqb_sym, E.
Qed.

Lemma keys_dict_set d k v :
  keys (dict_set k v d) = if mem k d then keys d else (keys d ++ [k])%list.
Proof.
  unfold mem, keys. induction d as [|[k0 v0] d IH]; simpl; [reflexivity|].
  destruct (String.eqb k k0) eqn:E; simpl.
  - apply String.eqb_eq in E. now subst.
  - rewrite IH. now destruct (lookup k d).
Qed.

Lemma NoDup_keys_dict_set d k v : NoDup (keys d) -> NoDup (keys (dict_set k v d)).
Proof.
  intros ND. rewrite keys_dict_set. destruct (mem k d) eqn:E; [assumption|].
  apply NoDup_app; [assumption|repeat constructor; easy|].
  intros x Hx [<-|[]]. apply mem_keys in Hx. congruence.
Qed.

Lemma all_tasks_update (P : Task -> Prop) d k f :
  (forall t, lookup k d = Some t -> P t -> P (f t)) ->
  all_tasks P d -> all_tasks P (update k f d).
Proof.
  unfold all_tasks. induction d as [|[k0 v] d IH]; simpl; intros Hf H; [constructor|].
  inversion H as [|? ? Hv Hd]; subst. simpl in Hv.
  destruct (String.eqb k k0) eqn:E.
  - constructor; [|assumption]. simpl. now apply Hf.
  - constructor; [assumption|]. now apply IH.
Qed.

Lemma all_tasks_update_impl (P Q : Task -> Prop) d k f :
  (forall t, P t -> Q t) ->
  (forall t, lookup k d = Some t -> P t -> Q (f t)) ->
  all_tasks P d -> all_tasks Q (update k f d).
Proof.
  unfold all_tasks. induction d as [|[k0 v] d IH]; simpl; intros Hi Hf H; [constructor|].
  inversion H as [|? ? Hv Hd]; subst. simpl in Hv.
  destruct (String.eqb k k0) eqn:E.
  - constructor; [now apply Hf|]. eapply Forall_impl; [|exact Hd].
    intros [k1 t1]. apply Hi.
  - constructor; [now apply Hi|]. now apply IH.
Qed.

Lemma all_tasks_lookup (P : Task -> Prop) d k t :
  all_tasks P d -> lookup k d = Some t -> P t.
Proof.
  intros H L. apply lookup_In in L.
  unfold all_tasks in H. rewrite Forall_forall in H. exact (H _ L).
Qed.

Lemma all_tasks_In (P : Task -> Prop) d k t :
  all_tasks P d -> In (k, t) d -> P t.
Proof.
  intros H L. unfold all_tasks in H. rewrite Forall_forall in H. exact (H _ L).
Qed.

End Dict.

(** ** Unfolding the passes *)

Section Unfolding.

Lemma for_each_inv {A : Type} (Q : store -> Prop) (body : A -> M unit) (l : list A) :
  (forall x s, In x l -> Q s -> Q (fst (body x s))) ->
  forall s, Q s -> Q (fst (for_each l body s)).
Proof.
  induction l as [|x l IH]; simpl; intros Hb s Hs; [assumption|].
  unfold bind. specialize (Hb x s (or_introl eq_refl) Hs) as H1.
  destruct (body x s) as [s1 [[]|e]]; simpl in *; [|assumption].
  apply IH; [|assumption]. intros y s2 Hy. apply Hb. now right.
Qed.

Lemma fwd_process_task_eq d k s :
  ForwardPass.process_task (S d) k s =
  match lookup k s with
  | None => (s, Raise KeyError)
  | Some task =>
      if is_some (early_start task) then (s, Ok tt)
      else for_each (successors task) (fwd_recurse d) (fwd_visit k task s)
  end.
Proof.
  simpl. unfold bind at 1. unfold get_task at 1.
  destruct (lookup k s) as [task|] eqn:L; [|reflexivity].
  destruct (early_start task) as [es|] eqn:Es; [reflexivity|]. simpl.
  unfold fwd_visit, fwd_early_start.
  destruct (predecessors task) as [|p ps] eqn:Ps.
  - unfold bind, assign, get_task, ret. rewrite lookup_update_same, L. simpl.
    rewrite update_update. reflexivity.
  - unfold bind at 1. unfold bind at 1. unfold get at 1.
    destruct (pred_finish_dates s (p :: ps)) as [|x xs] eqn:Pfd.
    + unfold ret at 1. unfold bind, get_task. rewrite L, Es. reflexivity.
    + unfold bind, assign, get_task, ret. rewrite lookup_update_same, L. simpl.
      rewrite update_update. reflexivity.
Qed.

Lemma bwd_process_task_eq d k s :
  BackwardPass.process_task (S d) k s =
  match lookup k s with
  | None => (s, Raise KeyError)
  | Some task =>
      if is_some (late_finish task) then (s, Ok tt)
      else for_each (predecessors task) (bwd_recurse d) (bwd_visit k task s)
  end.
Proof.
  simpl. unfold bind at 1. unfold get_task at 1.
  destruct (lookup k s) as [task|] eqn:L; [|reflexivity].
  destruct (late_finish task) as [lf|] eqn:Lf; [reflexivity|]. simpl.
  assert (Hset : forall v,
    (assign k (set_late_finish v) ;;;
     task' <- get_task k ;;
     (match late_finish task' with
      | Some lf => assign k (set_late_start (Some (lf - duration task')))
      | None => ret tt
      end) ;;;
     for_each (predecessors task)
       (fun pred_id =>
          tasks <- get ;;
          if mem pred_id tasks then BackwardPass.process_task d pred_id else ret tt)) s =
    for_each (predecessors task) (bwd_recurse d)
      (match v with
       | Some lf => update k (fun t => set_late_start (Some (lf - duration task))
                                         (set_late_finish (Some lf) t)) s
       | None => update k (set_late_finish None) s
       end)).
  { intros v. unfold bind, assign, get_task, ret.
    rewrite lookup_update_same, L. simpl.
    destruct v as [lf|]; [|reflexivity].
    rewrite update_update. reflexivity. }
  unfold bwd_visit, bwd_late_finish.
  destruct (successors task) as [|x xs] eqn:Ss.
  - apply Hset.
  - unfold bind at 1. unfold bind at 1. unfold get at 1.
    destruct (succ_start_dates s (x :: xs)) as [|y ys] eqn:Ssd.
    + apply (Hset (early_finish task)).
    + apply (Hset (Some (min_list y ys))).
Qed.

Lemma fwd_process_task_inv (Q : store -> Prop) :
  (forall k task s, lookup k s = Some task -> early_start task = None ->
                    Q s -> Q (fwd_visit k task s)) ->
  forall d k s, Q s -> Q (fst (ForwardPass.process_task d k s)).
Proof.
  intros Hv. induction d as [|d IH]; intros k s Hs; [exact Hs|].
  rewrite fwd_process_task_eq.
  destruct (lookup k s) as [task|] eqn:L; [|exact Hs].
  destruct (early_start task) eqn:Es; [exact Hs|]. simpl.
  apply for_each_inv; [|now apply Hv].
  intros x s1 _ H1. unfold fwd_recurse, bind, get, ret.
  destruct (mem x s1); [apply IH|]; assumption.
Qed.

Lemma bwd_process_task_inv (Q : store -> Prop) :
  (forall k task s, lookup k s = Some task -> late_finish task = None ->
                    Q s -> Q (bwd_visit k task s)) ->
  forall d k s, Q s -> Q (fst (BackwardPass.process_task d k s)).
Proof.
  intros Hv. induction d as [|d IH]; intros k s Hs; [exact Hs|].
  rewrite bwd_process_task_eq.
  destruct (lookup k s) as [task|] eqn:L; [|exact Hs].
  destruct (late_finish task) eqn:Es; [exact Hs|]. simpl.
  apply for_each_inv; [|now apply Hv].
  intros x s1 _ H1. unfold bwd_recurse, bind, get, ret.
  destruct (mem x s1); [apply IH|]; assumption.
Qed.

Lemma forward_pass_inv (Q : store -> Prop) :
  (forall k task s, lookup k s = Some task -> early_start task = None ->
                    Q s -> Q (fwd_visit k task s)) ->
  forall limit s, Q s -> Q (fst (forward_pass limit s)).
Proof.
  intros Hv limit s Hs. unfold forward_pass, bind at 1, get.
  apply for_each_inv; [|assumption].
  intros k s1 _ H1. unfold bind, get_task.
  destruct (lookup k s1) as [task|]; [|assumption].
  destruct (predecessors task); [|assumption].
  now apply fwd_process_task_inv.
Qed.

End Unfolding.

Section UnfoldingMore.

Lemma backward_pass_inv (Q0 Q : store -> Prop) :
  (forall s, Q0 s -> Q s) ->
  (forall k task s, lookup k s = Some task -> late_finish task = None ->
                    Q s -> Q (bwd_visit k task s)) ->
  (forall k task s, lookup k s = Some task ->
                    Q0 s -> Q (update k (set_late_finish (early_finish task)) s)) ->
  forall limit s, Q0 s -> Q (fst (backward_pass limit s)).
Proof.
  intros H0 Hv Hseed limit s Hs. unfold backward_pass, bind at 1, get.
  assert (Hloop : forall ends s1, Q s1 ->
            Q (fst (for_each ends (BackwardPass.process_task limit) s1))).
  { intros ends s1 H1. apply for_each_inv; [|assumption].
    intros k s2 _ H2. now apply bwd_process_task_inv. }
  unfold bind at 1.
  destruct (end_tasks s) as [|e es].
  - destruct (latest_task s) as [k|e]; [|now apply H0].
    unfold bind, get_task, assign, ret.
    destruct (lookup k s) as [task|] eqn:L; [|now apply H0].
    apply Hloop. now apply Hseed.
  - unfold ret. apply Hloop. now apply H0.
Qed.

Lemma calc_task_eq k cp s :
  calc_task k cp s =
  match lookup k s with
  | None => (s, Raise KeyError)
  | Some task =>
      let s1 := update k calc_floats s in
      match successors task with
      | [] => (update k (fun t => set_free_float (total_float t) t) s1,
               Ok (calc_cp task cp))
      | _ :: _ =>
          match min_free_float s1 (early_finish task) (successors task) with
          | Ok ff => (update k (set_free_float (Some ff)) s1, Ok (calc_cp task cp))
          | Raise e => (s1, Raise e)
          end
      end
  end.
Proof.
  unfold calc_task, bind at 1, get_task at 1.
  destruct (lookup k s) as [task|] eqn:L; [|reflexivity].
  assert (E : forall (s1 : store) (cp' : list string) (f : Task -> Task),
            lookup k s1 = Some (f task) ->
            successors (f task) = successors task ->
            early_finish (f task) = early_finish task ->
            (task' <- get_task k ;;
             (match successors task' with
              | _ :: _ =>
                  tasks <- get ;;
                  match min_free_float tasks (early_finish task') (successors task') with
                  | Ok ff => assign k (set_free_float (Some ff))
                  | Raise e => raise e
                  end
              | [] => assign k (set_free_float (total_float task'))
              end) ;;;
             ret cp') s1 =
            match successors task with
            | [] => (update k (fun t => set_free_float (total_float t) t) s1, Ok cp')
            | _ :: _ =>
                match min_free_float s1 (early_finish task) (successors task) with
                | Ok ff => (update k (set_free_float (Some ff)) s1, Ok cp')
                | Raise e => (s1, Raise e)
                end
            end).
  { intros s1 cp' f L1 Hs He. unfold bind at 1, get_task. rewrite L1, Hs, He.
    destruct (successors task) as [|x xs].
    - unfold bind, assign, ret. f_equal.
      apply update_ext. intros t Ht. congruence.
    - unfold bind, get, assign, raise, ret.
      destruct (min_free_float s1 (early_finish task) (x :: xs)); reflexivity. }
  cbv zeta. unfold calc_cp.
  destruct (early_start task) as [es|] eqn:Es.
  2:{ unfold bind at 1, ret at 1.
      assert (Hid : update k calc_floats s = s).
      { apply update_id. intros t Ht. unfold calc_floats.
        assert (t = task) by congruence. subst t. now rewrite Es. }
      rewrite Hid. apply (E s cp (fun t => t)); auto. }
  destruct (late_start task) as [ls|] eqn:Ls.
  2:{ unfold bind at 1, ret at 1.
      assert (Hid : update k calc_floats s = s).
      { apply update_id. intros t Ht. unfold calc_floats.
        assert (t = task) by congruence. subst t. now rewrite Es, Ls. }
      rewrite Hid. apply (E s cp (fun t => t)); auto. }
  unfold bind at 1, bind at 1, assign at 1, bind at 1, assign at 1, ret at 1.
  rewrite update_update.
  assert (Hf : update k (fun t => set_is_critical (days (ls - es) =? 0)
                                    (set_total_float (Some (days (ls - es))) t)) s
               = update k calc_floats s).
  { apply update_ext. intros t Ht. unfold calc_floats.
    assert (t = task) by congruence. subst t. now rewrite Es, Ls. }
  rewrite Hf.
  apply (E (update k calc_floats s) _ calc_floats).
  - now rewrite lookup_update_same, L.
  - unfold calc_floats. now rewrite Es, Ls.
  - unfold calc_floats. now rewrite Es, Ls.
Qed.

Lemma run_analysis_eq limit df :
  run_analysis limit df =
  match calculate_floats_and_critical_path (scheduled limit df) with
  | (s, Ok cp) => (s, Ok (map result_of_task (values s), cp))
  | (s, Raise e) => (s, Raise e)
  end.
Proof.
  unfold run_analysis, analysis, scheduled, swallow, bind, get, ret. simpl.
  destruct (calculate_floats_and_critical_path _) as [s [cp|e]]; reflexivity.
Qed.

End UnfoldingMore.

(** ** create_task_objects *)

Section Create.

Lemma all_entries_update (P : string -> Task -> Prop) d k f :
  (forall t, lookup k d = Some t -> P k t -> P k (f t)) ->
  all_entries P d -> all_entries P (update k f d).
Proof.
  unfold all_entries. induction d as [|[k0 v] d IH]; simpl; intros Hf H; [constructor|].
  inversion H as [|? ? Hv Hd]; subst. simpl in Hv.
  destruct (String.eqb k k0) eqn:E.
  - apply String.eqb_eq in E; subst k0.
    constructor; [|assumption]. simpl. now apply Hf.
  - constructor; [assumption|]. now apply IH.
Qed.

Lemma all_entries_dict_set (P : string -> Task -> Prop) d k v :
  P k v -> all_entries P d -> all_entries P (dict_set k v d).
Proof.
  unfold all_entries. induction d as [|[k0 v0] d IH]; simpl; intros Hv H.
  - now constructor.
  - inversion H as [|? ? H0 Hd]; subst.
    destruct (String.eqb k k0); constructor; auto.
Qed.

Lemma all_tasks_dict_set (P : Task -> Prop) d k v :
  P v -> all_tasks P d -> all_tasks P (dict_set k v d).
Proof. apply (all_entries_dict_set (fun _ => P)). Qed.

Lemma insert_rows_inv (Q : store -> Prop) :
  Q [] ->
  (forall r s, Q s -> Q (dict_set (row_task_id r) (task_of_row r) s)) ->
  forall df, Q (insert_rows df).
Proof.
  intros Q0 Hs df. unfold insert_rows.
  generalize (@nil (string * Task)) Q0.
  induction df as [|r df IH]; simpl; intros s H; [assumption|].
  apply IH. now apply Hs.
Qed.

Lemma link_task_inv (Q : store -> Prop) tasks task :
  (forall p s, mem p s = true -> Q s ->
               Q (update p (append_successor (task_id task)) s)) ->
  Q tasks -> Q (link_task tasks task).
Proof.
  intros Hs. unfold link_task. generalize tasks.
  induction (predecessors task) as [|p ps IH]; simpl; intros s H; [assumption|].
  apply IH. destruct (mem p s) eqn:E; [now apply Hs|assumption].
Qed.

Lemma link_successors_inv (Q : store -> Prop) :
  (forall p k task s s', Q s' -> lookup k s' = Some task ->
                         mem p s = true -> Q s ->
                         Q (update p (append_successor (task_id task)) s)) ->
  forall s, Q s -> Q (link_successors s).
Proof.
  intros Hs s. unfold link_successors. generalize (keys s). intros ks. revert s.
  induction ks as [|k ks IH]; simpl; intros s H; [assumption|].
  apply IH. destruct (lookup k s) as [task|] eqn:L; [|assumption].
  apply link_task_inv; [|assumption].
  intros p s1 Hm H1. now apply (Hs p k task s1 s).
Qed.

Lemma create_task_objects_inv (Q : store -> Prop) :
  Q [] ->
  (forall r s, Q s -> Q (dict_set (row_task_id r) (task_of_row r) s)) ->
  (forall p x s, mem p s = true -> Q s -> Q (update p (append_successor x) s)) ->
  forall df, Q (create_task_objects df).
Proof.
  intros Q0 Hset Hupd df. unfold create_task_objects.
  apply link_successors_inv.
  - intros p k task s s' _ _ Hm H. now apply Hupd.
  - now apply insert_rows_inv.
Qed.

Lemma create_NoDup df : NoDup (keys (create_task_objects df)).
Proof.
  apply create_task_objects_inv.
  - constructor.
  - intros r s. apply NoDup_keys_dict_set.
  - intros p x s _ H. now rewrite keys_update.
Qed.

Lemma create_fresh df : all_tasks fresh (create_task_objects df).
Proof.
  apply create_task_objects_inv.
  - constructor.
  - intros r s H. apply all_tasks_dict_set; [|assumption].
    unfold fresh, task_of_row, Task_init. simpl. tauto.
  - intros p x s _ H. apply all_tasks_update; [|assumption].
    intros t _ Ht. exact Ht.
Qed.

Lemma create_key_is_id df : key_is_id (create_task_objects df).
Proof.
  unfold key_is_id. apply create_task_objects_inv.
  - constructor.
  - intros r s H. apply all_entries_dict_set; [reflexivity|assumption].
  - intros p x s _ H. apply all_entries_update; [|assumption].
    intros t _ Ht. exact Ht.
Qed.

Lemma first_occurrences_snoc ids k :
  first_occurrences (ids ++ [k]) =
  if existsb (String.eqb k) (first_occurrences ids)
  then first_occurrences ids
  else (first_occurrences ids ++ [k])%list.
Proof. unfold first_occurrences. now rewrite fold_left_app. Qed.

Lemma existsb_eqb_mem d k : existsb (String.eqb k) (keys d) = mem k d.
Proof.
  unfold mem, keys. induction d as [|[k0 v] d IH]; simpl; [reflexivity|].
  destruct (String.eqb k k0); simpl; [reflexivity|]. exact IH.
Qed.

Lemma keys_insert_rows df :
  keys (insert_rows df) = first_occurrences (map row_task_id df).
Proof.
  induction df as [|r df IH] using rev_ind; [reflexivity|].
  rewrite map_app. simpl. rewrite first_occurrences_snoc, <- IH.
  unfold insert_rows. rewrite fold_left_app. simpl.
  rewrite keys_dict_set. fold (insert_rows df).
  now rewrite existsb_eqb_mem.
Qed.

Lemma keys_link_successors s : keys (link_successors s) = keys s.
Proof.
  apply (link_successors_inv (fun s' => keys s' = keys s)); [|reflexivity].
  intros p k task s1 s' _ _ _ H. now rewrite keys_update.
Qed.

Lemma keys_create df :
  keys (create_task_objects df) = first_occurrences (map row_task_id df).
Proof.
  unfold create_task_objects. now rewrite keys_link_successors, keys_insert_rows.
Qed.

End Create.

(** ** What the passes leave alone *)

Section Frames.

Lemma calc_loop_inv (Q : store -> Prop) :
  (forall k s, Q s -> Q (update k calc_floats s)) ->
  (forall k (g : Task -> option Z) s,
      Q s -> Q (update k (fun t => set_free_float (g t) t) s)) ->
  forall ks cp s, Q s -> Q (fst (calc_loop ks cp s)).
Proof.
  intros Hc Hf. induction ks as [|k ks IH]; simpl; intros cp s Hs; [assumption|].
  unfold bind. rewrite calc_task_eq.
  destruct (lookup k s) as [task|]; [|assumption]. cbv zeta.
  destruct (successors task) as [|x xs].
  - apply IH. apply (Hf k total_float). now apply Hc.
  - destruct (min_free_float _ _ _) as [ff|e]; simpl.
    + apply IH. apply (Hf k (fun _ => Some ff)). now apply Hc.
    + now apply Hc.
Qed.

Lemma calculate_inv (Q : store -> Prop) :
  (forall k s, Q s -> Q (update k calc_floats s)) ->
  (forall k (g : Task -> option Z) s,
      Q s -> Q (update k (fun t => set_free_float (g t) t) s)) ->
  forall s, Q s -> Q (fst (calculate_floats_and_critical_path s)).
Proof.
  intros Hc Hf s Hs. unfold calculate_floats_and_critical_path, bind, get.
  now apply calc_loop_inv.
Qed.

Lemma fwd_visit_all_entries P k task s :
  fwd_stable P -> lookup k s = Some task -> early_start task = None ->
  all_entries P s -> all_entries P (fwd_visit k task s).
Proof.
  intros HP L Es H. unfold fwd_visit.
  destruct (fwd_early_start s task) as [es|]; [|assumption].
  apply all_entries_update; [|assumption].
  intros t Ht Pt. assert (t = task) by congruence. subst t. now apply HP.
Qed.

Lemma bwd_visit_all_entries P k task s :
  bwd_stable P -> lookup k s = Some task -> late_finish task = None ->
  all_entries P s -> all_entries P (bwd_visit k task s).
Proof.
  intros [HP1 HP2] L Es H. unfold bwd_visit.
  destruct (bwd_late_finish s task) as [lf|];
    (apply all_entries_update; [|assumption]);
    intros t Ht Pt; assert (t = task) by congruence; subst t; auto.
Qed.

Lemma forward_pass_all_entries P limit s :
  fwd_stable P -> all_entries P s -> all_entries P (fst (forward_pass limit s)).
Proof.
  intros HP. apply forward_pass_inv. intros k task s1. now apply fwd_visit_all_entries.
Qed.

Lemma ignores_late_bwd_stable P : ignores_late P -> bwd_stable P.
Proof.
  intros H. split.
  - intros k t lf _ Pt.
    apply (H k _ (Some (lf - duration t))). now apply (H k t (Some lf)).
  - intros k t _ Pt. now apply (H k t None).
Qed.

Lemma backward_pass_all_entries P limit s :
  ignores_late P -> all_entries P s -> all_entries P (fst (backward_pass limit s)).
Proof.
  intros HP. apply (backward_pass_inv (all_entries P) (all_entries P)); [auto| |].
  - intros k task s1. apply bwd_visit_all_entries. now apply ignores_late_bwd_stable.
  - intros k task s1 L H. apply all_entries_update; [|assumption].
    intros t _ Pt. now apply (HP k t (early_finish task)).
Qed.

Lemma scheduled_all_entries P limit df :
  fwd_stable P -> ignores_late P ->
  all_entries P (create_task_objects df) -> all_entries P (scheduled limit df).
Proof.
  intros HP1 HP2 H. unfold scheduled, swallow. simpl.
  apply backward_pass_all_entries; [assumption|].
  now apply forward_pass_all_entries.
Qed.

Lemma keys_forward_pass limit s : keys (fst (forward_pass limit s)) = keys s.
Proof.
  apply (forward_pass_inv (fun s' => keys s' = keys s)); [|reflexivity].
  intros k task s1 _ _ H. unfold fwd_visit.
  destruct (fwd_early_start s1 task); [|assumption]. now rewrite keys_update.
Qed.

Lemma keys_backward_pass limit s : keys (fst (backward_pass limit s)) = keys s.
Proof.
  apply (backward_pass_inv (fun s' => keys s' = keys s) (fun s' => keys s' = keys s));
    [auto| | |reflexivity].
  - intros k task s1 _ _ H. unfold bwd_visit.
    destruct (bwd_late_finish s1 task); now rewrite keys_update.
  - intros k task s1 _ H. now rewrite keys_update.
Qed.

Lemma keys_scheduled limit df :
  keys (scheduled limit df) = keys (create_task_objects df).
Proof.
  unfold scheduled, swallow. simpl.
  now rewrite keys_backward_pass, keys_forward_pass.
Qed.

Lemma keys_calculate s :
  keys (fst (calculate_floats_and_critical_path s)) = keys s.
Proof.
  apply (calculate_inv (fun s' => keys s' = keys s)); [| |reflexivity];
    intros; now rewrite keys_update.
Qed.

Lemma crit_ok_scheduled limit df : all_tasks crit_ok (scheduled limit df).
Proof.
  apply (scheduled_all_entries (fun _ => crit_ok)).
  - intros k t es _ H. exact H.
  - intros k t v H. split; exact H.
  - assert (H := create_fresh df). unfold all_tasks, all_entries in *.
    eapply Forall_impl; [|exact H]. intros [k t] (_ & _ & _ & _ & Htf & _ & Hic).
    unfold crit_ok. simpl in *. rewrite Htf, Hic. split; discriminate.
Qed.

Lemma crit_ok_calc_floats t : crit_ok (calc_floats t) \/ calc_floats t = t.
Proof.
  unfold calc_floats.
  destruct (early_start t); [|now right]. destruct (late_start t); [|now right].
  left. unfold crit_ok. simpl. rewrite Z.eqb_eq. split; [now intros ->|now intros [= ->]].
Qed.

Lemma crit_ok_calculate s :
  all_tasks crit_ok s ->
  all_tasks crit_ok (fst (calculate_floats_and_critical_path s)).
Proof.
  apply calculate_inv.
  - intros k s1 H. apply all_tasks_update; [|assumption].
    intros t _ Ht. destruct (crit_ok_calc_floats t) as [H1|H1]; [assumption|].
    now rewrite H1.
  - intros k g s1 H. apply all_tasks_update; [|assumption].
    intros t _ Ht. exact Ht.
Qed.

End Frames.

(** ** Criticality *)

(** C8. When the analysis returns, every row of the results has
    [is_critical] true exactly when its [total_float] is the integer 0; a
    task whose float was never computed has [total_float] unset and
    [is_critical] false. *)
Theorem C8_is_critical_iff_zero_total_float limit df rows cp :
  perform_critical_path_analysis limit df = Ok (rows, cp) ->
  Forall (fun r => r_is_critical r = true <-> r_total_float r = Some 0) rows.
Proof.
  unfold perform_critical_path_analysis. rewrite run_analysis_eq.
  assert (H := crit_ok_calculate _ (crit_ok_scheduled limit df)).
  destruct (calculate_floats_and_critical_path (scheduled limit df)) as [s [cp'|e]];
    simpl in *; [|discriminate].
  intros [= <- <-]. unfold values. rewrite map_map.
  apply Forall_map. unfold all_tasks in H.
  eapply Forall_impl; [|exact H]. intros [k t] Ht. exact Ht.
Qed.

Lemma C8_witness :
  perform_critical_path_analysis 1000 parallel_rows
  = Ok (map result_of_task (values (fst (run_analysis 1000 parallel_rows))), ["A"; "C"])
  /\ Forall (fun r => r_is_critical r = true <-> r_total_float r = Some 0)
            (map result_of_task (values (fst (run_analysis 1000 parallel_rows)))).
Proof.
  assert (E : perform_critical_path_analysis 1000 parallel_rows
              = Ok (map result_of_task (values (fst (run_analysis 1000 parallel_rows))),
                    ["A"; "C"])) by (vm_compute; reflexivity).
  split; [exact E|].
  exact (C8_is_critical_iff_zero_total_float 1000 parallel_rows _ _ E).
Defined.

(** C1. The forward pass on the acyclic input A (2 days), B (5 days),
    C after A and B, with A first in the table: the pass completes, C is
    reached through A while B has no early finish yet, takes A's finish as
    its early start, and the later visit from B returns at once.  C ends
    with early start day 2 although its predecessor B finishes on day 5. *)
Theorem C1_forward_pass_misses_later_predecessor :
  let out := forward_pass 1000 (create_task_objects late_predecessor_rows) in
  snd out = Ok tt /\
  option_map predecessors (lookup "C" (fst out)) = Some ["A"; "B"] /\
  option_map early_finish (lookup "A" (fst out)) = Some (Some (whole_days 2)) /\
  option_map early_finish (lookup "B" (fst out)) = Some (Some (whole_days 5)) /\
  option_map early_start (lookup "C" (fst out)) = Some (Some (whole_days 2)) /\
  option_map early_finish (lookup "C" (fst out)) = Some (Some (whole_days 3)) /\
  max_list (whole_days 2) [whole_days 5] = whole_days 5.
Proof. vm_compute. repeat split. Qed.

(** C9. The analysis of A, T, B after T, C after A and B returns a
    table in which T has free float 0 and total float -4: its free float
    exceeds its total float.  The early start of C was taken from A alone
    (the defect shown for C1), which drives the late dates of B and T
    below their early dates. *)
Theorem C9_free_float_exceeds_total_float :
  perform_critical_path_analysis 1000 negative_float_rows =
  Ok ([ day_row "A" 0 2 0 2 0 0 true;
        day_row "T" 0 1 (-4) (-3) (-4) 0 false;
        day_row "B" 1 6 (-3) 2 (-4) (-4) false;
        day_row "C" 2 3 2 3 0 0 true ],
      ["A"; "C"]).
Proof. vm_compute. reflexivity. Qed.

(** ** Dates, durations and floats *)

Section Floats.

Lemma calc_floats_dates t :
  early_start (calc_floats t) = early_start t /\
  early_finish (calc_floats t) = early_finish t /\
  late_start (calc_floats t) = late_start t /\
  late_finish (calc_floats t) = late_finish t /\
  duration (calc_floats t) = duration t /\
  task_id (calc_floats t) = task_id t /\
  successors (calc_floats t) = successors t /\
  predecessors (calc_floats t) = predecessors t.
Proof.
  unfold calc_floats.
  destruct (early_start t) eqn:Es; [|now rewrite Es].
  destruct (late_start t) eqn:Ls; [|now rewrite Ls, Es].
  simpl. now rewrite Es, Ls.
Qed.

Lemma early_consistent_scheduled limit df :
  all_tasks early_consistent (scheduled limit df).
Proof.
  apply (scheduled_all_entries (fun _ => early_consistent)).
  - intros k t es _ _ a. simpl. now intros [= <-].
  - intros k t v H. split; exact H.
  - assert (H := create_fresh df). unfold all_tasks, all_entries in *.
    eapply Forall_impl; [|exact H]. intros [k t] (Hes & _) a. simpl in *. congruence.
Qed.

Lemma late_unset_consistent s :
  all_tasks late_unset s -> all_tasks late_consistent s.
Proof.
  intros H. unfold all_tasks in *. eapply Forall_impl; [|exact H].
  intros [k t] [Hls _] b. simpl in *. congruence.
Qed.

Lemma late_consistent_bwd_visit k task s :
  lookup k s = Some task -> late_finish task = None ->
  all_tasks late_consistent s -> all_tasks late_consistent (bwd_visit k task s).
Proof.
  apply (bwd_visit_all_entries (fun _ => late_consistent)). split.
  - intros _ t lf _ _ b. simpl. intros [= <-]. f_equal. lia.
  - intros _ t Hlf Ht b. simpl. intros Hb. specialize (Ht b Hb). congruence.
Qed.

Lemma late_consistent_backward_pass limit s :
  all_tasks late_unset s -> all_tasks late_consistent (fst (backward_pass limit s)).
Proof.
  apply (backward_pass_inv (all_tasks late_unset) (all_tasks late_consistent)).
  - apply late_unset_consistent.
  - intros k task s1. apply late_consistent_bwd_visit.
  - intros k task s1 L H. apply (all_tasks_update_impl late_unset); [| |assumption].
    + intros t [Hls _] b. congruence.
    + intros t _ [Hls _] b. simpl. congruence.
Qed.

Lemma late_unset_forward_pass limit df :
  all_tasks late_unset (fst (forward_pass limit (create_task_objects df))).
Proof.
  apply (forward_pass_all_entries (fun _ => late_unset)).
  - intros k t es _ H. exact H.
  - assert (H := create_fresh df). unfold all_tasks, all_entries in *.
    eapply Forall_impl; [|exact H]. intros [k t] (_ & _ & Hls & Hlf & _).
    split; assumption.
Qed.

Lemma late_consistent_scheduled limit df :
  all_tasks late_consistent (scheduled limit df).
Proof.
  unfold scheduled, swallow. simpl.
  apply late_consistent_backward_pass, late_unset_forward_pass.
Qed.

Lemma calculate_keeps_dates (P : Task -> Prop) s :
  (forall t t', early_start t' = early_start t -> early_finish t' = early_finish t ->
                late_start t' = late_start t -> late_finish t' = late_finish t ->
                duration t' = duration t -> P t -> P t') ->
  all_tasks P s -> all_tasks P (fst (calculate_floats_and_critical_path s)).
Proof.
  intros HP. apply calculate_inv.
  - intros k s1 H. apply all_tasks_update; [|assumption].
    intros t _. destruct (calc_floats_dates t) as (? & ? & ? & ? & ? & _).
    now apply HP.
  - intros k g s1 H. apply all_tasks_update; [|assumption].
    intros t _. now apply HP.
Qed.

Lemma float_computed_calc_floats t : float_computed (calc_floats t).
Proof.
  unfold float_computed, calc_floats. intros a b.
  destruct (early_start t) eqn:Es; [|now rewrite Es].
  destruct (late_start t) eqn:Ls; [|now rewrite Ls].
  simpl. rewrite Es, Ls. now intros [= ->] [= ->].
Qed.

Lemma calc_loop_keeps_float_computed k ks cp s :
  (forall t, lookup k s = Some t -> float_computed t) ->
  forall t, lookup k (fst (calc_loop ks cp s)) = Some t -> float_computed t.
Proof.
  apply (calc_loop_inv (fun s' => forall t, lookup k s' = Some t -> float_computed t)).
  - intros j s1 H t. rewrite lookup_update.
    destruct (String.eqb j k); [|apply H].
    destruct (lookup k s1) as [t0|]; [|discriminate]. simpl.
    intros [= <-]. apply float_computed_calc_floats.
  - intros j g s1 H t. rewrite lookup_update.
    destruct (String.eqb j k); [|apply H].
    destruct (lookup k s1) as [t0|] eqn:L; [|discriminate]. simpl.
    intros [= <-]. exact (H t0 eq_refl).
Qed.

Lemma calc_task_float_computed k cp s s1 cp1 :
  calc_task k cp s = (s1, Ok cp1) ->
  forall t, lookup k s1 = Some t -> float_computed t.
Proof.
  rewrite calc_task_eq. destruct (lookup k s) as [task|] eqn:L; [|discriminate].
  cbv zeta. intros H t Ht.
  assert (E : exists g, s1 = update k (fun t => set_free_float (g t) t)
                                      (update k calc_floats s)).
  { destruct (successors task).
    - injection H as <- _. now exists total_float.
    - destruct (min_free_float _ _ _) as [ff|e]; [|discriminate].
      injection H as <- _. now exists (fun _ => Some ff). }
  destruct E as [g ->]. rewrite !lookup_update_same, L in Ht. simpl in Ht.
  injection Ht as <-. exact (float_computed_calc_floats task).
Qed.

Lemma calc_loop_float_computed ks : forall cp s s' cp',
  calc_loop ks cp s = (s', Ok cp') ->
  forall k, In k ks -> forall t, lookup k s' = Some t -> float_computed t.
Proof.
  induction ks as [|k0 ks IH]; simpl; intros cp s s' cp' H k Hk t Ht; [easy|].
  unfold bind in H. destruct (calc_task k0 cp s) as [s1 [cp1|e]] eqn:E1; [|discriminate].
  destruct Hk as [->|Hk].
  - assert (Hs' : s' = fst (calc_loop ks cp1 s1)) by now rewrite H.
    subst s'. revert t Ht. apply calc_loop_keeps_float_computed.
    exact (calc_task_float_computed _ _ _ _ _ E1).
  - exact (IH _ _ _ _ H k Hk t Ht).
Qed.

Lemma days_whole_days n : days (whole_days n) = n.
Proof. unfold days, whole_days. now apply Z.div_mul. Qed.

End Floats.

(** C7, as the code has it.  When the analysis returns, every task
    with both start dates set has [early_finish = early_start + duration]
    and [late_finish = late_start + duration]; its [total_float] is the
    number of whole days ([.days]) in [late_start - early_start], which is
    also the number of whole days in [late_finish - early_finish], and it
    is the difference itself whenever that is a whole number of days. *)
Theorem C7_durations_and_whole_day_total_float limit df s out k t es ls :
  run_analysis limit df = (s, Ok out) ->
  In (k, t) s ->
  early_start t = Some es ->
  late_start t = Some ls ->
  early_finish t = Some (es + duration t) /\
  late_finish t = Some (ls + duration t) /\
  total_float t = Some (days (ls - es)) /\
  days (ls - es) = days ((ls + duration t) - (es + duration t)) /\
  (forall n, ls - es = whole_days n -> days (ls - es) = n).
Proof.
  rewrite run_analysis_eq. intros Hrun Hin Hes Hls.
  assert (He := calculate_keeps_dates early_consistent (scheduled limit df)).
  assert (Hl := calculate_keeps_dates late_consistent (scheduled limit df)).
  assert (Hk := keys_calculate (scheduled limit df)).
  destruct (calculate_floats_and_critical_path (scheduled limit df))
    as [s' [cp|e]] eqn:E0; [|discriminate].
  assert (E : calc_loop (keys (scheduled limit df)) [] (scheduled limit df)
              = (s', Ok cp)) by exact E0.
  injection Hrun as <- _. simpl in He, Hl, Hk.
  assert (ND : NoDup (keys s')).
  { rewrite Hk, keys_scheduled. apply create_NoDup. }
  assert (L := In_lookup _ _ _ ND Hin).
  assert (Hkin : In k (keys (scheduled limit df))).
  { rewrite <- Hk. change k with (fst (k, t)). now apply in_map. }
  repeat split.
  - refine (all_tasks_In _ _ _ _ (He _ (early_consistent_scheduled limit df)) Hin es Hes).
    intros t1 t2 E1 E2 _ _ E5 H1 a. rewrite E1, E2, E5. apply H1.
  - refine (all_tasks_In _ _ _ _ (Hl _ (late_consistent_scheduled limit df)) Hin ls Hls).
    intros t1 t2 _ _ E3 E4 E5 H1 b. rewrite E3, E4, E5. apply H1.
  - exact (calc_loop_float_computed _ _ _ _ _ E k Hkin t L es ls Hes Hls).
  - f_equal. lia.
  - intros n ->. apply days_whole_days.
Qed.

Lemma C7_witness :
  let s := fst (run_analysis 1000 parallel_rows) in
  let t := snd (nth 1 s (EmptyString, Task_init EmptyString EmptyString 0 0 0 [])) in
  In ("B", t) s /\
  early_start t = Some (whole_days 0) /\
  late_start t = Some (whole_days 3) /\
  early_finish t = Some (whole_days 0 + duration t) /\
  late_finish t = Some (whole_days 3 + duration t) /\
  total_float t = Some (days (whole_days 3 - whole_days 0)).
Proof.
  intros s t.
  assert (Hrun : run_analysis 1000 parallel_rows
                 = (s, Ok (map result_of_task (values s), ["A"; "C"])))
    by (vm_compute; reflexivity).
  assert (Hin : In ("B", t) s) by (vm_compute; right; left; reflexivity).
  assert (Hes : early_start t = Some (whole_days 0)) by (vm_compute; reflexivity).
  assert (Hls : late_start t = Some (whole_days 3)) by (vm_compute; reflexivity).
  destruct (C7_durations_and_whole_day_total_float
              1000 parallel_rows s _ "B" t _ _ Hrun Hin Hes Hls)
    as (H1 & H2 & H3 & _).
  repeat split; assumption.
Defined.

(** C7 as stated fails when a difference is not a whole number of days.
    B takes 4 days beside A, which takes 4.5 days: B may start twelve
    hours late, and its [total_float] is 0. *)
Lemma C7_counterexample_half_day_slack :
  let run := run_analysis 1000 half_day_rows in
  returned (snd run) = true /\
  option_map early_start (lookup "B" (fst run)) = Some (Some 0) /\
  option_map late_start (lookup "B" (fst run)) = Some (Some half_day) /\
  option_map total_float (lookup "B" (fst run)) = Some (Some 0) /\
  option_map is_critical (lookup "B" (fst run)) = Some true /\
  whole_days 0 <> half_day - 0.
Proof. vm_compute. repeat split. discriminate. Qed.

(** ** The critical path and the order of the table *)

Section CriticalPath.

Lemma calc_loop_other k ks : forall cp s,
  ~ In k ks -> lookup k (fst (calc_loop ks cp s)) = lookup k s.
Proof.
  induction ks as [|k0 ks IH]; simpl; intros cp s Hk; [reflexivity|].
  assert (Hne : k0 <> k) by tauto.
  unfold bind. rewrite calc_task_eq.
  destruct (lookup k0 s) as [task|]; [|reflexivity]. cbv zeta.
  destruct (successors task).
  - rewrite IH by tauto. now rewrite !lookup_update_other.
  - destruct (min_free_float _ _ _); simpl.
    + rewrite IH by tauto. now rewrite !lookup_update_other.
    + now rewrite lookup_update_other.
Qed.

Lemma calc_task_spec k cp s s1 cp1 :
  calc_task k cp s = (s1, Ok cp1) ->
  exists task t1,
    lookup k s = Some task /\ lookup k s1 = Some t1 /\
    cp1 = calc_cp task cp /\
    is_critical t1 = is_critical (calc_floats task) /\
    task_id t1 = task_id task /\
    (forall j, j <> k -> lookup j s1 = lookup j s).
Proof.
  rewrite calc_task_eq. destruct (lookup k s) as [task|] eqn:L; [|discriminate].
  cbv zeta. intros H.
  assert (E : exists g, s1 = update k (fun t => set_free_float (g t) t)
                                      (update k calc_floats s) /\ cp1 = calc_cp task cp).
  { destruct (successors task).
    - injection H as <- <-. now exists total_float.
    - destruct (min_free_float _ _ _) as [ff|e]; [|discriminate].
      injection H as <- <-. now exists (fun _ => Some ff). }
  destruct E as (g & -> & ->).
  exists task, (set_free_float (g (calc_floats task)) (calc_floats task)).
  rewrite !lookup_update_same, L. simpl.
  destruct (calc_floats_dates task) as (_ & _ & _ & _ & _ & Hid & _).
  repeat split; try assumption; try reflexivity.
  intros j Hj. rewrite !lookup_update_other; auto.
Qed.

Lemma calc_cp_crit task cp :
  is_critical task = false ->
  calc_cp task cp =
  (cp ++ if is_critical (calc_floats task) then [task_id task] else [])%list.
Proof.
  intros Hc. unfold calc_cp, calc_floats.
  destruct (early_start task); [|now rewrite Hc, app_nil_r].
  destruct (late_start task); [|now rewrite Hc, app_nil_r].
  simpl. destruct (days (z0 - z) =? 0); [reflexivity|now rewrite app_nil_r].
Qed.

Lemma calc_loop_cp ks : forall cp s s' cp',
  calc_loop ks cp s = (s', Ok cp') ->
  NoDup ks ->
  (forall k, In k ks -> forall t, lookup k s = Some t -> is_critical t = false) ->
  cp' = (cp ++ crit_ids s' ks)%list.
Proof.
  induction ks as [|k ks IH]; simpl; intros cp s s' cp' H ND Hc.
  - injection H as _ <-. now rewrite app_nil_r.
  - unfold bind in H.
    destruct (calc_task k cp s) as [s1 [cp1|e]] eqn:E1; [|discriminate].
    destruct (calc_task_spec _ _ _ _ _ E1) as (task & t1 & L & L1 & -> & Hic & Hid & Hoth).
    inversion ND as [|? ? Hnin ND']; subst.
    assert (Hk : lookup k s' = Some t1).
    { replace s' with (fst (calc_loop ks (calc_cp task cp) s1)) by now rewrite H.
      now rewrite calc_loop_other. }
    rewrite (IH _ _ _ _ H ND').
    + rewrite Hk, Hic, Hid, (calc_cp_crit task cp), <- app_assoc; [reflexivity|].
      now apply (Hc k (or_introl eq_refl)).
    + intros j Hj t Ht. apply (Hc j (or_intror Hj)).
      rewrite <- Ht. symmetry. apply Hoth. intros ->. contradiction.
Qed.

Lemma crit_ids_sub s l :
  (forall k t, In (k, t) l -> lookup k s = Some t) ->
  crit_ids s (keys l) = map task_id (filter is_critical (values l)).
Proof.
  induction l as [|[k t] l IH]; simpl; intros H; [reflexivity|].
  rewrite (H k t (or_introl eq_refl)). fold (crit_ids s (keys l)).
  rewrite IH by (intros; apply H; now right).
  now destruct (is_critical t).
Qed.

Lemma crit_ids_values s :
  NoDup (keys s) ->
  crit_ids s (keys s) = map task_id (filter is_critical (values s)).
Proof. intros ND. apply crit_ids_sub. intros k t. now apply In_lookup. Qed.

Lemma filter_result_rows ts :
  map r_task_id (filter r_is_critical (map result_of_task ts)) =
  map task_id (filter is_critical ts).
Proof.
  induction ts as [|t ts IH]; simpl; [reflexivity|].
  destruct (is_critical t); simpl; now rewrite IH.
Qed.

Lemma not_critical_scheduled limit df :
  all_tasks (fun t => is_critical t = false) (scheduled limit df).
Proof.
  apply (scheduled_all_entries (fun _ t => is_critical t = false)).
  - intros k t es _ H. exact H.
  - intros k t v H. split; exact H.
  - assert (H := create_fresh df). unfold all_tasks, all_entries in *.
    eapply Forall_impl; [|exact H]. now intros [k t] (_ & _ & _ & _ & _ & _ & Hic).
Qed.

Lemma key_is_id_scheduled limit df : key_is_id (scheduled limit df).
Proof.
  apply scheduled_all_entries.
  - intros k t es _ H. exact H.
  - intros k t v H. split; exact H.
  - apply create_key_is_id.
Qed.

Lemma key_is_id_calculate s :
  key_is_id s -> key_is_id (fst (calculate_floats_and_critical_path s)).
Proof.
  apply calculate_inv.
  - intros k s1 H. apply all_entries_update; [|assumption].
    intros t _ Ht. now destruct (calc_floats_dates t) as (_ & _ & _ & _ & _ & -> & _).
  - intros k g s1 H. apply all_entries_update; [|assumption].
    intros t _ Ht. exact Ht.
Qed.

Lemma key_is_id_keys s : key_is_id s -> map task_id (values s) = keys s.
Proof.
  unfold key_is_id, all_entries, values, keys.
  induction 1 as [|[k t] l H _ IH]; simpl in *; [reflexivity|]. now rewrite H, IH.
Qed.

End CriticalPath.

(** C10, as the code has it.  The returned critical path is one flat
    list: exactly the ids of the rows flagged critical, in the order of the
    result table.  No chain is followed or separated. *)
Theorem C10_critical_path_lists_critical_rows_in_table_order limit df rows cp :
  perform_critical_path_analysis limit df = Ok (rows, cp) ->
  cp = map r_task_id (filter r_is_critical rows).
Proof.
  unfold perform_critical_path_analysis. rewrite run_analysis_eq.
  assert (Hk := keys_calculate (scheduled limit df)).
  destruct (calculate_floats_and_critical_path (scheduled limit df))
    as [s' [cp'|e]] eqn:E0; [|discriminate].
  assert (E : calc_loop (keys (scheduled limit df)) [] (scheduled limit df)
              = (s', Ok cp')) by exact E0.
  simpl in *. intros [= <- <-].
  assert (ND : NoDup (keys (scheduled limit df))).
  { rewrite keys_scheduled. apply create_NoDup. }
  rewrite filter_result_rows, <- crit_ids_values by now rewrite Hk.
  rewrite Hk. apply (calc_loop_cp _ _ _ _ _ E ND).
  intros k _ t L. exact (all_tasks_lookup _ _ _ _ (not_critical_scheduled limit df) L).
Qed.

Lemma C10_witness :
  perform_critical_path_analysis 1000 reversed_chain_rows =
  Ok ([ day_row "C" 5 6 5 6 0 0 true; day_row "B" 2 5 2 5 0 0 true;
        day_row "A" 0 2 0 2 0 0 true ], ["C"; "B"; "A"])
  /\ ["C"; "B"; "A"] =
     map r_task_id
       (filter r_is_critical
          [ day_row "C" 5 6 5 6 0 0 true; day_row "B" 2 5 2 5 0 0 true;
            day_row "A" 0 2 0 2 0 0 true ]).
Proof.
  assert (E : perform_critical_path_analysis 1000 reversed_chain_rows =
              Ok ([ day_row "C" 5 6 5 6 0 0 true; day_row "B" 2 5 2 5 0 0 true;
                    day_row "A" 0 2 0 2 0 0 true ], ["C"; "B"; "A"]))
    by (vm_compute; reflexivity).
  split; [exact E|].
  exact (C10_critical_path_lists_critical_rows_in_table_order _ _ _ _ E).
Defined.

(** C10 as stated fails on the chain A -> B -> C given last record
    first: the path returned is C, B, A, so B stands before A although B
    is a successor of A. *)
Lemma C10_counterexample_path_against_edges :
  perform_critical_path_analysis 1000 reversed_chain_rows =
  Ok ([ day_row "C" 5 6 5 6 0 0 true; day_row "B" 2 5 2 5 0 0 true;
        day_row "A" 0 2 0 2 0 0 true ], ["C"; "B"; "A"]) /\
  option_map successors (lookup "A" (fst (run_analysis 1000 reversed_chain_rows)))
  = Some ["B"] /\
  ~ follows_successor_edges (fst (run_analysis 1000 reversed_chain_rows))
      ["C"; "B"; "A"].
Proof.
  split; [vm_compute; reflexivity|].
  split; [vm_compute; reflexivity|].
  intros H.
  assert (L : exists t, lookup "A" (fst (run_analysis 1000 reversed_chain_rows)) = Some t
                        /\ In "B" (successors t)).
  { vm_compute. eexists. split; [reflexivity|]. left. reflexivity. }
  destruct L as (t & L1 & L2).
  specialize (H 2%nat 1%nat "A" "B" t eq_refl eq_refl L1 L2). lia.
Qed.

(** C3.  The same three records in two orders.  With A before B, task C
    is reached through A while B has no early finish yet and gets early
    start day 2; with B before A it gets day 5.  The same records give
    different dates, floats and critical flags for B and C, and different
    critical paths. *)
Theorem C3_record_order_changes_the_schedule :
  Permutation late_predecessor_rows swapped_rows /\
  perform_critical_path_analysis 1000 late_predecessor_rows =
  Ok ([ day_row "A" 0 2 0 2 0 0 true; day_row "B" 0 5 (-3) 2 (-3) (-3) false;
        day_row "C" 2 3 2 3 0 0 true ], ["A"; "C"]) /\
  perform_critical_path_analysis 1000 swapped_rows =
  Ok ([ day_row "B" 0 5 0 5 0 0 true; day_row "A" 0 2 3 5 3 3 false;
        day_row "C" 5 6 5 6 0 0 true ], ["B"; "C"]) /\
  day_row "C" 2 3 2 3 0 0 true <> day_row "C" 5 6 5 6 0 0 true /\
  ["A"; "C"] <> ["B"; "C"].
Proof.
  split; [apply perm_swap|].
  split; [vm_compute; reflexivity|].
  split; [vm_compute; reflexivity|].
  split; discriminate.
Qed.

(** X17. When the analysis returns, the rows of the result table carry
    the ids of the records in the order of their first occurrence. *)
Theorem X17_result_rows_in_order_of_first_occurrence limit df rows cp :
  perform_critical_path_analysis limit df = Ok (rows, cp) ->
  map r_task_id rows = first_occurrences (map row_task_id df).
Proof.
  unfold perform_critical_path_analysis. rewrite run_analysis_eq.
  assert (Hk := keys_calculate (scheduled limit df)).
  assert (Hid := key_is_id_calculate _ (key_is_id_scheduled limit df)).
  destruct (calculate_floats_and_critical_path (scheduled limit df))
    as [s' [cp'|e]]; [|discriminate].
  simpl in *. intros [= <- <-].
  rewrite map_map. change (map (fun t => r_task_id (result_of_task t)) (values s'))
    with (map task_id (values s')).
  now rewrite (key_is_id_keys _ Hid), Hk, keys_scheduled, keys_create.
Qed.

Lemma X17_witness :
  perform_critical_path_analysis 1000 duplicate_rows =
  Ok ([ day_row "A" 3 5 3 5 0 0 true; day_row "B" 5 6 5 6 0 0 true ], ["A"; "B"]) /\
  ["A"; "B"] = first_occurrences (map row_task_id duplicate_rows).
Proof.
  assert (E : perform_critical_path_analysis 1000 duplicate_rows =
              Ok ([ day_row "A" 3 5 3 5 0 0 true; day_row "B" 5 6 5 6 0 0 true ],
                  ["A"; "B"]))
    by (vm_compute; reflexivity).
  split; [exact E|].
  exact (X17_result_rows_in_order_of_first_occurrence 1000 duplicate_rows _ _ E).
Defined.

(** ** Records with the same id *)

Section Duplicates.

Lemma mem_dict_set d k k' v :
  mem k' (dict_set k v d) = (String.eqb k' k || mem k' d)%bool.
Proof.
  unfold mem. rewrite lookup_dict_set. now destruct (String.eqb k' k).
Qed.

Lemma dict_set_twice d k v v0 : dict_set k v (dict_set k v0 d) = dict_set k v d.
Proof.
  induction d as [|[k1 v1] d IH]; simpl.
  - now rewrite String.eqb_refl.
  - destruct (String.eqb k k1) eqn:E; simpl.
    + now rewrite String.eqb_refl.
    + now rewrite E, IH.
Qed.

Lemma dict_set_comm d k k' v v' :
  k <> k' -> mem k d = true ->
  dict_set k v (dict_set k' v' d) = dict_set k' v' (dict_set k v d).
Proof.
  intros Hne. unfold mem.
  induction d as [|[k1 v1] d IH]; simpl; [discriminate|].
  destruct (String.eqb k k1) eqn:E.
  - intros _. apply String.eqb_eq in E; subst k1.
    assert (E' : String.eqb k' k = false) by (apply String.eqb_neq; congruence).
    rewrite E'. simpl. now rewrite String.eqb_refl, E'.
  - intros Hm. destruct (String.eqb k' k1) eqn:E'; simpl.
    + apply String.eqb_eq in E'; subst k1. now rewrite E, String.eqb_refl.
    + now rewrite E, E', IH.
Qed.

Lemma insert_rows_app df1 df2 :
  insert_rows (df1 ++ df2) = insert_from (insert_rows df1) df2.
Proof. unfold insert_rows, insert_from. apply fold_left_app. Qed.

Lemma insert_from_app s df1 df2 :
  insert_from s (df1 ++ df2) = insert_from (insert_from s df1) df2.
Proof. unfold insert_from. apply fold_left_app. Qed.

Lemma dict_set_insert_from k v df : forall s,
  (forall r, In r df -> row_task_id r <> k) ->
  mem k s = true ->
  dict_set k v (insert_from s df) = insert_from (dict_set k v s) df.
Proof.
  induction df as [|r df IH]; intros s Hdf Hm; [reflexivity|].
  change (insert_from s (r :: df))
    with (insert_from (dict_set (row_task_id r) (task_of_row r) s) df).
  change (insert_from (dict_set k v s) (r :: df))
    with (insert_from (dict_set (row_task_id r) (task_of_row r) (dict_set k v s)) df).
  rewrite IH.
  - rewrite dict_set_comm; [reflexivity| |assumption].
    intros ->. now apply (Hdf r (or_introl eq_refl)).
  - intros r' Hr'. apply Hdf. now right.
  - rewrite mem_dict_set, Hm. apply orb_true_r.
Qed.

Lemma insert_rows_overwrite df1 r0 df2 r df3 :
  row_task_id r0 = row_task_id r ->
  (forall r', In r' df2 -> row_task_id r' <> row_task_id r) ->
  insert_rows (df1 ++ r0 :: df2 ++ r :: df3) = insert_rows (df1 ++ r :: df2 ++ df3).
Proof.
  intros Hid Hdf2.
  rewrite !insert_rows_app.
  change (r0 :: df2 ++ r :: df3) with ([r0] ++ df2 ++ [r] ++ df3)%list.
  change (r :: df2 ++ df3) with ([r] ++ df2 ++ df3)%list.
  rewrite !insert_from_app. f_equal.
  change (insert_from (insert_rows df1) [r0])
    with (dict_set (row_task_id r0) (task_of_row r0) (insert_rows df1)).
  change (insert_from (insert_rows df1) [r])
    with (dict_set (row_task_id r) (task_of_row r) (insert_rows df1)).
  set (s1 := insert_rows df1).
  change (insert_from (insert_from (dict_set (row_task_id r0) (task_of_row r0) s1) df2) [r])
    with (dict_set (row_task_id r) (task_of_row r)
            (insert_from (dict_set (row_task_id r0) (task_of_row r0) s1) df2)).
  rewrite dict_set_insert_from; [|assumption|].
  - now rewrite Hid, dict_set_twice.
  - rewrite mem_dict_set, Hid, String.eqb_refl. reflexivity.
Qed.

End Duplicates.

(** C4, as the code has it.  A repeated id raises nothing: the later
    record replaces the earlier one in the table, in the earlier one's
    place, and the run is the run on the input in which the earlier record
    is replaced by the later one. *)
Theorem C4_later_record_overwrites_earlier limit df1 r0 df2 r df3 :
  row_task_id r0 = row_task_id r ->
  (forall r', In r' df2 -> row_task_id r' <> row_task_id r) ->
  create_task_objects (df1 ++ r0 :: df2 ++ r :: df3)
  = create_task_objects (df1 ++ r :: df2 ++ df3) /\
  run_analysis limit (df1 ++ r0 :: df2 ++ r :: df3)
  = run_analysis limit (df1 ++ r :: df2 ++ df3).
Proof.
  intros Hid Hdf2.
  assert (E : create_task_objects (df1 ++ r0 :: df2 ++ r :: df3)
              = create_task_objects (df1 ++ r :: df2 ++ df3)).
  { unfold create_task_objects. now rewrite insert_rows_overwrite. }
  split; [exact E|]. unfold run_analysis. now rewrite E.
Qed.

Lemma C4_witness :
  row_task_id (row "A" 0 1 None) = row_task_id (row "A" 3 2 None) /\
  run_analysis 1000 duplicate_rows
  = run_analysis 1000 [ row "A" 3 2 None; row "B" 0 1 (Some "A") ].
Proof.
  split; [reflexivity|].
  refine (proj2 (C4_later_record_overwrites_earlier 1000 []
                   (row "A" 0 1 None) [row "B" 0 1 (Some "A")] (row "A" 3 2 None) []
                   eq_refl _)).
  intros r' [<-|[]]. vm_compute. discriminate.
Defined.

(** C4 as stated fails on an input with two records of the id A: the
    run returns a full table, in which A has the dates of the later
    record (start day 3, duration 2). *)
Lemma C4_counterexample_duplicate_id_accepted :
  ~ NoDup (map row_task_id duplicate_rows) /\
  perform_critical_path_analysis 1000 duplicate_rows =
  Ok ([ day_row "A" 3 5 3 5 0 0 true; day_row "B" 5 6 5 6 0 0 true ], ["A"; "B"]).
Proof.
  split; [|vm_compute; reflexivity].
  intros H. inversion H as [|? ? Hn _]; subst. apply Hn. simpl. auto.
Qed.

(** ** The backward pass *)

Section Backward.

Lemma unlate_fields t t' :
  unlate t' = unlate t ->
  task_id t' = task_id t /\ duration t' = duration t /\
  predecessors t' = predecessors t /\ successors t' = successors t /\
  early_start t' = early_start t /\ early_finish t' = early_finish t /\
  total_float t' = total_float t /\ free_float t' = free_float t /\
  is_critical t' = is_critical t.
Proof.
  intros H.
  repeat split;
    [ apply (f_equal task_id) in H | apply (f_equal duration) in H
    | apply (f_equal predecessors) in H | apply (f_equal successors) in H
    | apply (f_equal early_start) in H | apply (f_equal early_finish) in H
    | apply (f_equal total_float) in H | apply (f_equal free_float) in H
    | apply (f_equal is_critical) in H ]; exact H.
Qed.

Lemma bwd_visit_frame k task s j :
  option_map unlate (lookup j (bwd_visit k task s)) = option_map unlate (lookup j s).
Proof.
  unfold bwd_visit. destruct (bwd_late_finish s task);
    rewrite lookup_update; (destruct (String.eqb k j); [|reflexivity]);
    now destruct (lookup j s).
Qed.

Lemma backward_pass_frame limit s j :
  option_map unlate (lookup j (fst (backward_pass limit s)))
  = option_map unlate (lookup j s).
Proof.
  apply (backward_pass_inv
           (fun s' => option_map unlate (lookup j s') = option_map unlate (lookup j s))
           (fun s' => option_map unlate (lookup j s') = option_map unlate (lookup j s)));
    [auto| | |reflexivity].
  - intros k0 task s1 _ _ H. now rewrite bwd_visit_frame.
  - intros k0 task s1 _ H. rewrite lookup_update.
    destruct (String.eqb k0 j); [|assumption].
    rewrite <- H. now destruct (lookup j s1).
Qed.

Lemma frame_lookup (g : Task -> Task) s s' j t' :
  option_map g (lookup j s') = option_map g (lookup j s) ->
  lookup j s' = Some t' -> exists t, lookup j s = Some t /\ g t' = g t.
Proof.
  intros H L. rewrite L in H. destruct (lookup j s) as [t|]; [|discriminate].
  exists t. split; [reflexivity|]. now injection H.
Qed.

(** Sinks *)

Lemma sink_seeded_bwd_visit k task s :
  lookup k s = Some task ->
  all_tasks sink_seeded s -> all_tasks sink_seeded (bwd_visit k task s).
Proof.
  intros L H. unfold bwd_visit, bwd_late_finish.
  destruct (successors task) as [|x xs] eqn:Ss.
  - destruct (early_finish task) as [ef|] eqn:Ef;
      (apply all_tasks_update; [|assumption]);
      intros t Ht _ _; assert (t = task) by congruence; subst t; simpl;
      [right; now rewrite Ef | now left].
  - assert (Hns : forall f, (forall t, successors (f t) = successors t) ->
                            all_tasks sink_seeded (update k f s)).
    { intros f Hf. apply all_tasks_update; [|assumption].
      intros t Ht _ Hs. assert (t = task) by congruence. subst t.
      rewrite Hf, Ss in Hs. discriminate. }
    destruct (succ_start_dates s (x :: xs)); [|now apply Hns].
    destruct (early_finish task); now apply Hns.
Qed.

Lemma sink_seeded_bwd_process_task d k s :
  all_tasks sink_seeded s -> all_tasks sink_seeded (fst (BackwardPass.process_task d k s)).
Proof.
  apply bwd_process_task_inv. intros k0 task s1 L _. now apply sink_seeded_bwd_visit.
Qed.

Lemma sink_done_bwd_visit k j task s :
  lookup j s = Some task -> sink_done k s -> sink_done k (bwd_visit j task s).
Proof.
  intros L H t. unfold bwd_visit, bwd_late_finish.
  destruct (String.eqb j k) eqn:E.
  - apply String.eqb_eq in E; subst j.
    destruct (successors task) as [|x xs] eqn:Ss.
    + destruct (early_finish task) as [ef|] eqn:Ef;
        rewrite lookup_update_same, L; simpl; intros [= <-] _; simpl; now rewrite Ef.
    + assert (Hns : forall f, (forall t, successors (f t) = successors t) ->
                lookup k (update k f s) = Some t -> successors t = [] ->
                late_finish t = early_finish t).
      { intros f Hf. rewrite lookup_update_same, L. simpl. intros [= <-].
        rewrite Hf, Ss. discriminate. }
      destruct (succ_start_dates s (x :: xs)); [|now apply Hns].
      destruct (early_finish task); now apply Hns.
  - apply String.eqb_neq in E.
    destruct (match successors task with
              | [] => early_finish task
              | _ :: _ => match succ_start_dates s (successors task) with
                          | [] => early_finish task
                          | x :: xs => Some (min_list x xs)
                          end
              end); rewrite lookup_update_other by assumption; apply H.
Qed.

Lemma sink_done_bwd_process_task k d j s :
  sink_done k s -> sink_done k (fst (BackwardPass.process_task d j s)).
Proof.
  apply bwd_process_task_inv. intros k0 task s1 L _. now apply sink_done_bwd_visit.
Qed.

Lemma bwd_process_task_sink_done d k s s' :
  all_tasks sink_seeded s ->
  BackwardPass.process_task d k s = (s', Ok tt) -> sink_done k s'.
Proof.
  intros HJ. destruct d as [|d]; [discriminate|].
  rewrite bwd_process_task_eq.
  destruct (lookup k s) as [task|] eqn:L; [|discriminate].
  destruct (late_finish task) as [lf|] eqn:Lf; simpl.
  - intros [= <-] t Ht Hs. assert (t = task) by congruence. subst t.
    destruct (all_tasks_lookup _ _ _ _ HJ L Hs); congruence.
  - intros H. replace s' with (fst (for_each (predecessors task) (bwd_recurse d)
                                     (bwd_visit k task s))) by now rewrite H.
    apply for_each_inv.
    + intros x s1 _ H1. unfold bwd_recurse, bind, get, ret.
      destruct (mem x s1); [|assumption]. now apply sink_done_bwd_process_task.
    + intros t. unfold bwd_visit, bwd_late_finish.
      destruct (successors task) as [|x xs] eqn:Ss.
      * destruct (early_finish task) as [ef|] eqn:Ef;
          rewrite lookup_update_same, L; simpl; intros [= <-] _; simpl; now rewrite Ef.
      * assert (Hns : forall f, (forall t, successors (f t) = successors t) ->
                  lookup k (update k f s) = Some t -> successors t = [] ->
                  late_finish t = early_finish t).
        { intros f Hf. rewrite lookup_update_same, L. simpl. intros [= <-].
          rewrite Hf, Ss. discriminate. }
        destruct (succ_start_dates s (x :: xs)); [|now apply Hns].
        destruct (early_finish task); now apply Hns.
Qed.

Lemma for_each_sinks_done limit ends : forall s s',
  all_tasks sink_seeded s ->
  for_each ends (BackwardPass.process_task limit) s = (s', Ok tt) ->
  forall k, In k ends -> sink_done k s'.
Proof.
  induction ends as [|e ends IH]; simpl; intros s s' HJ H k Hk; [easy|].
  unfold bind in H.
  destruct (BackwardPass.process_task limit e s) as [s1 [[]|err]] eqn:E1; [|discriminate].
  assert (HJ1 : all_tasks sink_seeded s1).
  { replace s1 with (fst (BackwardPass.process_task limit e s)) by now rewrite E1.
    now apply sink_seeded_bwd_process_task. }
  destruct Hk as [->|Hk]; [|exact (IH _ _ HJ1 H k Hk)].
  replace s' with (fst (for_each ends (BackwardPass.process_task limit) s1)) by now rewrite H.
  apply for_each_inv.
  - intros x s2 _. apply sink_done_bwd_process_task.
  - exact (bwd_process_task_sink_done _ _ _ _ HJ E1).
Qed.

Lemma lookup_end_tasks s k t :
  lookup k s = Some t -> successors t = [] -> In k (end_tasks s).
Proof.
  intros L Hs. unfold end_tasks, keys.
  change k with (fst (k, t)). apply in_map. apply filter_In.
  split; [now apply lookup_In|]. simpl. now rewrite Hs.
Qed.

Lemma backward_pass_sinks limit s s' :
  all_tasks late_unset s ->
  backward_pass limit s = (s', Ok tt) ->
  forall k t, lookup k s' = Some t -> successors t = [] ->
              late_finish t = early_finish t.
Proof.
  intros H0 Hrun k t L Hs.
  assert (Hfr := backward_pass_frame limit s k). rewrite Hrun in Hfr. simpl in Hfr.
  destruct (frame_lookup _ _ _ _ _ Hfr L) as (t0 & L0 & Eq).
  destruct (unlate_fields _ _ Eq) as (_ & _ & _ & Hsucc & _).
  assert (Hend : In k (end_tasks s)).
  { apply (lookup_end_tasks s k t0 L0). congruence. }
  assert (HJ : all_tasks sink_seeded s).
  { unfold all_tasks in *. eapply Forall_impl; [|exact H0].
    intros [k1 t1] [_ Hlf] _. now left. }
  unfold backward_pass, bind at 1, get in Hrun. unfold bind at 1 in Hrun.
  destruct (end_tasks s) as [|e es] eqn:Ee; [contradiction|].
  unfold ret at 1 in Hrun.
  exact (for_each_sinks_done limit (e :: es) s s' HJ Hrun k Hend t L Hs).
Qed.

End Backward.

Section BackwardSources.

Lemma min_list_In xs : forall x, In (min_list x xs) (x :: xs).
Proof.
  unfold min_list. induction xs as [|y ys IH]; simpl; intros x; [now left|].
  destruct (IH (Z.min x y)) as [H|H]; [|now right; right].
  rewrite <- H. destruct (Z.min_dec x y) as [E|E]; rewrite E; auto.
Qed.

Lemma succ_start_dates_In s l v :
  In v (succ_start_dates s l) ->
  exists x tx, In x l /\ lookup x s = Some tx /\ late_start tx = Some v.
Proof.
  induction l as [|x l IH]; simpl; [easy|].
  destruct (lookup x s) as [tx|] eqn:L.
  - destruct (late_start tx) as [ls|] eqn:Ls.
    + intros [<-|H].
      * exists x, tx. auto.
      * destruct (IH H) as (x' & tx' & ? & ? & ?). exists x', tx'. auto.
    + intros H. destruct (IH H) as (x' & tx' & ? & ? & ?). exists x', tx'. auto.
  - intros H. destruct (IH H) as (x' & tx' & ? & ? & ?). exists x', tx'. auto.
Qed.

Lemma bwd_late_finish_source s task lf :
  bwd_late_finish s task = Some lf ->
  early_finish task = Some lf \/
  exists x tx, In x (successors task) /\ lookup x s = Some tx /\ late_start tx = Some lf.
Proof.
  unfold bwd_late_finish. destruct (successors task) as [|x xs] eqn:Ss; [now left|].
  destruct (succ_start_dates s (x :: xs)) as [|y ys] eqn:Sd; [now left|].
  intros [= <-]. right. apply succ_start_dates_In. rewrite Sd. apply min_list_In.
Qed.

Lemma late_finish_source_bwd_visit j task s :
  lookup j s = Some task -> late_finish task = None ->
  all_tasks late_consistent s ->
  late_finish_source s -> late_finish_source (bwd_visit j task s).
Proof.
  intros L Lf Hc H.
  assert (Keep : forall x tx v, lookup x s = Some tx -> late_start tx = Some v ->
                                lookup x (bwd_visit j task s) = Some tx).
  { intros x tx v Lx Hv. unfold bwd_visit.
    assert (Hne : j <> x).
    { intros ->. assert (tx = task) by congruence. subst tx.
      specialize (all_tasks_lookup _ _ _ _ Hc L v Hv). congruence. }
    destruct (bwd_late_finish s task); now rewrite lookup_update_other. }
  intros k t lf Lk Hlf.
  destruct (String.eqb j k) eqn:E.
  - apply String.eqb_eq in E; subst k. unfold bwd_visit in Lk.
    destruct (bwd_late_finish s task) as [l|] eqn:Bl;
      rewrite lookup_update_same, L in Lk; simpl in Lk; injection Lk as <-;
      simpl in *; [|discriminate].
    injection Hlf as <-.
    destruct (bwd_late_finish_source _ _ _ Bl) as [Hef|(x & tx & Hx & Lx & Hv)];
      [now left|].
    right. exists x, tx. repeat split; try assumption. exact (Keep _ _ _ Lx Hv).
  - apply String.eqb_neq in E.
    assert (Lk' : lookup k s = Some t).
    { unfold bwd_visit in Lk. destruct (bwd_late_finish s task);
        now rewrite lookup_update_other in Lk. }
    destruct (H k t lf Lk' Hlf) as [Hef|(x & tx & Hx & Lx & Hv)]; [now left|].
    right. exists x, tx. repeat split; try assumption. exact (Keep _ _ _ Lx Hv).
Qed.

Lemma late_finish_source_backward_pass limit s :
  all_tasks late_unset s -> late_finish_source (fst (backward_pass limit s)).
Proof.
  intros H0.
  apply (backward_pass_inv (all_tasks late_unset)
           (fun s' => all_tasks late_consistent s' /\ late_finish_source s'));
    [| | |exact H0].
  - intros s1 H1. split; [now apply late_unset_consistent|].
    intros k t lf L Hlf. destruct (all_tasks_lookup _ _ _ _ H1 L). congruence.
  - intros k task s1 L Lf [Hc Hs]. split.
    + now apply late_consistent_bwd_visit.
    + now apply late_finish_source_bwd_visit.
  - intros k task s1 L H1. split.
    + apply (all_tasks_update_impl late_unset); [| |assumption].
      * intros t [Hls _] b. congruence.
      * intros t _ [Hls _] b. simpl. congruence.
    + intros k' t lf. rewrite lookup_update.
      destruct (String.eqb k k') eqn:E.
      * apply String.eqb_eq in E; subst k'. rewrite L. simpl.
        intros [= <-]. simpl. now left.
      * intros L' Hlf. destruct (all_tasks_lookup _ _ _ _ H1 L'). congruence.
Qed.

Lemma backward_pass_with_sinks_inv (Q : store -> Prop) limit s :
  end_tasks s <> [] ->
  (forall k task s, lookup k s = Some task -> late_finish task = None ->
                    Q s -> Q (bwd_visit k task s)) ->
  Q s -> Q (fst (backward_pass limit s)).
Proof.
  intros He Hv Hs. unfold backward_pass, bind at 1, get. unfold bind at 1.
  destruct (end_tasks s) as [|e es]; [contradiction|].
  unfold ret at 1. apply for_each_inv; [|assumption].
  intros k s1 _ H1. now apply bwd_process_task_inv.
Qed.

Lemma late_start_set_backward_pass limit s :
  end_tasks s <> [] ->
  all_tasks late_unset s -> all_tasks late_start_set (fst (backward_pass limit s)).
Proof.
  intros He H0. apply backward_pass_with_sinks_inv; [assumption| |].
  - intros k task s1. apply (bwd_visit_all_entries (fun _ => late_start_set)). split.
    + intros _ t lf _ _ l. simpl. now intros [= <-].
    + intros _ t _ _ l. simpl. discriminate.
  - unfold all_tasks in *. eapply Forall_impl; [|exact H0].
    intros [k t] [_ Hlf] l. simpl in *. congruence.
Qed.

End BackwardSources.

(** C6.  The backward pass on X (10 days), A, B after A, C after A and
    X, D after B, with the sinks C and D.  A is visited from the sink C
    while its other successor B has no late start yet: B is passed over
    without any report, A takes the late start of C, day 10, as late
    finish, and the later visit from B returns at once.  The late starts
    of the two successors of A are day 1 and day 10: the late finish of A
    is not their minimum. *)
Theorem C6_backward_pass_misses_later_successor :
  let s := fst (forward_pass 1000 (create_task_objects two_sink_rows)) in
  let out := backward_pass 1000 s in
  snd out = Ok tt /\
  option_map successors (lookup "A" (fst out)) = Some ["B"; "C"] /\
  option_map late_start (lookup "B" (fst out)) = Some (Some (whole_days 1)) /\
  option_map late_start (lookup "C" (fst out)) = Some (Some (whole_days 10)) /\
  option_map late_finish (lookup "A" (fst out)) = Some (Some (whole_days 10)) /\
  whole_days 10 <> Z.min (whole_days 1) (whole_days 10).
Proof. vm_compute. repeat split. discriminate. Qed.

(** X19. After the two passes on a freshly built table, a late finish
    is never invented: it is the task's own early finish, or the late
    start of one of the task's own successors. *)
Theorem X19_late_finish_is_early_finish_or_a_successor_late_start limit df k t lf :
  lookup k (scheduled limit df) = Some t ->
  late_finish t = Some lf ->
  early_finish t = Some lf \/
  exists x tx, In x (successors t) /\
               lookup x (scheduled limit df) = Some tx /\
               late_start tx = Some lf.
Proof.
  intros L Hlf.
  exact (late_finish_source_backward_pass limit _ (late_unset_forward_pass limit df)
           k t lf L Hlf).
Qed.

Lemma X19_witness :
  let s := scheduled 10 two_sink_rows in
  let t := snd (nth 1 s (EmptyString, Task_init EmptyString EmptyString 0 0 0 [])) in
  lookup "A" s = Some t /\ late_finish t = Some (whole_days 10) /\
  (early_finish t = Some (whole_days 10) \/
   exists x tx, In x (successors t) /\ lookup x s = Some tx /\
                late_start tx = Some (whole_days 10)).
Proof.
  intros s t.
  assert (H1 : lookup "A" (scheduled 10 two_sink_rows) = Some t)
    by (vm_compute; reflexivity).
  assert (H2 : late_finish t = Some (whole_days 10)) by (vm_compute; reflexivity).
  split; [exact H1|]. split; [exact H2|].
  exact (X19_late_finish_is_early_finish_or_a_successor_late_start
           10 two_sink_rows "A" t (whole_days 10) H1 H2).
Defined.

(** ** Tables without a source *)

Section Cycles.

Lemma link_task_frame s task j :
  option_map unlinked (lookup j (link_task s task)) = option_map unlinked (lookup j s).
Proof.
  apply (link_task_inv
           (fun s' => option_map unlinked (lookup j s') = option_map unlinked (lookup j s)));
    [|reflexivity].
  intros p s1 _ H. rewrite lookup_update.
  destruct (String.eqb p j); [|assumption].
  rewrite <- H. now destruct (lookup j s1).
Qed.

Lemma link_successors_frame s j :
  option_map unlinked (lookup j (link_successors s)) = option_map unlinked (lookup j s).
Proof.
  apply (link_successors_inv
           (fun s' => option_map unlinked (lookup j s') = option_map unlinked (lookup j s)));
    [|reflexivity].
  intros p k task s1 s' _ _ _ H. rewrite lookup_update.
  destruct (String.eqb p j); [|assumption].
  rewrite <- H. now destruct (lookup j s1).
Qed.

Lemma mem_frame (g : Task -> Task) s s' :
  (forall j, option_map g (lookup j s') = option_map g (lookup j s)) ->
  forall j, mem j s' = mem j s.
Proof.
  intros H j. unfold mem. specialize (H j).
  destruct (lookup j s'), (lookup j s); simpl in H; congruence.
Qed.

Lemma has_successor_update p q x s :
  has_successor p s -> has_successor p (update q (append_successor x) s).
Proof.
  intros (tp & L & Hs). unfold has_successor. rewrite lookup_update.
  destruct (String.eqb q p).
  - rewrite L. simpl. eexists. split; [reflexivity|]. simpl.
    now destruct (successors tp).
  - now exists tp.
Qed.

Lemma link_task_has_successor p task : forall s,
  mem p s = true ->
  has_successor p s \/ In p (predecessors task) ->
  has_successor p (link_task s task).
Proof.
  unfold link_task. induction (predecessors task) as [|q ps IH]; simpl; intros s Hm H.
  - now destruct H.
  - apply IH.
    + destruct (mem q s); [now rewrite mem_update|assumption].
    + destruct H as [H|[->|H]].
      * left. destruct (mem q s); [now apply has_successor_update|assumption].
      * left. rewrite Hm. unfold has_successor. rewrite lookup_update_same.
        unfold mem in Hm. destruct (lookup p s) as [tp|]; [|discriminate].
        simpl. eexists. split; [reflexivity|]. simpl. now destruct (successors tp).
      * now right.
Qed.

Lemma link_fold_has_successor p ks : forall s,
  mem p s = true ->
  has_successor p s \/
  (exists k task, In k ks /\ lookup k s = Some task /\ In p (predecessors task)) ->
  has_successor p
    (fold_left (fun tasks k => match lookup k tasks with
                               | Some task => link_task tasks task
                               | None => tasks
                               end) ks s).
Proof.
  induction ks as [|k0 ks IH]; simpl; intros s Hm H.
  - destruct H as [H|(k & task & [] & _)]. exact H.
  - set (s1 := match lookup k0 s with Some task => link_task s task | None => s end).
    assert (Hfr : forall j, option_map unlinked (lookup j s1)
                            = option_map unlinked (lookup j s)).
    { intros j. unfold s1. destruct (lookup k0 s); [apply link_task_frame|reflexivity]. }
    apply IH.
    + now rewrite (mem_frame _ _ _ Hfr).
    + destruct H as [H|(k & task & [->|Hk] & L & Hp)].
      * left. unfold s1. destruct (lookup k0 s); [|assumption].
        apply link_task_has_successor; auto.
      * left. unfold s1. rewrite L. apply link_task_has_successor; auto.
      * right.
        destruct (frame_lookup _ _ _ _ _ (eq_sym (Hfr k)) L) as (task' & L1 & Eq).
        exists k, task'. split; [assumption|]. split; [exact L1|].
        apply (f_equal predecessors) in Eq. simpl in Eq. now rewrite <- Eq.
Qed.

Lemma depends_on_has_successor df k p :
  depends_on (create_task_objects df) k p ->
  has_successor p (create_task_objects df).
Proof.
  intros (t & L & Hp & Hm). unfold create_task_objects in *.
  set (s0 := insert_rows df) in *.
  assert (Hfr := link_successors_frame s0).
  destruct (frame_lookup _ _ _ _ _ (Hfr k) L) as (t0 & L0 & Eq).
  apply link_fold_has_successor.
  - now rewrite <- (mem_frame _ _ _ Hfr).
  - right. exists k, t0. split; [|split; [assumption|]].
    + apply mem_keys. unfold mem. now rewrite L0.
    + apply (f_equal predecessors) in Eq. simpl in Eq. now rewrite <- Eq.
Qed.

Lemma clos_trans_first_step (R : string -> string -> Prop) x y :
  clos_trans string R x y -> exists z, R x z.
Proof. induction 1 as [x y H|x y z _ IH _ _]; [now exists y|exact IH]. Qed.

Lemma create_successors_within df :
  all_tasks (successors_within (create_task_objects df)) (create_task_objects df).
Proof.
  unfold create_task_objects. set (s0 := insert_rows df).
  assert (H : key_is_id (link_successors s0) /\ keys (link_successors s0) = keys s0 /\
              all_tasks (successors_within s0) (link_successors s0)).
  { apply (link_successors_inv
             (fun s => key_is_id s /\ keys s = keys s0 /\
                       all_tasks (successors_within s0) s)).
    - intros p k task s s' (Hid' & Hk' & _) L _ (Hid & Hk & Hs).
      split; [|split].
      + apply all_entries_update; [|assumption]. intros t _ Ht. exact Ht.
      + now rewrite keys_update.
      + apply all_tasks_update; [|assumption].
        intros t _ Ht x. simpl. rewrite in_app_iff. intros [Hx|[<-|[]]]; [now apply Ht|].
        assert (E : task_id task = k).
        { apply lookup_In in L. unfold key_is_id, all_entries in Hid'.
          rewrite Forall_forall in Hid'. exact (Hid' _ L). }
        rewrite E, <- Hk'. apply mem_keys. unfold mem. now rewrite L.
    - split; [|split; [reflexivity|]].
      + apply (insert_rows_inv key_is_id); [constructor|].
        intros r s H. now apply all_entries_dict_set.
      + apply (insert_rows_inv (all_tasks (successors_within s0))); [constructor|].
        intros r s H. apply all_tasks_dict_set; [|assumption]. intros x []. }
  destruct H as (_ & Hk & Hs).
  unfold all_tasks in *. eapply Forall_impl; [|exact Hs].
  intros [k t] Ht x Hx. rewrite Hk. now apply Ht.
Qed.

End Cycles.

Section NoSource.

Lemma forward_pass_no_source limit s :
  no_source s -> forward_pass limit s = (s, Ok tt).
Proof.
  intros H. unfold forward_pass, bind at 1, get.
  assert (G : forall ks, (forall k, In k ks -> In k (keys s)) ->
            for_each ks
              (fun k => task <- get_task k ;;
                        match predecessors task with
                        | [] => ForwardPass.process_task limit k
                        | _ :: _ => ret tt
                        end) s = (s, Ok tt)).
  { induction ks as [|k ks IH]; simpl; intros Hk; [reflexivity|].
    unfold bind at 1. unfold bind at 1, get_task.
    destruct (In_keys_lookup s k (Hk k (or_introl eq_refl))) as [task L].
    rewrite L. assert (Hp := all_tasks_lookup _ _ _ _ H L). simpl in Hp.
    destruct (predecessors task); [contradiction|].
    unfold ret at 1. apply IH. intros j Hj. apply Hk. now right. }
  apply G. auto.
Qed.

Lemma set_late_finish_same t : late_finish t = None -> set_late_finish None t = t.
Proof. destruct t. simpl. now intros ->. Qed.

Lemma succ_start_dates_unscheduled s l :
  all_tasks unscheduled s -> succ_start_dates s l = [].
Proof.
  intros H. induction l as [|x l IH]; simpl; [reflexivity|].
  destruct (lookup x s) as [tx|] eqn:L; [|assumption].
  destruct (all_tasks_lookup _ _ _ _ H L) as (_ & Hls & _). now rewrite Hls.
Qed.

Lemma bwd_visit_unscheduled k task s :
  all_tasks unscheduled s -> lookup k s = Some task -> bwd_visit k task s = s.
Proof.
  intros H L. destruct (all_tasks_lookup _ _ _ _ H L) as (Hef & _ & Hlf).
  unfold bwd_visit, bwd_late_finish. rewrite succ_start_dates_unscheduled, Hef by assumption.
  assert (E : update k (set_late_finish None) s = s).
  { apply update_id. intros t Ht. assert (t = task) by congruence. subst t.
    now apply set_late_finish_same. }
  now destruct (successors task).
Qed.

Lemma backward_pass_unscheduled limit s :
  all_tasks unscheduled s -> fst (backward_pass limit s) = s.
Proof.
  intros H.
  apply (backward_pass_inv (fun s' => s' = s) (fun s' => s' = s)); [auto| | |reflexivity].
  - intros k task s1 L _ ->. now apply bwd_visit_unscheduled.
  - intros k task s1 L ->. destruct (all_tasks_lookup _ _ _ _ H L) as (Hef & _ & Hlf).
    rewrite Hef. apply update_id. intros t Ht. assert (t = task) by congruence. subst t.
    now apply set_late_finish_same.
Qed.

Lemma fresh_unscheduled s : all_tasks fresh s -> all_tasks unscheduled s.
Proof.
  intros H. unfold all_tasks in *. eapply Forall_impl; [|exact H].
  intros [k t] (_ & Hef & Hls & Hlf & _). repeat split; assumption.
Qed.

Lemma set_free_float_same t : free_float t = None -> set_free_float None t = t.
Proof. destruct t. simpl. now intros ->. Qed.

Lemma calc_loop_unscheduled s :
  all_tasks fresh s ->
  all_tasks (successors_within s) s ->
  forall ks cp,
    (forall k, In k ks -> In k (keys s)) ->
    (exists k t, In k ks /\ lookup k s = Some t /\ successors t <> []) ->
    calc_loop ks cp s = (s, Raise TypeError).
Proof.
  intros Hf Hw. induction ks as [|k ks IH]; simpl; intros cp Hk Hex.
  - destruct Hex as (k & t & [] & _).
  - destruct (In_keys_lookup s k (Hk k (or_introl eq_refl))) as [task L].
    destruct (all_tasks_lookup _ _ _ _ Hf L) as (Hes & Hef & _ & _ & Htf & Hff & _).
    unfold bind. rewrite calc_task_eq, L. cbv zeta.
    assert (E : update k calc_floats s = s).
    { apply update_id. intros t Ht. assert (t = task) by congruence. subst t.
      unfold calc_floats. now rewrite Hes. }
    rewrite E.
    destruct (successors task) as [|x xs] eqn:Ss.
    + assert (E2 : update k (fun t => set_free_float (total_float t) t) s = s).
      { apply update_id. intros t Ht. assert (t = task) by congruence. subst t.
        rewrite Htf. now apply set_free_float_same. }
      rewrite E2. apply IH.
      * intros j Hj. apply Hk. now right.
      * destruct Hex as (k' & t & [->|Hk'] & L' & Hs).
        -- assert (t = task) by congruence. subst t. contradiction.
        -- now exists k', t.
    + assert (Hx : In x (keys s)).
      { apply (all_tasks_lookup _ _ _ _ Hw L). rewrite Ss. now left. }
      destruct (In_keys_lookup s x Hx) as [tx Lx].
      unfold min_free_float. simpl. rewrite Lx, Hef.
      now destruct (early_start tx).
Qed.

End NoSource.

(** ** Dangling predecessor references *)

Section Dangling.

Variable ids : list string.

Local Abbreviation drop := (drop_dangling ids).
Local Abbreviation drop_task := (drop_dangling_task ids).

Lemma lookup_drop s k : lookup k (drop s) = option_map drop_task (lookup k s).
Proof.
  induction s as [|[k0 v] s IH]; simpl; [reflexivity|].
  now destruct (String.eqb k k0).
Qed.

Lemma mem_drop s k : mem k (drop s) = mem k s.
Proof. unfold mem. rewrite lookup_drop. now destruct (lookup k s). Qed.

Lemma keys_drop s : keys (drop s) = keys s.
Proof. unfold keys, drop_dangling. rewrite map_map. reflexivity. Qed.

Lemma update_drop s k f g :
  (forall t, g (drop_task t) = drop_task (f t)) ->
  update k g (drop s) = drop (update k f s).
Proof.
  intros H. induction s as [|[k0 v] s IH]; simpl; [reflexivity|].
  destruct (String.eqb k k0); simpl; [now rewrite H|now rewrite IH].
Qed.

Lemma dict_set_drop s k v :
  dict_set k (drop_task v) (drop s) = drop (dict_set k v s).
Proof.
  induction s as [|[k0 v0] s IH]; simpl; [reflexivity|].
  destruct (String.eqb k k0); simpl; [reflexivity|now rewrite IH].
Qed.

Lemma task_of_row_without_dangling r r' :
  without_dangling ids r r' -> task_of_row r' = drop_task (task_of_row r).
Proof.
  intros (H1 & H2 & H3 & H4 & H5 & H6).
  unfold task_of_row, Task_init, drop_dangling_task, set_predecessors. simpl.
  now rewrite H1, H2, H3, H4, H5, H6.
Qed.

Lemma insert_from_drop df df' : forall s,
  Forall2 (without_dangling ids) df df' ->
  insert_from (drop s) df' = drop (insert_from s df).
Proof.
  intros s H. revert s. induction H as [|r r' df df' Hr _ IH]; intros s; [reflexivity|].
  change (insert_from (drop s) (r' :: df'))
    with (insert_from (dict_set (row_task_id r') (task_of_row r') (drop s)) df').
  change (insert_from s (r :: df))
    with (insert_from (dict_set (row_task_id r) (task_of_row r) s) df).
  rewrite <- IH, (task_of_row_without_dangling _ _ Hr), dict_set_drop.
  now destruct Hr as [-> _].
Qed.

Lemma mem_insert_from p df : forall s,
  mem p (insert_from s df) = (mem p s || defined_in (map row_task_id df) p)%bool.
Proof.
  induction df as [|r df IH]; intros s; simpl.
  - now rewrite orb_false_r.
  - change (insert_from s (r :: df))
      with (insert_from (dict_set (row_task_id r) (task_of_row r) s) df).
    rewrite IH, mem_dict_set. unfold defined_in. simpl.
    destruct (String.eqb p (row_task_id r)), (mem p s); reflexivity.
Qed.

Lemma link_task_drop task : forall s,
  (forall p, mem p s = defined_in ids p) ->
  link_task (drop s) (drop_task task) = drop (link_task s task).
Proof.
  unfold link_task. simpl.
  induction (predecessors task) as [|p ps IH]; intros s Hm; [reflexivity|]. simpl.
  rewrite <- (Hm p). destruct (mem p s) eqn:E; simpl.
  - rewrite mem_drop, E.
    rewrite (update_drop s p (append_successor (task_id task))) by reflexivity.
    apply IH. intros q. now rewrite mem_update.
  - now apply IH.
Qed.

Lemma link_fold_drop ks : forall s,
  (forall p, mem p s = defined_in ids p) ->
  fold_left (fun tasks k => match lookup k tasks with
                            | Some task => link_task tasks task
                            | None => tasks
                            end) ks (drop s)
  = drop (fold_left (fun tasks k => match lookup k tasks with
                                    | Some task => link_task tasks task
                                    | None => tasks
                                    end) ks s).
Proof.
  induction ks as [|k ks IH]; intros s Hm; [reflexivity|]. simpl.
  rewrite lookup_drop. destruct (lookup k s) as [task|]; simpl; [|now apply IH].
  rewrite link_task_drop by assumption. apply IH.
  intros p. rewrite <- (Hm p).
  apply (mem_frame unlinked). intros j. apply link_task_frame.
Qed.

Lemma link_successors_drop s :
  (forall p, mem p s = defined_in ids p) ->
  link_successors (drop s) = drop (link_successors s).
Proof. intros Hm. unfold link_successors. rewrite keys_drop. now apply link_fold_drop. Qed.

End Dangling.

Lemma create_task_objects_drop df df' :
  Forall2 (without_dangling (map row_task_id df)) df df' ->
  create_task_objects df' = drop_dangling (map row_task_id df) (create_task_objects df).
Proof.
  intros H. unfold create_task_objects.
  rewrite <- link_successors_drop.
  - f_equal. apply (insert_from_drop _ df df' [] H).
  - intros p. unfold insert_rows. fold (insert_from [] df).
    now rewrite mem_insert_from.
Qed.

Section DanglingPasses.

Variable ids : list string.

Local Abbreviation drop := (drop_dangling ids).
Local Abbreviation drop_task := (drop_dangling_task ids).
Local Abbreviation inv := (dangling_inv ids).

Lemma dangling_inv_update s k f :
  (forall t, predecessors (f t) = predecessors t) ->
  inv s -> inv (update k f s).
Proof.
  intros Hf [Hm Hp]. split.
  - intros p. now rewrite mem_update.
  - apply all_tasks_update; [|assumption]. intros t _. now rewrite Hf.
Qed.

Lemma dangling_inv_fwd_visit k task s : inv s -> inv (fwd_visit k task s).
Proof.
  intros H. unfold fwd_visit. destruct (fwd_early_start s task); [|assumption].
  now apply dangling_inv_update.
Qed.

Lemma dangling_inv_bwd_visit k task s : inv s -> inv (bwd_visit k task s).
Proof.
  intros H. unfold bwd_visit. destruct (bwd_late_finish s task);
    now apply dangling_inv_update.
Qed.

Lemma dangling_inv_fwd_process_task d k s :
  inv s -> inv (fst (ForwardPass.process_task d k s)).
Proof.
  apply fwd_process_task_inv. intros k0 task s1 _ _. apply dangling_inv_fwd_visit.
Qed.

Lemma dangling_inv_bwd_process_task d k s :
  inv s -> inv (fst (BackwardPass.process_task d k s)).
Proof.
  apply bwd_process_task_inv. intros k0 task s1 _ _. apply dangling_inv_bwd_visit.
Qed.

Lemma for_each_drop {A : Type} (body body' : A -> M unit) (l : list A) :
  (forall x s, In x l -> inv s -> body' x (drop s) = lift ids (body x s)) ->
  (forall x s, In x l -> inv s -> inv (fst (body x s))) ->
  forall s, inv s -> for_each l body' (drop s) = lift ids (for_each l body s).
Proof.
  induction l as [|x l IH]; intros Hb Hi s Hs; [reflexivity|]. simpl.
  unfold bind. rewrite (Hb x s (or_introl eq_refl) Hs).
  specialize (Hi x s (or_introl eq_refl) Hs) as H1.
  destruct (body x s) as [s1 [[]|e]]; simpl in *; [|reflexivity].
  apply IH;
    [ intros y s2 Hy; apply Hb; now right
    | intros y s2 Hy; apply Hi; now right
    | assumption ].
Qed.

Lemma for_each_drop_skip (body body' : string -> M unit) (l : list string) :
  (forall x s, inv s -> body' x (drop s) = lift ids (body x s)) ->
  (forall x s, inv s -> defined_in ids x = false -> body x s = (s, Ok tt)) ->
  (forall x s, inv s -> inv (fst (body x s))) ->
  forall s, inv s ->
    for_each (filter (defined_in ids) l) body' (drop s) = lift ids (for_each l body s).
Proof.
  intros Hb Hskip Hi. induction l as [|x l IH]; intros s Hs; [reflexivity|]. simpl.
  destruct (defined_in ids x) eqn:E; simpl; unfold bind.
  - rewrite (Hb x s Hs). specialize (Hi x s Hs) as H1.
    destruct (body x s) as [s1 [[]|e]]; simpl in *; [|reflexivity]. now apply IH.
  - rewrite (Hskip x s Hs E). now apply IH.
Qed.

Lemma pred_finish_dates_drop s l :
  (forall p, mem p s = defined_in ids p) ->
  pred_finish_dates (drop s) (filter (defined_in ids) l) = pred_finish_dates s l.
Proof.
  intros Hm. induction l as [|p l IH]; simpl; [reflexivity|].
  rewrite <- (Hm p). unfold mem.
  destruct (lookup p s) as [t|] eqn:L; simpl; [|exact IH].
  rewrite lookup_drop, L. simpl. now rewrite IH.
Qed.

Lemma predecessors_drop_nil s k task :
  inv s -> lookup k s = Some task ->
  predecessors (drop_task task) = [] <-> predecessors task = [].
Proof.
  intros [_ Hp] L. simpl. split.
  - intros H. destruct (predecessors task) as [|p ps] eqn:E; [reflexivity|].
    exfalso. apply (all_tasks_lookup _ _ _ _ Hp L); [|rewrite E; exact H].
    rewrite E. discriminate.
  - now intros ->.
Qed.

Lemma fwd_early_start_drop s k task :
  inv s -> lookup k s = Some task ->
  fwd_early_start (drop s) (drop_task task) = fwd_early_start s task.
Proof.
  intros Hi L. unfold fwd_early_start.
  assert (Hn := predecessors_drop_nil s k task Hi L).
  destruct (predecessors task) as [|p ps] eqn:E.
  - now rewrite (proj2 Hn eq_refl).
  - destruct (predecessors (drop_task task)) as [|q qs] eqn:E'.
    + destruct Hn as [Hn _]. now specialize (Hn eq_refl).
    + rewrite <- E'. simpl. rewrite E.
      now rewrite (pred_finish_dates_drop s (p :: ps) (proj1 Hi)).
Qed.

Lemma fwd_visit_drop s k task :
  inv s -> lookup k s = Some task ->
  fwd_visit k (drop_task task) (drop s) = drop (fwd_visit k task s).
Proof.
  intros Hi L. unfold fwd_visit. rewrite (fwd_early_start_drop s k task Hi L).
  destruct (fwd_early_start s task); [|reflexivity].
  now apply update_drop.
Qed.

Lemma fwd_process_task_drop d : forall k s,
  inv s -> ForwardPass.process_task d k (drop s) = lift ids (ForwardPass.process_task d k s).
Proof.
  induction d as [|d IH]; intros k s Hi; [reflexivity|].
  rewrite !fwd_process_task_eq, lookup_drop.
  destruct (lookup k s) as [task|] eqn:L; simpl; [|reflexivity].
  destruct (early_start task); simpl; [reflexivity|].
  rewrite (fwd_visit_drop s k task Hi L).
  apply for_each_drop.
  - intros x s1 _ H1. unfold fwd_recurse, bind, get, ret. rewrite mem_drop.
    destruct (mem x s1); [now apply IH|reflexivity].
  - intros x s1 _ H1. unfold fwd_recurse, bind, get, ret.
    destruct (mem x s1); [now apply dangling_inv_fwd_process_task|assumption].
  - now apply dangling_inv_fwd_visit.
Qed.

Lemma forward_pass_drop limit s :
  inv s -> forward_pass limit (drop s) = lift ids (forward_pass limit s).
Proof.
  intros Hi. unfold forward_pass, bind at 1 3, get. rewrite keys_drop.
  apply for_each_drop; [| |assumption].
  - intros k s1 _ H1. unfold bind, get_task. rewrite lookup_drop.
    destruct (lookup k s1) as [task|] eqn:L; simpl; [|reflexivity].
    assert (Hn := predecessors_drop_nil s1 k task H1 L). simpl in Hn.
    destruct (predecessors task) as [|p ps].
    + simpl. now apply fwd_process_task_drop.
    + destruct (filter (defined_in ids) (p :: ps)); [|reflexivity].
      destruct Hn as [Hn _]. now specialize (Hn eq_refl).
  - intros k s1 _ H1. unfold bind, get_task.
    destruct (lookup k s1) as [task|]; [|assumption].
    destruct (predecessors task); [|assumption].
    now apply dangling_inv_fwd_process_task.
Qed.

Lemma dangling_inv_forward_pass limit s : inv s -> inv (fst (forward_pass limit s)).
Proof.
  apply forward_pass_inv. intros k task s1 _ _. apply dangling_inv_fwd_visit.
Qed.

Lemma succ_start_dates_drop s l :
  succ_start_dates (drop s) l = succ_start_dates s l.
Proof.
  induction l as [|x l IH]; simpl; [reflexivity|].
  rewrite lookup_drop. destruct (lookup x s) as [t|]; simpl; [|exact IH].
  now rewrite IH.
Qed.

Lemma bwd_visit_drop s k task :
  bwd_visit k (drop_task task) (drop s) = drop (bwd_visit k task s).
Proof.
  unfold bwd_visit, bwd_late_finish. simpl. rewrite succ_start_dates_drop.
  destruct (match successors task with
            | [] => early_finish task
            | _ :: _ => match succ_start_dates s (successors task) with
                        | [] => early_finish task
                        | x :: xs => Some (min_list x xs)
                        end
            end); now apply update_drop.
Qed.

Lemma bwd_process_task_drop d : forall k s,
  inv s -> BackwardPass.process_task d k (drop s) = lift ids (BackwardPass.process_task d k s).
Proof.
  induction d as [|d IH]; intros k s Hi; [reflexivity|].
  rewrite !bwd_process_task_eq, lookup_drop.
  destruct (lookup k s) as [task|] eqn:L; simpl; [|reflexivity].
  destruct (late_finish task); simpl; [reflexivity|].
  rewrite bwd_visit_drop.
  apply for_each_drop_skip.
  - intros x s1 H1. unfold bwd_recurse, bind, get, ret. rewrite mem_drop.
    destruct (mem x s1); [now apply IH|reflexivity].
  - intros x s1 [Hm _] Hx. unfold bwd_recurse, bind, get, ret.
    now rewrite Hm, Hx.
  - intros x s1 H1. unfold bwd_recurse, bind, get, ret.
    destruct (mem x s1); [now apply dangling_inv_bwd_process_task|assumption].
  - now apply dangling_inv_bwd_visit.
Qed.

Lemma end_tasks_drop s : end_tasks (drop s) = end_tasks s.
Proof.
  unfold end_tasks, keys. induction s as [|[k t] s IH]; simpl; [reflexivity|].
  destruct (successors t); simpl; now rewrite IH.
Qed.

Lemma max_scan_drop rest : forall k t,
  max_scan (k, drop_task t) (drop rest) =
  match max_scan (k, t) rest with
  | Ok best => Ok (fst best, drop_task (snd best))
  | Raise e => Raise e
  end.
Proof.
  induction rest as [|[k1 t1] rest IH]; intros k t; simpl; [reflexivity|].
  destruct (key_gt (early_finish t1) (early_finish t)) as [[|]|e];
    [apply IH|apply IH|reflexivity].
Qed.

Lemma latest_task_drop s : latest_task (drop s) = latest_task s.
Proof.
  destruct s as [|[k t] rest]; simpl; [reflexivity|].
  rewrite max_scan_drop. now destruct (max_scan (k, t) rest).
Qed.

Lemma backward_pass_drop limit s :
  inv s -> backward_pass limit (drop s) = lift ids (backward_pass limit s).
Proof.
  intros Hi. unfold backward_pass, bind at 1 3, get.
  assert (Hloop : forall ends s1, inv s1 ->
            for_each ends (BackwardPass.process_task limit) (drop s1)
            = lift ids (for_each ends (BackwardPass.process_task limit) s1)).
  { intros ends s1 H1. apply for_each_drop; [| |assumption].
    - intros x s2 _. apply bwd_process_task_drop.
    - intros x s2 _. apply dangling_inv_bwd_process_task. }
  rewrite end_tasks_drop, latest_task_drop. unfold bind at 1 3.
  destruct (end_tasks s) as [|e es].
  - destruct (latest_task s) as [k|e]; [|reflexivity].
    unfold bind, get_task, assign, ret. rewrite lookup_drop.
    destruct (lookup k s) as [task|] eqn:L; simpl; [|reflexivity].
    rewrite (update_drop ids s k (set_late_finish (early_finish task))) by reflexivity.
    apply (Hloop [k]). now apply dangling_inv_update.
  - unfold ret. now apply Hloop.
Qed.

Lemma free_float_terms_drop s ef l :
  free_float_terms (drop s) ef l = free_float_terms s ef l.
Proof.
  induction l as [|x l IH]; simpl; [reflexivity|].
  rewrite lookup_drop. destruct (lookup x s) as [t|]; simpl; [|exact IH].
  now rewrite IH.
Qed.

Lemma calc_floats_drop t : calc_floats (drop_task t) = drop_task (calc_floats t).
Proof.
  unfold calc_floats. simpl. now destruct (early_start t), (late_start t).
Qed.

Lemma calc_task_drop k cp s :
  calc_task k cp (drop s) = lift ids (calc_task k cp s).
Proof.
  rewrite !calc_task_eq, lookup_drop.
  destruct (lookup k s) as [task|]; simpl; [|reflexivity].
  rewrite (update_drop ids s k calc_floats calc_floats) by apply calc_floats_drop.
  change (calc_cp (drop_task task) cp) with (calc_cp task cp).
  destruct (successors task) as [|x xs].
  - unfold lift. simpl. f_equal. now apply update_drop.
  - unfold min_free_float. rewrite free_float_terms_drop.
    destruct (free_float_terms (update k calc_floats s) (early_finish task) (x :: xs))
      as [[|y ys]|e]; try reflexivity.
    unfold lift. simpl. f_equal. now apply update_drop.
Qed.

Lemma calc_loop_drop ks : forall cp s,
  calc_loop ks cp (drop s) = lift ids (calc_loop ks cp s).
Proof.
  induction ks as [|k ks IH]; intros cp s; [reflexivity|]. simpl.
  unfold bind. rewrite calc_task_drop.
  destruct (calc_task k cp s) as [s1 [cp1|e]]; simpl; [apply IH|reflexivity].
Qed.

Lemma calculate_drop s :
  calculate_floats_and_critical_path (drop s)
  = lift ids (calculate_floats_and_critical_path s).
Proof.
  unfold calculate_floats_and_critical_path, bind, get. rewrite keys_drop.
  apply calc_loop_drop.
Qed.

Lemma results_drop s :
  map result_of_task (values (drop s)) = map result_of_task (values s).
Proof. unfold values, drop_dangling. rewrite !map_map. reflexivity. Qed.

Lemma analysis_drop limit s :
  inv s -> snd (analysis limit (drop s)) = snd (analysis limit s).
Proof.
  intros Hi. unfold analysis, swallow, bind, get, ret. simpl.
  rewrite forward_pass_drop by assumption. simpl.
  rewrite backward_pass_drop by now apply dangling_inv_forward_pass. simpl.
  rewrite calculate_drop.
  destruct (calculate_floats_and_critical_path _) as [s3 [cp|e]]; simpl; [|reflexivity].
  now rewrite results_drop.
Qed.

End DanglingPasses.

Section DanglingRun.

Lemma create_mem df p :
  mem p (create_task_objects df) = defined_in (map row_task_id df) p.
Proof.
  unfold create_task_objects.
  rewrite (mem_frame unlinked _ _ (link_successors_frame (insert_rows df))).
  unfold insert_rows. fold (insert_from [] df). now rewrite mem_insert_from.
Qed.

Lemma insert_from_inv_in (Q : store -> Prop) df :
  (forall r s, In r df -> Q s -> Q (dict_set (row_task_id r) (task_of_row r) s)) ->
  forall s, Q s -> Q (insert_from s df).
Proof.
  induction df as [|r df IH]; intros Hs s H; [assumption|].
  change (insert_from s (r :: df))
    with (insert_from (dict_set (row_task_id r) (task_of_row r) s) df).
  apply IH.
  - intros r' s' Hr'. apply Hs. now right.
  - apply Hs; [now left|assumption].
Qed.

Lemma create_predecessors df :
  all_entries (fun k t => exists r, In r df /\ row_task_id r = k /\
                                    predecessors t = row_predecessors r)
              (create_task_objects df).
Proof.
  unfold create_task_objects. apply link_successors_inv.
  - intros p k task s s' _ _ _ H. apply all_entries_update; [|assumption].
    intros t _ Ht. exact Ht.
  - unfold insert_rows. fold (insert_from [] df).
    apply insert_from_inv_in; [|constructor].
    intros r s Hr H. apply all_entries_dict_set; [|assumption].
    exists r. repeat split; assumption.
Qed.

Lemma create_dangling_inv df :
  (forall r, In r df -> keeps_a_predecessor (map row_task_id df) (row_predecessors r)) ->
  dangling_inv (map row_task_id df) (create_task_objects df).
Proof.
  intros H. split; [apply create_mem|].
  assert (Hp := create_predecessors df). unfold all_tasks, all_entries in *.
  eapply Forall_impl; [|exact Hp].
  intros [k t] (r & Hr & _ & E). simpl in *. rewrite E. now apply H.
Qed.

Lemma run_predecessors limit df :
  all_entries (fun k t => exists r, In r df /\ row_task_id r = k /\
                                    predecessors t = row_predecessors r)
              (fst (run_analysis limit df)).
Proof.
  rewrite run_analysis_eq.
  assert (H : all_entries (fun k t => exists r, In r df /\ row_task_id r = k /\
                                                predecessors t = row_predecessors r)
                          (fst (calculate_floats_and_critical_path (scheduled limit df)))).
  { apply calculate_inv.
    - intros k s H. apply all_entries_update; [|assumption].
      intros t _. now destruct (calc_floats_dates t) as (_ & _ & _ & _ & _ & _ & _ & ->).
    - intros k g s H. apply all_entries_update; [|assumption].
      intros t _ Ht. exact Ht.
    - apply scheduled_all_entries.
      + intros k t es _ Ht. exact Ht.
      + intros k t v Ht. split; exact Ht.
      + apply create_predecessors. }
  now destruct (calculate_floats_and_critical_path (scheduled limit df)) as [s [cp|e]].
Qed.

End DanglingRun.




(** ** Links between the tasks *)

Section Linked.

Lemma link_ok_update s k f :
  (forall t, predecessors (f t) = predecessors t) ->
  (forall t, successors (f t) = successors t) ->
  link_ok s -> link_ok (update k f s).
Proof.
  intros Hp Hs H p tp x tx. rewrite !lookup_update.
  intros Lp Hx Lx.
  assert (Lp' : exists tp0, lookup p s = Some tp0 /\ successors tp0 = successors tp).
  { destruct (String.eqb k p); [|now exists tp].
    destruct (lookup p s) as [tp0|]; [|discriminate]. simpl in Lp.
    injection Lp as <-. exists tp0. now rewrite Hs. }
  assert (Lx' : exists tx0, lookup x s = Some tx0 /\ predecessors tx0 = predecessors tx).
  { destruct (String.eqb k x); [|now exists tx].
    destruct (lookup x s) as [tx0|]; [|discriminate]. simpl in Lx.
    injection Lx as <-. exists tx0. now rewrite Hp. }
  destruct Lp' as (tp0 & Lp0 & Es). destruct Lx' as (tx0 & Lx0 & Ep).
  rewrite <- Ep. apply (H p tp0 x tx0); try assumption. now rewrite Es.
Qed.

Lemma link_ok_fwd_visit k task s : link_ok s -> link_ok (fwd_visit k task s).
Proof.
  intros H. unfold fwd_visit. destruct (fwd_early_start s task); [|assumption].
  now apply link_ok_update.
Qed.

Lemma finished_fwd_visit j k task s :
  lookup k s = Some task -> finished j s -> finished j (fwd_visit k task s).
Proof.
  intros L (t & ef & Lj & Hef). unfold fwd_visit.
  destruct (fwd_early_start s task) as [e|]; [|now exists t, ef].
  unfold finished. rewrite lookup_update. destruct (String.eqb k j).
  - rewrite Lj. simpl. eexists. eexists. split; reflexivity.
  - now exists t, ef.
Qed.

Lemma pred_finish_dates_finished s p l :
  In p l -> finished p s -> pred_finish_dates s l <> [].
Proof.
  intros Hp (t & ef & L & Hef). induction l as [|q l IH]; simpl; [easy|].
  destruct Hp as [->|Hp].
  - rewrite L, Hef. discriminate.
  - destruct (lookup q s) as [tq|]; [|now apply IH].
    destruct (early_finish tq); [discriminate|now apply IH].
Qed.

Lemma fwd_early_start_ready k task s :
  ready k s -> lookup k s = Some task -> early_start task = None ->
  exists e, fwd_early_start s task = Some e.
Proof.
  intros Hr L Es. unfold fwd_early_start.
  destruct (Hr task L) as [H|[H|H]]; [congruence| |].
  - rewrite H. now eexists.
  - destruct (predecessors task); [now eexists|].
    destruct (pred_finish_dates s (s0 :: l)); [contradiction|now eexists].
Qed.

Lemma link_task_inv_in (Q : store -> Prop) tasks task :
  (forall p s, In p (predecessors task) -> mem p s = true -> Q s ->
               Q (update p (append_successor (task_id task)) s)) ->
  Q tasks -> Q (link_task tasks task).
Proof.
  unfold link_task. generalize tasks.
  induction (predecessors task) as [|p ps IH]; simpl; intros s Hs H; [assumption|].
  apply IH.
  - intros q s1 Hq. apply Hs. now right.
  - destruct (mem p s) eqn:E; [|assumption]. apply Hs; auto.
Qed.

Lemma link_successors_inv_in (Q : store -> Prop) :
  (forall p k task s s', Q s' -> lookup k s' = Some task ->
                         In p (predecessors task) -> mem p s = true -> Q s ->
                         Q (update p (append_successor (task_id task)) s)) ->
  forall s, Q s -> Q (link_successors s).
Proof.
  intros Hs s. unfold link_successors. generalize (keys s). intros ks. revert s.
  induction ks as [|k ks IH]; simpl; intros s H; [assumption|].
  apply IH. destruct (lookup k s) as [task|] eqn:L; [|assumption].
  apply link_task_inv_in; [|assumption].
  intros p s1 Hp Hm H1. now apply (Hs p k task s1 s).
Qed.

Lemma create_link_ok df : link_ok (create_task_objects df).
Proof.
  unfold create_task_objects. set (s0 := insert_rows df).
  assert (H : key_is_id (link_successors s0) /\
              (forall j, option_map unlinked (lookup j (link_successors s0))
                         = option_map unlinked (lookup j s0)) /\
              all_entries (linked_from s0) (link_successors s0)).
  { apply (link_successors_inv_in
             (fun s => key_is_id s /\
                       (forall j, option_map unlinked (lookup j s)
                                  = option_map unlinked (lookup j s0)) /\
                       all_entries (linked_from s0) s)).
    - intros p k task s s' (Hid' & Hfr' & _) L Hp _ (Hid & Hfr & Hl).
      split; [|split].
      + apply all_entries_update; [|assumption]. intros t _ Ht. exact Ht.
      + intros j. rewrite lookup_update. destruct (String.eqb p j); [|apply Hfr].
        rewrite <- Hfr. now destruct (lookup j s).
      + apply all_entries_update; [|assumption].
        intros t _ Ht x. simpl. rewrite in_app_iff. intros [Hx|[<-|[]]]; [now apply Ht|].
        assert (E : task_id task = k).
        { apply lookup_In in L. unfold key_is_id, all_entries in Hid'.
          rewrite Forall_forall in Hid'. exact (Hid' _ L). }
        rewrite E.
        destruct (frame_lookup _ _ _ _ _ (Hfr' k) L) as (t0 & L0 & Eq).
        exists t0. split; [assumption|].
        apply (f_equal predecessors) in Eq. simpl in Eq. now rewrite <- Eq.
    - split; [|split; [reflexivity|]].
      + apply (insert_rows_inv key_is_id); [constructor|].
        intros r s H. now apply all_entries_dict_set.
      + apply (insert_rows_inv (all_entries (linked_from s0))); [constructor|].
        intros r s H. apply all_entries_dict_set; [|assumption]. intros x []. }
  destruct H as (_ & Hfr & Hl).
  intros p tp x tx Lp Hx Lx.
  apply lookup_In in Lp. unfold all_entries in Hl. rewrite Forall_forall in Hl.
  destruct (Hl _ Lp x Hx) as (tx0 & Lx0 & Hin).
  destruct (frame_lookup _ _ _ _ _ (Hfr x) Lx) as (tx1 & Lx1 & Eq).
  assert (tx1 = tx0) by congruence. subst tx1.
  apply (f_equal predecessors) in Eq. simpl in Eq. now rewrite Eq.
Qed.

End Linked.

(** ** Tasks without predecessors *)

Section Sources.

Lemma fwd_visit_source k task s :
  lookup k s = Some task -> predecessors task = [] ->
  fwd_visit k task s =
  update k (fun t => set_early_finish (Some (planned_start task + duration task))
                       (set_early_start (Some (planned_start task)) t)) s.
Proof. intros L Hp. unfold fwd_visit, fwd_early_start. now rewrite Hp. Qed.

Lemma source_seeded_fwd_visit k task s :
  lookup k s = Some task ->
  all_tasks source_seeded s -> all_tasks source_seeded (fwd_visit k task s).
Proof.
  intros L H. destruct (predecessors task) as [|p ps] eqn:Hp.
  - rewrite (fwd_visit_source k task s L Hp).
    apply all_tasks_update; [|assumption].
    intros t Ht _ _. assert (t = task) by congruence. subst t.
    right. simpl. auto.
  - unfold fwd_visit. destruct (fwd_early_start s task); [|assumption].
    apply all_tasks_update; [|assumption].
    intros t Ht _ Hs. assert (t = task) by congruence. subst t.
    simpl in Hs. congruence.
Qed.

Lemma source_done_fwd_visit k j task s :
  lookup j s = Some task -> source_done k s -> source_done k (fwd_visit j task s).
Proof.
  intros L H t. destruct (String.eqb j k) eqn:E.
  - apply String.eqb_eq in E; subst j.
    destruct (predecessors task) as [|p ps] eqn:Hp.
    + rewrite (fwd_visit_source k task s L Hp), lookup_update_same, L. simpl.
      intros [= <-] _. simpl. auto.
    + unfold fwd_visit. destruct (fwd_early_start s task); [|apply H].
      rewrite lookup_update_same, L. simpl. intros [= <-]. simpl. congruence.
  - apply String.eqb_neq in E. unfold fwd_visit.
    destruct (fwd_early_start s task); [|apply H].
    rewrite lookup_update_other by assumption. apply H.
Qed.

Lemma source_done_fwd_process_task k d j s :
  source_done k s -> source_done k (fst (ForwardPass.process_task d j s)).
Proof.
  apply fwd_process_task_inv. intros k0 task s1 L _. now apply source_done_fwd_visit.
Qed.

Lemma source_seeded_fwd_process_task d k s :
  all_tasks source_seeded s ->
  all_tasks source_seeded (fst (ForwardPass.process_task d k s)).
Proof.
  apply fwd_process_task_inv. intros k0 task s1 L _. now apply source_seeded_fwd_visit.
Qed.

Lemma fwd_process_task_source_done d k s s' :
  all_tasks source_seeded s ->
  ForwardPass.process_task d k s = (s', Ok tt) -> source_done k s'.
Proof.
  intros HJ. destruct d as [|d]; [discriminate|].
  rewrite fwd_process_task_eq.
  destruct (lookup k s) as [task|] eqn:L; [|discriminate].
  destruct (early_start task) as [es|] eqn:Es; simpl.
  - intros [= <-] t Ht Hs. assert (t = task) by congruence. subst t.
    destruct (all_tasks_lookup _ _ _ _ HJ L Hs) as [H|H]; [congruence|exact H].
  - intros H. replace s' with (fst (for_each (successors task) (fwd_recurse d)
                                     (fwd_visit k task s))) by now rewrite H.
    apply for_each_inv.
    + intros x s1 _ H1. unfold fwd_recurse, bind, get, ret.
      destruct (mem x s1); [|assumption]. now apply source_done_fwd_process_task.
    + intros t. destruct (predecessors task) as [|p ps] eqn:Hp.
      * rewrite (fwd_visit_source k task s L Hp), lookup_update_same, L. simpl.
        intros [= <-] _. simpl. auto.
      * unfold fwd_visit. destruct (fwd_early_start s task).
        -- rewrite lookup_update_same, L. simpl. intros [= <-]. simpl. congruence.
        -- rewrite L. intros [= <-]. congruence.
Qed.

Lemma forward_pass_sources limit s s' :
  all_tasks (fun t => early_start t = None) s ->
  forward_pass limit s = (s', Ok tt) ->
  forall k t, lookup k s' = Some t -> predecessors t = [] ->
    early_start t = Some (planned_start t) /\
    early_finish t = Some (planned_start t + duration t).
Proof.
  intros H0 Hrun k t L Hp.
  assert (Hk : In k (keys s)).
  { rewrite <- (keys_forward_pass limit s), Hrun. simpl.
    apply mem_keys. unfold mem. now rewrite L. }
  assert (HJ : all_tasks source_seeded s).
  { unfold all_tasks in *. eapply Forall_impl; [|exact H0].
    intros [k1 t1] Hes _. now left. }
  unfold forward_pass, bind at 1, get in Hrun.
  assert (G : forall ks s1 s2,
            all_tasks source_seeded s1 ->
            for_each ks
              (fun k => task <- get_task k ;;
                        match predecessors task with
                        | [] => ForwardPass.process_task limit k
                        | _ :: _ => ret tt
                        end) s1 = (s2, Ok tt) ->
            forall k, In k ks -> source_done k s2).
  { induction ks as [|e ks IH]; simpl; intros s1 s2 HJ1 H j Hj; [easy|].
    unfold bind at 1 in H.
    destruct ((task <- get_task e ;;
               match predecessors task with
               | [] => ForwardPass.process_task limit e
               | _ :: _ => ret tt
               end) s1) as [s3 [[]|err]] eqn:E1; [|discriminate].
    assert (Hbody : all_tasks source_seeded s3 /\ source_done e s3).
    { unfold bind, get_task in E1.
      destruct (lookup e s1) as [task|] eqn:Le; [|discriminate].
      destruct (predecessors task) as [|p ps] eqn:Hpe.
      - split.
        + replace s3 with (fst (ForwardPass.process_task limit e s1)) by now rewrite E1.
          now apply source_seeded_fwd_process_task.
        + exact (fwd_process_task_source_done _ _ _ _ HJ1 E1).
      - injection E1 as <-. split; [assumption|].
        intros t1 Lt1. assert (t1 = task) by congruence. subst t1. congruence. }
    destruct Hbody as [HJ3 Hdone].
    destruct Hj as [->|Hj]; [|exact (IH _ _ HJ3 H j Hj)].
    replace s2 with (fst (for_each ks
              (fun k => task <- get_task k ;;
                        match predecessors task with
                        | [] => ForwardPass.process_task limit k
                        | _ :: _ => ret tt
                        end) s3)) by now rewrite H.
    apply for_each_inv; [|assumption].
    intros x s4 _ H4. unfold bind, get_task.
    destruct (lookup x s4) as [tx|]; [|assumption].
    destruct (predecessors tx); [|assumption].
    now apply source_done_fwd_process_task. }
  exact (G (keys s) s s' HJ Hrun k Hk t L Hp).
Qed.

End Sources.


(** ** Successor lists are the predecessor lists, turned round *)

Section Links.

Lemma lists_successor_update p x q y s :
  lists_successor p x s -> lists_successor p x (update q (append_successor y) s).
Proof.
  intros (tp & L & Hx). unfold lists_successor. rewrite lookup_update.
  destruct (String.eqb q p).
  - rewrite L. simpl. eexists. split; [reflexivity|]. simpl.
    apply in_or_app. now left.
  - now exists tp.
Qed.

Lemma link_task_lists p task : forall s,
  mem p s = true ->
  lists_successor p (task_id task) s \/ In p (predecessors task) ->
  lists_successor p (task_id task) (link_task s task).
Proof.
  unfold link_task. induction (predecessors task) as [|q ps IH]; simpl; intros s Hm H.
  - now destruct H.
  - apply IH.
    + destruct (mem q s); [now rewrite mem_update|assumption].
    + destruct H as [H|[->|H]].
      * left. destruct (mem q s); [now apply lists_successor_update|assumption].
      * left. rewrite Hm. unfold lists_successor. rewrite lookup_update_same.
        unfold mem in Hm. destruct (lookup p s) as [tp|]; [|discriminate].
        simpl. eexists. split; [reflexivity|]. simpl.
        apply in_or_app. right. now left.
      * now right.
Qed.

Lemma link_task_lists_keep p x task s :
  lists_successor p x s -> lists_successor p x (link_task s task).
Proof.
  apply (link_task_inv (lists_successor p x)).
  intros q s1 _. apply lists_successor_update.
Qed.

Lemma key_is_id_link_task s task : key_is_id s -> key_is_id (link_task s task).
Proof.
  apply (link_task_inv key_is_id). intros q s1 _ H.
  apply all_entries_update; [|assumption]. intros t _ Ht. exact Ht.
Qed.

Lemma key_is_id_lookup s k t : key_is_id s -> lookup k s = Some t -> task_id t = k.
Proof.
  intros H L. apply lookup_In in L. unfold key_is_id, all_entries in H.
  rewrite Forall_forall in H. exact (H _ L).
Qed.

Lemma link_fold_lists p x ks : forall s,
  key_is_id s -> mem p s = true ->
  lists_successor p x s \/
  (exists task, In x ks /\ lookup x s = Some task /\ In p (predecessors task)) ->
  lists_successor p x
    (fold_left (fun tasks k => match lookup k tasks with
                               | Some task => link_task tasks task
                               | None => tasks
                               end) ks s).
Proof.
  induction ks as [|k0 ks IH]; simpl; intros s Hid Hm H.
  - destruct H as [H|(task & [] & _)]. exact H.
  - set (s1 := match lookup k0 s with Some task => link_task s task | None => s end).
    assert (Hfr : forall j, option_map unlinked (lookup j s1)
                            = option_map unlinked (lookup j s)).
    { intros j. unfold s1. destruct (lookup k0 s); [apply link_task_frame|reflexivity]. }
    assert (Hid1 : key_is_id s1).
    { unfold s1. destruct (lookup k0 s); [now apply key_is_id_link_task|assumption]. }
    apply IH; [assumption|now rewrite (mem_frame _ _ _ Hfr)|].
    destruct H as [H|(task & [->|Hk] & L & Hp)].
    + left. unfold s1. destruct (lookup k0 s); [|assumption].
      now apply link_task_lists_keep.
    + left. unfold s1. rewrite L.
      rewrite <- (key_is_id_lookup s x task Hid L).
      apply link_task_lists; auto.
    + right.
      destruct (frame_lookup _ _ _ _ _ (eq_sym (Hfr x)) L) as (task' & L1 & Eq).
      exists task'. split; [assumption|]. split; [exact L1|].
      apply (f_equal predecessors) in Eq. simpl in Eq. now rewrite <- Eq.
Qed.

Lemma create_lists_successor df p x tx :
  lookup x (create_task_objects df) = Some tx ->
  In p (predecessors tx) ->
  mem p (create_task_objects df) = true ->
  lists_successor p x (create_task_objects df).
Proof.
  intros L Hp Hm. unfold create_task_objects in *.
  set (s0 := insert_rows df) in *.
  assert (Hfr := link_successors_frame s0).
  destruct (frame_lookup _ _ _ _ _ (Hfr x) L) as (t0 & L0 & Eq).
  apply link_fold_lists.
  - apply (insert_rows_inv key_is_id); [constructor|].
    intros r s H. now apply all_entries_dict_set.
  - now rewrite <- (mem_frame _ _ _ Hfr).
  - right. exists t0. split; [|split; [assumption|]].
    + apply mem_keys. unfold mem. now rewrite L0.
    + apply (f_equal predecessors) in Eq. simpl in Eq. now rewrite <- Eq.
Qed.

End Links.

(** X4. In the table [create_task_objects] builds, the successor lists
    are the predecessor lists turned round: for two tasks of the table, [x]
    is listed as a successor of [p] exactly when [p] is listed as a
    predecessor of [x]. *)
Theorem X4_successors_mirror_predecessors df p x tp tx :
  lookup p (create_task_objects df) = Some tp ->
  lookup x (create_task_objects df) = Some tx ->
  In x (successors tp) <-> In p (predecessors tx).
Proof.
  intros Lp Lx. split.
  - intros Hx. exact (create_link_ok df p tp x tx Lp Hx Lx).
  - intros Hp.
    destruct (create_lists_successor df p x tx Lx Hp) as (tp' & Lp' & Hx).
    + unfold mem. now rewrite Lp.
    + congruence.
Qed.

Lemma X4_witness :
  let s := create_task_objects parallel_rows in
  let tp := snd (nth 0 s (EmptyString, Task_init EmptyString EmptyString 0 0 0 [])) in
  let tx := snd (nth 2 s (EmptyString, Task_init EmptyString EmptyString 0 0 0 [])) in
  lookup "A" s = Some tp /\ lookup "C" s = Some tx /\
  (In "C" (successors tp) <-> In "A" (predecessors tx)).
Proof.
  intros s tp tx.
  assert (H1 : lookup "A" (create_task_objects parallel_rows) = Some tp)
    by (vm_compute; reflexivity).
  assert (H2 : lookup "C" (create_task_objects parallel_rows) = Some tx)
    by (vm_compute; reflexivity).
  split; [exact H1|]. split; [exact H2|].
  exact (X4_successors_mirror_predecessors parallel_rows "A" "C" tp tx H1 H2).
Defined.

(** ** Where early starts come from *)

Section ForwardSources.

Lemma fwd_visit_frame k task s j :
  option_map unearly (lookup j (fwd_visit k task s)) = option_map unearly (lookup j s).
Proof.
  unfold fwd_visit. destruct (fwd_early_start s task); [|reflexivity].
  rewrite lookup_update. destruct (String.eqb k j); [|reflexivity].
  now destruct (lookup j s).
Qed.

Lemma unearly_fields t t' :
  unearly t' = unearly t ->
  task_id t' = task_id t /\ planned_start t' = planned_start t /\
  duration t' = duration t /\
  predecessors t' = predecessors t /\ successors t' = successors t.
Proof.
  intros H.
  repeat split;
    [ apply (f_equal task_id) in H | apply (f_equal planned_start) in H
    | apply (f_equal duration) in H
    | apply (f_equal predecessors) in H | apply (f_equal successors) in H ]; exact H.
Qed.

Lemma max_list_In xs : forall x, In (max_list x xs) (x :: xs).
Proof.
  unfold max_list. induction xs as [|y ys IH]; simpl; intros x; [now left|].
  destruct (IH (Z.max x y)) as [H|H]; [|now right; right].
  rewrite <- H. destruct (Z.max_dec x y) as [E|E]; rewrite E; auto.
Qed.

Lemma pred_finish_dates_In s l v :
  In v (pred_finish_dates s l) ->
  exists p tp, In p l /\ lookup p s = Some tp /\ early_finish tp = Some v.
Proof.
  induction l as [|x l IH]; simpl; [easy|].
  destruct (lookup x s) as [tx|] eqn:L.
  - destruct (early_finish tx) as [ef|] eqn:Ef.
    + intros [<-|H].
      * exists x, tx. auto.
      * destruct (IH H) as (x' & tx' & ? & ? & ?). exists x', tx'. auto.
    + intros H. destruct (IH H) as (x' & tx' & ? & ? & ?). exists x', tx'. auto.
  - intros H. destruct (IH H) as (x' & tx' & ? & ? & ?). exists x', tx'. auto.
Qed.

Lemma fwd_early_start_source s task e :
  fwd_early_start s task = Some e ->
  (predecessors task = [] /\ e = planned_start task) \/
  exists p tp, In p (predecessors task) /\ lookup p s = Some tp /\
               early_finish tp = Some e.
Proof.
  unfold fwd_early_start. destruct (predecessors task) as [|x xs] eqn:Ps.
  - intros [= <-]. now left.
  - destruct (pred_finish_dates s (x :: xs)) as [|y ys] eqn:Pd; [discriminate|].
    intros [= <-]. right. apply pred_finish_dates_In. rewrite Pd. apply max_list_In.
Qed.

Lemma early_ordered_fwd_visit k task s :
  lookup k s = Some task -> early_start task = None ->
  all_tasks early_ordered s -> all_tasks early_ordered (fwd_visit k task s).
Proof.
  apply (fwd_visit_all_entries (fun _ => early_ordered)).
  intros _ t es _ _. unfold early_ordered. simpl. discriminate.
Qed.

Lemma early_start_source_fwd_visit j task s :
  lookup j s = Some task -> early_start task = None ->
  all_tasks early_ordered s ->
  early_start_source s -> early_start_source (fwd_visit j task s).
Proof.
  intros L Es Ho H.
  assert (Keep : forall x tx v, lookup x s = Some tx -> early_finish tx = Some v ->
                                lookup x (fwd_visit j task s) = Some tx).
  { intros x tx v Lx Hv. unfold fwd_visit.
    assert (Hne : j <> x).
    { intros ->. assert (tx = task) by congruence. subst tx.
      specialize (all_tasks_lookup _ _ _ _ Ho L Es). congruence. }
    destruct (fwd_early_start s task); [|assumption].
    now rewrite lookup_update_other. }
  intros k t e Lk He.
  destruct (String.eqb j k) eqn:E.
  - apply String.eqb_eq in E; subst k. unfold fwd_visit in Lk.
    destruct (fwd_early_start s task) as [e0|] eqn:Fe.
    + rewrite lookup_update_same, L in Lk. simpl in Lk. injection Lk as <-.
      simpl in *. injection He as <-.
      destruct (fwd_early_start_source _ _ _ Fe) as [Hs|(p & tp & Hp & Lp & Hv)];
        [now left|].
      right. exists p, tp. repeat split; try assumption. exact (Keep _ _ _ Lp Hv).
    + assert (t = task) by congruence. subst t. congruence.
  - apply String.eqb_neq in E.
    assert (Lk' : lookup k s = Some t).
    { unfold fwd_visit in Lk. destruct (fwd_early_start s task); [|assumption].
      now rewrite lookup_update_other in Lk. }
    destruct (H k t e Lk' He) as [Hs|(p & tp & Hp & Lp & Hv)]; [now left|].
    right. exists p, tp. repeat split; try assumption. exact (Keep _ _ _ Lp Hv).
Qed.

Lemma fresh_early_ordered s : all_tasks fresh s -> all_tasks early_ordered s.
Proof.
  intros H. unfold all_tasks in *. eapply Forall_impl; [|exact H].
  intros [k t] (_ & Hef & _) _. exact Hef.
Qed.

Lemma early_start_source_forward_pass limit s :
  all_tasks fresh s ->
  all_tasks early_ordered (fst (forward_pass limit s)) /\
  early_start_source (fst (forward_pass limit s)).
Proof.
  intros H0.
  apply (forward_pass_inv (fun s' => all_tasks early_ordered s' /\ early_start_source s')).
  - intros k task s1 L Es (H1 & H2). split.
    + now apply early_ordered_fwd_visit.
    + now apply early_start_source_fwd_visit.
  - split; [now apply fresh_early_ordered|].
    intros k t e L He. destruct (all_tasks_lookup _ _ _ _ H0 L) as (Hes & _). congruence.
Qed.

End ForwardSources.

(** X5. After the forward pass on a freshly built table, an early start
    is never invented: it is the planned start of a task without
    predecessors, or the early finish of one of the task's own
    predecessors. *)
Theorem X5_early_start_is_planned_or_a_predecessor_finish limit df k t e :
  lookup k (fst (forward_pass limit (create_task_objects df))) = Some t ->
  early_start t = Some e ->
  (predecessors t = [] /\ e = planned_start t) \/
  exists p tp, In p (predecessors t) /\
               lookup p (fst (forward_pass limit (create_task_objects df))) = Some tp /\
               early_finish tp = Some e.
Proof.
  intros L He.
  exact (proj2 (early_start_source_forward_pass limit _ (create_fresh df)) k t e L He).
Qed.

Lemma X5_witness :
  let s := fst (forward_pass 10 (create_task_objects late_predecessor_rows)) in
  let t := snd (nth 2 s (EmptyString, Task_init EmptyString EmptyString 0 0 0 [])) in
  lookup "C" s = Some t /\ early_start t = Some (whole_days 2) /\
  ((predecessors t = [] /\ whole_days 2 = planned_start t) \/
   exists p tp, In p (predecessors t) /\ lookup p s = Some tp /\
                early_finish tp = Some (whole_days 2)).
Proof.
  intros s t.
  assert (H1 : lookup "C" (fst (forward_pass 10 (create_task_objects late_predecessor_rows)))
               = Some t) by (vm_compute; reflexivity).
  assert (H2 : early_start t = Some (whole_days 2)) by (vm_compute; reflexivity).
  split; [exact H1|]. split; [exact H2|].
  exact (X5_early_start_is_planned_or_a_predecessor_finish
           10 late_predecessor_rows "C" t (whole_days 2) H1 H2).
Defined.

(** X6. A task whose predecessor list is not empty and names no task of
    the table is never scheduled: after both passes it has neither an
    early start nor an early finish. *)
Theorem X6_only_dangling_predecessors_never_scheduled limit df k t :
  lookup k (scheduled limit df) = Some t ->
  predecessors t <> [] ->
  (forall p, In p (predecessors t) -> mem p (scheduled limit df) = false) ->
  early_start t = None /\ early_finish t = None.
Proof.
  intros L Hne Hd. unfold scheduled, swallow in *. simpl in *.
  set (s1 := fst (forward_pass limit (create_task_objects df))) in *.
  assert (Hfr := backward_pass_frame limit s1).
  destruct (frame_lookup _ _ _ _ _ (Hfr k) L) as (t1 & L1 & Eq).
  destruct (unlate_fields _ _ Eq) as (_ & _ & Hp & _ & Hes & Hef & _).
  destruct (early_start_source_forward_pass limit _ (create_fresh df)) as [Ho Hs].
  fold s1 in Ho, Hs.
  assert (Hnone : early_start t1 = None).
  { destruct (early_start t1) as [e|] eqn:E; [|reflexivity]. exfalso.
    destruct (Hs k t1 e L1 E) as [[Hnil _]|(p & tp & Hin & Lp & _)].
    - apply Hne. congruence.
    - rewrite <- Hp in Hin. specialize (Hd p Hin).
      rewrite (mem_frame _ _ _ Hfr) in Hd. unfold mem in Hd. now rewrite Lp in Hd. }
  split; [congruence|].
  rewrite Hef. exact (all_tasks_lookup _ _ _ _ Ho L1 Hnone).
Qed.

Lemma X6_witness :
  let t := snd (nth 0 (scheduled 10 only_dangling_rows) (EmptyString, Task_init EmptyString EmptyString 0 0 0 [])) in
  lookup "A" (scheduled 10 only_dangling_rows) = Some t /\
  predecessors t = ["Z"] /\
  mem "Z" (scheduled 10 only_dangling_rows) = false /\
  early_start t = None /\ early_finish t = None.
Proof.
  intros t.
  assert (H1 : lookup "A" (scheduled 10 only_dangling_rows) = Some t)
    by (vm_compute; reflexivity).
  assert (H2 : predecessors t = ["Z"]) by (vm_compute; reflexivity).
  assert (H3 : mem "Z" (scheduled 10 only_dangling_rows) = false)
    by (vm_compute; reflexivity).
  split; [exact H1|]. split; [exact H2|]. split; [exact H3|].
  apply (X6_only_dangling_predecessors_never_scheduled 10 only_dangling_rows "A" t H1).
  - rewrite H2. discriminate.
  - rewrite H2. intros p [<-|[]]. exact H3.
Defined.

(** ** The early dates of a task without predecessors *)

Section SourceDates.

Lemma early_consistent_forward_pass limit df :
  all_tasks early_consistent (fst (forward_pass limit (create_task_objects df))).
Proof.
  apply (forward_pass_all_entries (fun _ => early_consistent)).
  - intros k t es _ _ a. simpl. now intros [= <-].
  - assert (H := create_fresh df). unfold all_tasks, all_entries in *.
    eapply Forall_impl; [|exact H]. intros [k t] (Hes & _) a. simpl in *. congruence.
Qed.

End SourceDates.

(** X3. A task with an empty predecessor list never leaves the forward
    pass with early dates other than [planned_start] and
    [planned_start + duration]; and it has both of them when the pass has
    run to its end. *)
Theorem X3_sources_start_as_planned limit df k t :
  lookup k (fst (forward_pass limit (create_task_objects df))) = Some t ->
  predecessors t = [] ->
  (forall e, early_start t = Some e -> e = planned_start t) /\
  (forall f, early_finish t = Some f -> f = planned_start t + duration t) /\
  (snd (forward_pass limit (create_task_objects df)) = Ok tt ->
   early_start t = Some (planned_start t) /\
   early_finish t = Some (planned_start t + duration t)).
Proof.
  intros L Hp.
  destruct (early_start_source_forward_pass limit _ (create_fresh df)) as [Hord Hsrc].
  assert (Hcons := all_tasks_lookup _ _ _ _ (early_consistent_forward_pass limit df) L).
  assert (Hes : forall e, early_start t = Some e -> e = planned_start t).
  { intros e He. destruct (Hsrc k t e L He) as [[_ H]|(p & tp & Hin & _)]; [exact H|].
    rewrite Hp in Hin. destruct Hin. }
  split; [exact Hes|]. split.
  - intros f Hf. destruct (early_start t) as [e|] eqn:He.
    + rewrite (Hcons e He) in Hf. injection Hf as <-. now rewrite (Hes e eq_refl).
    + assert (Hn := all_tasks_lookup _ _ _ _ Hord L He). congruence.
  - intros Hok.
    destruct (forward_pass limit (create_task_objects df)) as [s' r] eqn:E.
    simpl in *. subst r.
    apply (forward_pass_sources limit (create_task_objects df) s') with k;
      try assumption.
    assert (H := create_fresh df). unfold all_tasks in *.
    eapply Forall_impl; [|exact H]. now intros [k1 t1] (H1 & _).
Qed.

Lemma X3_witness :
  let t := snd (nth 1 (fst (forward_pass 10 (create_task_objects parallel_rows)))
                  (EmptyString, Task_init EmptyString EmptyString 0 0 0 [])) in
  lookup "B" (fst (forward_pass 10 (create_task_objects parallel_rows))) = Some t /\
  predecessors t = [] /\
  snd (forward_pass 10 (create_task_objects parallel_rows)) = Ok tt /\
  early_start t = Some (planned_start t) /\
  early_finish t = Some (planned_start t + duration t).
Proof.
  intros t.
  assert (H1 : snd (forward_pass 10 (create_task_objects parallel_rows)) = Ok tt)
    by (vm_compute; reflexivity).
  assert (H2 : lookup "B" (fst (forward_pass 10 (create_task_objects parallel_rows)))
               = Some t) by (vm_compute; reflexivity).
  assert (H3 : predecessors t = []) by (vm_compute; reflexivity).
  split; [exact H2|]. split; [exact H3|]. split; [exact H1|].
  exact (proj2 (proj2 (X3_sources_start_as_planned 10 parallel_rows "B" t H2 H3)) H1).
Defined.

(** ** Which tasks the forward pass reaches *)

Section Coverage.

Lemma extends_refl s : extends s s.
Proof. split; auto. Qed.

Lemma extends_trans s1 s2 s3 : extends s1 s2 -> extends s2 s3 -> extends s1 s3.
Proof.
  intros [H1 H2] [H3 H4]. split; [auto|]. intros j. now rewrite H4, H2.
Qed.

Lemma extends_fwd_visit k task s :
  lookup k s = Some task -> extends s (fwd_visit k task s).
Proof.
  intros L. split.
  - intros j. now apply finished_fwd_visit.
  - intros j. apply fwd_visit_frame.
Qed.

Lemma extends_fwd_process_task d k s :
  extends s (fst (ForwardPass.process_task d k s)).
Proof.
  apply (fwd_process_task_inv (extends s)); [|apply extends_refl].
  intros j task s1 L _ H. apply (extends_trans _ _ _ H). now apply extends_fwd_visit.
Qed.

Lemma extends_mem s s' j : extends s s' -> mem j s' = mem j s.
Proof. intros [_ H]. now apply (mem_frame unearly). Qed.

Lemma extends_successors s s' j t' :
  extends s s' -> lookup j s' = Some t' ->
  exists t, lookup j s = Some t /\ successors t' = successors t /\
            predecessors t' = predecessors t.
Proof.
  intros [_ H] L. destruct (frame_lookup _ _ _ _ _ (H j) L) as (t & Lt & Eq).
  exists t. destruct (unearly_fields _ _ Eq) as (_ & _ & _ & Hp & Hs). auto.
Qed.

Lemma extends_successors_back s s' j t :
  extends s s' -> lookup j s = Some t ->
  exists t', lookup j s' = Some t' /\ successors t' = successors t /\
             predecessors t' = predecessors t.
Proof.
  intros [_ H] L.
  destruct (frame_lookup _ _ _ _ _ (eq_sym (H j)) L) as (t' & Lt & Eq).
  exists t'. destruct (unearly_fields _ _ Eq) as (_ & _ & _ & Hp & Hs). auto.
Qed.

Lemma walk_inv_fwd_visit k task s :
  lookup k s = Some task -> early_start task = None ->
  walk_inv s -> walk_inv (fwd_visit k task s).
Proof.
  intros L Es [H1 H2]. split; [now apply link_ok_fwd_visit|].
  apply (fwd_visit_all_entries (fun _ => early_consistent)); try assumption.
  intros _ t es _ _ a. simpl. now intros [= <-].
Qed.

Lemma walk_inv_fwd_process_task d k s :
  walk_inv s -> walk_inv (fst (ForwardPass.process_task d k s)).
Proof.
  apply fwd_process_task_inv. intros j task s1. apply walk_inv_fwd_visit.
Qed.

Lemma early_consistent_finished s k t e :
  all_tasks early_consistent s -> lookup k s = Some t -> early_start t = Some e ->
  finished k s.
Proof.
  intros H L He. exists t, (e + duration t). split; [assumption|].
  exact (all_tasks_lookup _ _ _ _ H L e He).
Qed.

Lemma fwd_closure d : forall k s s' stack,
  walk_inv s -> mem k s = true -> ready k s -> open_except stack s ->
  ForwardPass.process_task d k s = (s', Ok tt) ->
  open_except stack s' /\ finished k s'.
Proof.
  induction d as [|d IH]; intros k s s' stack Hw Hm Hr Ho; [discriminate|].
  rewrite fwd_process_task_eq. unfold mem in Hm.
  destruct (lookup k s) as [task|] eqn:L; [|discriminate].
  destruct (early_start task) as [e0|] eqn:Es; simpl.
  { intros [= <-]. split; [assumption|].
    exact (early_consistent_finished s k task e0 (proj2 Hw) L Es). }
  destruct (fwd_early_start_ready k task s Hr L Es) as [e He].
  set (s1 := fwd_visit k task s).
  assert (Hf1 : finished k s1).
  { unfold s1, finished, fwd_visit. rewrite He, lookup_update_same, L. simpl.
    eexists. eexists. split; reflexivity. }
  assert (Hw1 : walk_inv s1) by now apply walk_inv_fwd_visit.
  assert (Hx1 : extends s s1) by now apply extends_fwd_visit.
  destruct (extends_successors_back s s1 k task Hx1 L) as (t1 & Lk1 & Hs1 & _).
  assert (Ho1 : open_except (k :: stack) s1).
  { intros p tp x Lp Hef Hnin Hx Hmx.
    assert (Hne : k <> p) by (intros ->; apply Hnin; now left).
    assert (Lp0 : lookup p s = Some tp).
    { unfold s1, fwd_visit in Lp. rewrite He in Lp.
      now rewrite lookup_update_other in Lp. }
    apply (proj1 Hx1). apply (Ho p tp x Lp0 Hef); [|assumption|].
    - intros Hin. apply Hnin. now right.
    - now rewrite <- (extends_mem _ _ x Hx1). }
  assert (Loop : forall xs si sf,
            for_each xs (fwd_recurse d) si = (sf, Ok tt) ->
            walk_inv si -> extends s1 si -> open_except (k :: stack) si ->
            (forall x, In x xs -> In x (successors task)) ->
            open_except (k :: stack) sf /\ extends si sf /\
            (forall x, In x xs -> mem x sf = true -> finished x sf)).
  { induction xs as [|x xs IHxs]; simpl; intros si sf Hrun Hwi Hxi Hoi Hsub.
    { injection Hrun as <-. split; [assumption|]. split; [apply extends_refl|].
      intros x []. }
    unfold bind at 1 in Hrun.
    destruct (fwd_recurse d x si) as [sj [[]|err]] eqn:Ex; [|discriminate].
    assert (Hxj : extends si sj /\ walk_inv sj /\ open_except (k :: stack) sj /\
                  (mem x si = true -> finished x sj)).
    { unfold fwd_recurse, bind, get, ret in Ex.
      destruct (mem x si) eqn:Hmx.
      - assert (Hsj : sj = fst (ForwardPass.process_task d x si)) by now rewrite Ex.
        split; [subst sj; apply extends_fwd_process_task|].
        split; [subst sj; now apply walk_inv_fwd_process_task|].
        assert (Hrx : ready x si).
        { intros tx Lx. right. right.
          apply (pred_finish_dates_finished si k); [|apply (proj1 Hxi); exact Hf1].
          destruct (extends_successors_back s1 si k t1 Hxi Lk1) as (tk & Lk & Hsk & _).
          apply (proj1 Hwi k tk x tx Lk); [|assumption].
          rewrite Hsk, Hs1. apply Hsub. now left. }
        destruct (IH x si sj (k :: stack) Hwi Hmx Hrx Hoi Ex) as [H1 H2].
        split; [assumption|]. intros _. exact H2.
      - injection Ex as <-. split; [apply extends_refl|].
        split; [assumption|]. split; [assumption|discriminate]. }
    destruct Hxj as (Hxij & Hwj & Hoj & Hfx).
    destruct (IHxs sj sf Hrun Hwj (extends_trans _ _ _ Hxi Hxij) Hoj) as (H1 & H2 & H3).
    { intros y Hy. apply Hsub. now right. }
    split; [assumption|]. split; [exact (extends_trans _ _ _ Hxij H2)|].
    intros y [<-|Hy] Hmy; [|now apply H3].
    apply (proj1 H2). apply Hfx.
    now rewrite <- (extends_mem _ _ x Hxij), <- (extends_mem _ _ x H2). }
  intros Hrun.
  destruct (Loop (successors task) s1 s' Hrun Hw1 (extends_refl s1) Ho1) as (H1 & H2 & H3);
    [auto|].
  split; [|exact (proj1 H2 k Hf1)].
  intros p tp x Lp Hef Hnin Hx Hmx.
  destruct (String.eqb k p) eqn:E.
  - apply String.eqb_eq in E; subst p.
    destruct (extends_successors s1 s' k tp H2 Lp) as (t1' & Lk1' & Hs' & _).
    assert (t1' = t1) by congruence. subst t1'.
    apply H3; [|assumption]. now rewrite <- Hs1, <- Hs'.
  - apply String.eqb_neq in E. apply (H1 p tp x Lp Hef); [|assumption|assumption].
    intros [->|Hin]; [now apply E|now apply Hnin].
Qed.


Lemma forward_loop_open limit ks : forall si s',
  walk_inv si -> open_except [] si ->
  for_each ks
    (fun k => task <- get_task k ;;
              match predecessors task with
              | [] => ForwardPass.process_task limit k
              | _ :: _ => ret tt
              end) si = (s', Ok tt) ->
  open_except [] s' /\ extends si s'.
Proof.
  induction ks as [|k ks IH]; simpl; intros si s' Hw Ho Hrun.
  { injection Hrun as <-. split; [assumption|apply extends_refl]. }
  unfold bind at 1 in Hrun.
  destruct ((task <- get_task k ;;
             match predecessors task with
             | [] => ForwardPass.process_task limit k
             | _ :: _ => ret tt
             end) si) as [sj [[]|err]] eqn:E1; [|discriminate].
  assert (Hj : walk_inv sj /\ open_except [] sj /\ extends si sj).
  { unfold bind, get_task in E1.
    destruct (lookup k si) as [task|] eqn:L; [|discriminate].
    destruct (predecessors task) as [|p ps] eqn:Hp.
    - assert (Hsj : sj = fst (ForwardPass.process_task limit k si)) by now rewrite E1.
      split; [subst sj; now apply walk_inv_fwd_process_task|].
      split; [|subst sj; apply extends_fwd_process_task].
      apply (fwd_closure limit k si sj [] Hw);
        [unfold mem; now rewrite L| |assumption|assumption].
      intros t Lt. assert (t = task) by congruence. subst t. auto.
    - injection E1 as <-. split; [assumption|]. split; [assumption|apply extends_refl]. }
  destruct Hj as (Hwj & Hoj & Hxj).
  destruct (IH sj s' Hwj Hoj Hrun) as [H1 H2].
  split; [assumption|exact (extends_trans _ _ _ Hxj H2)].
Qed.

Lemma forward_pass_open limit s s' :
  walk_inv s -> open_except [] s ->
  forward_pass limit s = (s', Ok tt) ->
  open_except [] s' /\ extends s s'.
Proof.
  intros Hw Ho. unfold forward_pass, bind at 1, get. now apply forward_loop_open.
Qed.

Lemma fresh_walk_inv s : link_ok s -> all_tasks fresh s -> walk_inv s /\ open_except [] s.
Proof.
  intros Hl Hf. split; [split; [assumption|]|].
  - unfold all_tasks in *. eapply Forall_impl; [|exact Hf].
    intros [k t] (Hes & _) e. simpl in *. intros He. congruence.
  - intros p tp x Lp Hef. destruct (all_tasks_lookup _ _ _ _ Hf Lp) as (_ & H & _).
    congruence.
Qed.

Lemma scheduled_reachable_fwd_visit s0 j task s :
  (forall p x tx, lookup x s0 = Some tx -> In p (predecessors tx) ->
                  mem p s0 = true -> lists_successor p x s0) ->
  lookup j s = Some task -> early_start task = None ->
  extends s0 s -> all_tasks early_ordered s ->
  scheduled_reachable s0 s -> scheduled_reachable s0 (fwd_visit j task s).
Proof.
  intros Hmir L Es Hx Ho H k t e. unfold fwd_visit.
  destruct (fwd_early_start s task) as [es|] eqn:Fe; [|apply H].
  destruct (String.eqb j k) eqn:E.
  - apply String.eqb_eq in E; subst j. intros _ _.
    destruct (extends_successors s0 s k task Hx L) as (t0 & L0 & _ & Hp0).
    destruct (fwd_early_start_source s task es Fe) as [[Hp _]|(p & tp & Hin & Lp & Hef)].
    + apply (reach_source s0 k t0); [assumption|congruence].
    + destruct (early_start tp) as [ep|] eqn:Ep.
      * assert (Hrp := H p tp ep Lp Ep).
        assert (Hmp : mem p s0 = true).
        { rewrite <- (extends_mem s0 s p Hx). unfold mem. now rewrite Lp. }
        destruct (Hmir p k t0 L0) as (tp0 & Lp0 & Hs0); [congruence|assumption|].
        apply (reach_step s0 p tp0 k); try assumption. unfold mem. now rewrite L0.
      * assert (Hn := all_tasks_lookup _ _ _ _ Ho Lp Ep). congruence.
  - apply String.eqb_neq in E. rewrite lookup_update_other by assumption. apply H.
Qed.

Lemma forward_pass_scheduled_reachable limit s0 :
  (forall p x tx, lookup x s0 = Some tx -> In p (predecessors tx) ->
                  mem p s0 = true -> lists_successor p x s0) ->
  all_tasks fresh s0 ->
  scheduled_reachable s0 (fst (forward_pass limit s0)).
Proof.
  intros Hmir Hf.
  apply (forward_pass_inv (fun s => extends s0 s /\ all_tasks early_ordered s /\
                                    scheduled_reachable s0 s)).
  - intros k task s L Es (H1 & H2 & H3). split; [|split].
    + apply (extends_trans _ _ _ H1). now apply extends_fwd_visit.
    + now apply early_ordered_fwd_visit.
    + now apply scheduled_reachable_fwd_visit.
  - split; [apply extends_refl|]. split; [now apply fresh_early_ordered|].
    intros k t e L He. destruct (all_tasks_lookup _ _ _ _ Hf L) as (Hes & _). congruence.
Qed.

Lemma forward_pass_facts limit s0 s' :
  link_ok s0 -> all_tasks fresh s0 ->
  forward_pass limit s0 = (s', Ok tt) ->
  open_except [] s' /\ extends s0 s' /\
  all_tasks early_consistent s' /\ all_tasks early_ordered s'.
Proof.
  intros Hl Hf Hrun.
  destruct (fresh_walk_inv s0 Hl Hf) as [Hw Ho].
  destruct (forward_pass_open limit s0 s' Hw Ho Hrun) as [Ho' Hx].
  split; [assumption|]. split; [assumption|].
  replace s' with (fst (forward_pass limit s0)) by now rewrite Hrun.
  split.
  - apply (forward_pass_inv walk_inv); [|assumption].
    intros j task s1. apply walk_inv_fwd_visit.
  - now apply early_start_source_forward_pass.
Qed.

Lemma forward_pass_reaches limit s0 s' :
  link_ok s0 -> all_tasks fresh s0 ->
  forward_pass limit s0 = (s', Ok tt) ->
  forall k, reachable s0 k ->
            exists t e, lookup k s' = Some t /\ early_start t = Some e.
Proof.
  intros Hl Hf Hrun.
  destruct (forward_pass_facts limit s0 s' Hl Hf Hrun) as (Ho' & Hx & Hcons & Hord).
  assert (Hes : all_tasks (fun t => early_start t = None) s0).
  { unfold all_tasks in *. eapply Forall_impl; [|exact Hf]. now intros [k1 t1] (H & _). }
  induction 1 as [k t L Hp|p tp x Hr IH Lp Hin Hmx].
  - destruct (extends_successors_back s0 s' k t Hx L) as (t' & L' & _ & Hp').
    destruct (forward_pass_sources limit s0 s' Hes Hrun k t' L') as [H1 _]; [congruence|].
    now exists t', (planned_start t').
  - destruct IH as (tp' & ep & Lp' & Ep).
    assert (Hfin : finished x s').
    { apply (Ho' p tp' x Lp'); [|auto| |now rewrite (extends_mem s0 s' x Hx)].
      - rewrite (all_tasks_lookup _ _ _ _ Hcons Lp' ep Ep). discriminate.
      - destruct (extends_successors s0 s' p tp' Hx Lp') as (t0 & L0 & Hs & _).
        assert (t0 = tp) by congruence. subst t0. now rewrite Hs. }
    destruct Hfin as (tx & ef & Lx & Ef). exists tx.
    destruct (early_start tx) as [ex|] eqn:Ex; [now exists ex|].
    assert (Hn := all_tasks_lookup _ _ _ _ Hord Lx Ex). congruence.
Qed.

End Coverage.

(** X7. The forward pass gives an early start only to tasks that a walk
    along successor lists reaches from a task without predecessors; and
    when the pass has run to its end, every such task has one. *)
Theorem X7_forward_pass_schedules_the_reachable limit df k :
  ((exists t e, lookup k (fst (forward_pass limit (create_task_objects df))) = Some t /\
                early_start t = Some e) ->
   reachable (create_task_objects df) k) /\
  (snd (forward_pass limit (create_task_objects df)) = Ok tt ->
   reachable (create_task_objects df) k ->
   exists t e, lookup k (fst (forward_pass limit (create_task_objects df))) = Some t /\
               early_start t = Some e).
Proof.
  split.
  - intros (t & e & L & He).
    apply (forward_pass_scheduled_reachable limit (create_task_objects df)) with t e;
      [|apply create_fresh|assumption|assumption].
    intros p x tx. apply create_lists_successor.
  - intros Hok.
    destruct (forward_pass limit (create_task_objects df)) as [s' r] eqn:E.
    simpl in *. subst r.
    apply (forward_pass_reaches limit _ s'); [apply create_link_ok|apply create_fresh|exact E].
Qed.

Lemma X7_witness :
  snd (forward_pass 10 (create_task_objects chain_rows)) = Ok tt /\
  reachable (create_task_objects chain_rows) "C" /\
  exists t e, lookup "C" (fst (forward_pass 10 (create_task_objects chain_rows))) = Some t /\
              early_start t = Some e.
Proof.
  assert (H1 : snd (forward_pass 10 (create_task_objects chain_rows)) = Ok tt)
    by (vm_compute; reflexivity).
  assert (H2 : exists t e,
             lookup "C" (fst (forward_pass 10 (create_task_objects chain_rows))) = Some t /\
             early_start t = Some e).
  { eexists. eexists. split; vm_compute; reflexivity. }
  assert (H3 := proj1 (X7_forward_pass_schedules_the_reachable 10 chain_rows "C") H2).
  split; [exact H1|]. split; [exact H3|].
  exact (proj2 (X7_forward_pass_schedules_the_reachable 10 chain_rows "C") H1 H3).
Defined.

(** ** When the float calculation fails *)

Section Failure.

Lemma early_part_fields t t' :
  early_part t' = early_part t ->
  successors t' = successors t /\ predecessors t' = predecessors t /\
  early_start t' = early_start t /\ early_finish t' = early_finish t.
Proof.
  intros H.
  repeat split;
    [ apply (f_equal successors) in H | apply (f_equal predecessors) in H
    | apply (f_equal early_start) in H | apply (f_equal early_finish) in H ];
    exact H.
Qed.

Lemma early_part_unlate t t' : unlate t' = unlate t -> early_part t' = early_part t.
Proof.
  intros H. destruct t, t'. unfold early_part, unlate in *. simpl in *.
  injection H as -> -> -> -> -> -> -> -> -> -> -> ->. reflexivity.
Qed.

Lemma early_part_calc_floats t : early_part (calc_floats t) = early_part t.
Proof.
  unfold calc_floats. destruct (early_start t); [|reflexivity].
  destruct (late_start t); reflexivity.
Qed.

Lemma same_early_refl s : same_early s s.
Proof. intros j. reflexivity. Qed.

Lemma same_early_sym s s' : same_early s s' -> same_early s' s.
Proof. intros H j. now rewrite H. Qed.

Lemma same_early_trans s1 s2 s3 : same_early s1 s2 -> same_early s2 s3 -> same_early s1 s3.
Proof. intros H1 H2 j. now rewrite H2, H1. Qed.

Lemma same_early_update s k f :
  (forall t, early_part (f t) = early_part t) -> same_early s (update k f s).
Proof.
  intros Hf j. rewrite lookup_update. destruct (String.eqb k j); [|reflexivity].
  destruct (lookup j s); simpl; [|reflexivity]. now rewrite Hf.
Qed.

Lemma same_early_backward_pass limit s : same_early s (fst (backward_pass limit s)).
Proof.
  intros j. assert (H := backward_pass_frame limit s j).
  destruct (lookup j (fst (backward_pass limit s))) as [t'|], (lookup j s) as [t|];
    simpl in *; try discriminate; [|reflexivity].
  f_equal. apply early_part_unlate. congruence.
Qed.

Lemma same_early_lookup s s' j t :
  same_early s s' -> lookup j s = Some t ->
  exists t', lookup j s' = Some t' /\ early_part t' = early_part t.
Proof.
  intros H L. destruct (frame_lookup early_part s' s j t (eq_sym (H j)) L) as (t' & L' & Eq).
  exists t'. auto.
Qed.

Lemma same_early_mem s s' j : same_early s s' -> mem j s' = mem j s.
Proof. intros H. exact (mem_frame early_part s s' H j). Qed.

Lemma floats_fail_same k s s' : same_early s s' -> floats_fail k s -> floats_fail k s'.
Proof.
  intros H (t & L & Hs & Hc).
  destruct (same_early_lookup s s' k t H L) as (t' & L' & Eq).
  destruct (early_part_fields _ _ Eq) as (Hs' & _ & _ & Hef).
  exists t'. split; [assumption|]. split; [congruence|].
  destruct Hc as [Hc|(x & tx & Hin & Lx & Hes)]; [left; congruence|right].
  destruct (same_early_lookup s s' x tx H Lx) as (tx' & Lx' & Eqx).
  destruct (early_part_fields _ _ Eqx) as (_ & _ & Hes' & _).
  exists x, tx'. split; [congruence|]. split; [assumption|congruence].
Qed.

Lemma closed_same s s' : same_early s s' -> closed s -> closed s'.
Proof.
  intros H Hc k t' x L' Hin.
  destruct (same_early_lookup s' s k t' (same_early_sym _ _ H) L') as (t & L & Eq).
  destruct (early_part_fields _ _ Eq) as (Hs & _).
  rewrite (same_early_mem s s' x H). apply (Hc k t x L). congruence.
Qed.

Lemma free_float_terms_raise s ef succs e :
  free_float_terms s ef succs = Raise e ->
  e = TypeError /\
  (ef = None \/
   exists x tx, In x succs /\ lookup x s = Some tx /\ early_start tx = None).
Proof.
  induction succs as [|x succs IH]; simpl; [discriminate|].
  destruct (lookup x s) as [tx|] eqn:Lx.
  - destruct (early_start tx) as [es|] eqn:Es; simpl.
    + destruct ef as [f|]; simpl.
      * destruct (free_float_terms s (Some f) succs) as [l|e'] eqn:E; [discriminate|].
        intros [= <-]. destruct (IH eq_refl) as [H1 [H2|(y & ty & Hy & Ly & Hes)]].
        -- discriminate.
        -- split; [assumption|]. right. exists y, ty. auto.
      * intros [= <-]. auto.
    + intros [= <-]. split; [reflexivity|]. right. exists x, tx. auto.
  - intros H. destruct (IH H) as [H1 [H2|(y & ty & Hy & Ly & Hes)]]; [auto|].
    split; [assumption|]. right. exists y, ty. auto.
Qed.

Lemma free_float_terms_ok s ef succs l :
  free_float_terms s ef succs = Ok l ->
  (l = [] -> forall x, In x succs -> lookup x s = None) /\
  (forall x tx, In x succs -> lookup x s = Some tx ->
                ef <> None /\ early_start tx <> None).
Proof.
  revert l. induction succs as [|x succs IH]; simpl; intros l.
  { intros _. split; [intros _ x []|intros x tx []]. }
  destruct (lookup x s) as [tx|] eqn:Lx.
  - destruct (early_start tx) as [es|] eqn:Es; [|discriminate].
    destruct ef as [f|]; [|discriminate]. simpl.
    destruct (free_float_terms s (Some f) succs) as [l'|e'] eqn:E; [|discriminate].
    intros [= <-]. destruct (IH l' eq_refl) as [_ H2].
    split; [discriminate|].
    intros y ty [<-|Hy] Ly.
    + assert (ty = tx) by congruence. subst ty. split; congruence.
    + exact (H2 y ty Hy Ly).
  - intros H. destruct (IH l H) as [H1 H2]. split.
    + intros Hl y [<-|Hy]; [assumption|now apply H1].
    + intros y ty [<-|Hy] Ly; [congruence|exact (H2 y ty Hy Ly)].
Qed.

Lemma min_free_float_result s ef succs :
  succs <> [] -> (forall x, In x succs -> mem x s = true) ->
  match min_free_float s ef succs with
  | Ok _ => ef <> None /\
            forall x tx, In x succs -> lookup x s = Some tx -> early_start tx <> None
  | Raise e => e = TypeError /\
               (ef = None \/
                exists x tx, In x succs /\ lookup x s = Some tx /\ early_start tx = None)
  end.
Proof.
  intros Hne Hm. unfold min_free_float.
  destruct (free_float_terms s ef succs) as [l|e] eqn:E.
  - destruct (free_float_terms_ok s ef succs l E) as [H1 H2].
    destruct l as [|v l].
    + exfalso. destruct succs as [|x succs]; [now apply Hne|].
      assert (Hx := Hm x (or_introl eq_refl)). unfold mem in Hx.
      rewrite (H1 eq_refl x (or_introl eq_refl)) in Hx. discriminate.
    + destruct succs as [|x succs]; [now elim Hne|].
      assert (Hx := Hm x (or_introl eq_refl)). unfold mem in Hx.
      destruct (lookup x s) as [tx|] eqn:Lx; [|discriminate].
      split; [exact (proj1 (H2 x tx (or_introl eq_refl) Lx))|].
      intros y ty Hy Ly. exact (proj2 (H2 y ty Hy Ly)).
  - exact (free_float_terms_raise s ef succs e E).
Qed.

Lemma calc_loop_result G ks : forall cp s,
  closed G -> same_early G s -> (forall k, In k ks -> mem k G = true) ->
  match snd (calc_loop ks cp s) with
  | Ok _ => forall k, In k ks -> ~ floats_fail k G
  | Raise e => e = TypeError /\ exists k, In k ks /\ floats_fail k G
  end.
Proof.
  induction ks as [|k ks IH]; simpl; intros cp s Hc Hs Hk; [intros k []|].
  unfold bind. rewrite calc_task_eq.
  assert (Hmk : mem k s = true).
  { rewrite (same_early_mem G s k Hs). apply Hk. now left. }
  unfold mem in Hmk. destruct (lookup k s) as [task|] eqn:L; [|discriminate].
  cbv zeta.
  assert (Hs1 : same_early G (update k calc_floats s)).
  { apply (same_early_trans _ _ _ Hs). apply same_early_update.
    apply early_part_calc_floats. }
  assert (Hnext : forall g cp',
             match snd (calc_loop ks cp'
                          (update k (fun t => set_free_float (g t) t)
                             (update k calc_floats s))) with
             | Ok _ => forall k0, In k0 ks -> ~ floats_fail k0 G
             | Raise e => e = TypeError /\ exists k0, In k0 ks /\ floats_fail k0 G
             end).
  { intros g cp'. apply IH; [assumption| |intros j Hj; apply Hk; now right].
    apply (same_early_trans _ _ _ Hs1). apply same_early_update. reflexivity. }
  assert (Hlift : forall (r : result (list string)),
             match r with
             | Ok _ => forall k0, In k0 ks -> ~ floats_fail k0 G
             | Raise e => e = TypeError /\ exists k0, In k0 ks /\ floats_fail k0 G
             end ->
             ~ floats_fail k G ->
             match r with
             | Ok _ => forall k0, In k0 (k :: ks) -> ~ floats_fail k0 G
             | Raise e => e = TypeError /\ exists k0, In k0 (k :: ks) /\ floats_fail k0 G
             end).
  { intros [cp'|e] H Hnk.
    - intros k0 [<-|H0]; [assumption|now apply H].
    - destruct H as (He & k0 & H0 & Hf). split; [assumption|].
      exists k0. split; [now right|assumption]. }
  destruct (successors task) as [|x xs] eqn:Hsucc.
  - specialize (Hnext total_float (calc_cp task cp)).
    destruct (calc_loop ks _ _) as [s2 r]. simpl in *. apply Hlift; [assumption|].
    intros Hf. apply (floats_fail_same k G s Hs) in Hf.
    destruct Hf as (t & Lt & Hne & _). congruence.
  - set (s1 := update k calc_floats s) in *.
    assert (Hcl : closed s1) by exact (closed_same G s1 Hs1 Hc).
    assert (L1 : lookup k s1 = Some (calc_floats task)).
    { unfold s1. now rewrite lookup_update_same, L. }
    assert (Hsc : successors (calc_floats task) = x :: xs).
    { destruct (early_part_fields _ _ (early_part_calc_floats task)) as (H & _).
      congruence. }
    assert (Hef : early_finish (calc_floats task) = early_finish task).
    { now destruct (early_part_fields _ _ (early_part_calc_floats task)) as (_ & _ & _ & H). }
    assert (Hres := min_free_float_result s1 (early_finish task) (x :: xs)).
    destruct (min_free_float s1 (early_finish task) (x :: xs)) as [ff|e] eqn:Em.
    + specialize (Hnext (fun _ => Some ff) (calc_cp task cp)).
      destruct (calc_loop ks _ _) as [s2 r]. simpl in *. apply Hlift; [assumption|].
      destruct Hres as [H1 H2]; [discriminate| |].
      { intros y Hy. apply (Hcl k (calc_floats task) y L1). now rewrite Hsc. }
      intros Hf. apply (floats_fail_same k G s1 Hs1) in Hf.
      destruct Hf as (t & Lt & _ & [Hn|(y & ty & Hy & Ly & Hes)]).
      * assert (t = calc_floats task) by congruence. subst t. congruence.
      * assert (t = calc_floats task) by congruence. subst t.
        rewrite Hsc in Hy. exact (H2 y ty Hy Ly Hes).
    + simpl. destruct Hres as [H1 H2]; [discriminate| |].
      { intros y Hy. apply (Hcl k (calc_floats task) y L1). now rewrite Hsc. }
      split; [assumption|]. exists k. split; [now left|].
      apply (floats_fail_same k s1 G (same_early_sym _ _ Hs1)).
      exists (calc_floats task). split; [assumption|]. split; [now rewrite Hsc|].
      rewrite Hef, Hsc. exact H2.
Qed.

Lemma same_early_forward_scheduled limit df :
  same_early (fst (forward_pass limit (create_task_objects df))) (scheduled limit df).
Proof. unfold scheduled, swallow. simpl. apply same_early_backward_pass. Qed.

Lemma closed_scheduled limit df : closed (scheduled limit df).
Proof.
  assert (H : all_entries (fun _ => successors_within (create_task_objects df))
                (scheduled limit df)).
  { apply scheduled_all_entries.
    - intros k t es _ H. exact H.
    - intros k t v H. split; exact H.
    - exact (create_successors_within df). }
  intros k t x L Hin. apply mem_keys. rewrite keys_scheduled.
  exact (all_tasks_lookup _ _ _ _ H L x Hin).
Qed.

Lemma analysis_result limit df :
  match perform_critical_path_analysis limit df with
  | Ok _ => forall k, ~ floats_fail k (scheduled limit df)
  | Raise e => e = TypeError /\ exists k, floats_fail k (scheduled limit df)
  end.
Proof.
  unfold perform_critical_path_analysis. rewrite run_analysis_eq.
  unfold calculate_floats_and_critical_path, bind, get.
  assert (H := calc_loop_result (scheduled limit df) (keys (scheduled limit df)) []
                 (scheduled limit df) (closed_scheduled limit df)
                 (same_early_refl _)).
  destruct (calc_loop _ _ _) as [s [cp|e]]; simpl in *.
  - intros k Hf. assert (Hk : In k (keys (scheduled limit df))).
    { destruct Hf as (t & L & _). apply mem_keys. unfold mem. now rewrite L. }
    apply (H (fun j Hj => proj2 (mem_keys _ j) Hj) k Hk Hf).
  - destruct (H (fun j Hj => proj2 (mem_keys _ j) Hj)) as (He & k & _ & Hf).
    split; [assumption|]. now exists k.
Qed.

End Failure.

(** ** Tables in which every task has a successor *)

Section NoSink.

Lemma end_tasks_nil s :
  end_tasks s = [] <-> all_tasks (fun t => successors t <> []) s.
Proof.
  unfold end_tasks, all_tasks, keys. induction s as [|[k t] s IH]; simpl.
  - split; [constructor|reflexivity].
  - destruct (successors t) eqn:Hs; simpl.
    + split; [discriminate|]. intros H. inversion H as [|? ? Hn _]; subst.
      simpl in Hn. congruence.
    + rewrite IH. split.
      * intros H. constructor; [simpl; congruence|assumption].
      * intros H. now inversion H.
Qed.

Lemma max_scan_ok rest : forall best b,
  max_scan best rest = Ok b ->
  In b (best :: rest) /\
  ((rest = [] /\ b = best) \/ early_finish (snd b) <> None).
Proof.
  induction rest as [|item rest IH]; simpl; intros best b.
  - intros [= <-]. auto.
  - destruct (early_finish (snd item)) as [x|] eqn:Ei; [|discriminate].
    destruct (early_finish (snd best)) as [y|] eqn:Eb; [|discriminate]. simpl.
    destruct (y <? x); intros H; destruct (IH _ _ H) as [Hin Hc].
    + split; [simpl in *; tauto|]. right.
      destruct Hc as [[_ ->]|Hc]; congruence.
    + split; [simpl in *; tauto|]. right.
      destruct Hc as [[_ ->]|Hc]; congruence.
Qed.

Lemma latest_task_ok s k :
  NoDup (keys s) -> latest_task s = Ok k ->
  exists t, lookup k s = Some t /\
            (early_finish t = None -> all_tasks (fun t' => early_finish t' = None) s).
Proof.
  intros ND. unfold latest_task. destruct s as [|first rest]; [discriminate|].
  destruct (max_scan first rest) as [b|e] eqn:E; [|discriminate].
  intros [= <-]. destruct (max_scan_ok rest first b E) as [Hin Hc].
  exists (snd b). split.
  - apply In_lookup; [assumption|]. now destruct b.
  - intros Hn. destruct Hc as [[-> ->]|Hc]; [|contradiction].
    constructor; [assumption|constructor].
Qed.

Lemma backward_pass_no_sink limit s :
  NoDup (keys s) -> end_tasks s = [] -> all_tasks late_unset s ->
  all_tasks (fun t => late_start t = None) (fst (backward_pass limit s)).
Proof.
  intros ND Hend Hl.
  assert (Hls : all_tasks (fun t => late_start t = None) s).
  { unfold all_tasks in *. eapply Forall_impl; [|exact Hl]. now intros [k t] [H _]. }
  unfold backward_pass, bind at 1, get. rewrite Hend.
  destruct (latest_task s) as [k|e] eqn:E; [|exact Hls].
  destruct (latest_task_ok s k ND E) as (t & L & Hnone).
  unfold bind, get_task, assign, ret. rewrite L. simpl.
  set (s1 := update k (set_late_finish (early_finish t)) s).
  assert (Hgoal : all_tasks (fun t0 => late_start t0 = None)
                    (fst (BackwardPass.process_task limit k s1))).
  { destruct (early_finish t) as [v|] eqn:Ef.
    - assert (H1 : all_tasks (fun t0 => late_start t0 = None) s1).
      { apply all_tasks_update; [|assumption]. intros t0 _ H. exact H. }
      destruct limit as [|d]; [exact H1|].
      rewrite bwd_process_task_eq. unfold s1 at 1.
      rewrite lookup_update_same, L. simpl. exact H1.
    - assert (Hs1 : s1 = s).
      { apply update_id. intros t0 Ht0. assert (t0 = t) by congruence. subst t0.
        apply set_late_finish_same.
        exact (proj2 (all_tasks_lookup _ _ _ _ Hl L)). }
      rewrite Hs1.
      assert (Hu : all_tasks unscheduled s).
      { specialize (Hnone eq_refl). unfold all_tasks in *.
        rewrite Forall_forall in *. intros kt Hkt.
        destruct (Hl kt Hkt) as [H1 H2]. split; [exact (Hnone kt Hkt)|]. now split. }
      replace (fst (BackwardPass.process_task limit k s)) with s; [assumption|].
      symmetry. apply (bwd_process_task_inv (fun s' => s' = s)); [|reflexivity].
      intros j task s2 Lj _ ->. now apply bwd_visit_unscheduled. }
  unfold bind. destruct (BackwardPass.process_task limit k s1) as [s2 [[]|e]];
    exact Hgoal.
Qed.

Lemma crit_ids_nil s ks :
  all_tasks (fun t => is_critical t = false) s -> crit_ids s ks = [].
Proof.
  intros H. unfold crit_ids. induction ks as [|k ks IH]; simpl; [reflexivity|].
  rewrite IH. destruct (lookup k s) as [t|] eqn:L; [|reflexivity].
  now rewrite (all_tasks_lookup _ _ _ _ H L).
Qed.

Lemma scheduled_no_sink limit df :
  end_tasks (create_task_objects df) = [] ->
  all_tasks (fun t => late_start t = None /\ total_float t = None /\
                      is_critical t = false) (scheduled limit df).
Proof.
  intros Hend.
  assert (H1 : all_tasks (fun t => late_start t = None) (scheduled limit df)).
  { unfold scheduled, swallow. simpl. apply backward_pass_no_sink.
    - rewrite keys_forward_pass. apply create_NoDup.
    - apply end_tasks_nil.
      apply (forward_pass_all_entries (fun _ t => successors t <> [])).
      + intros k t es _ H. exact H.
      + now apply end_tasks_nil.
    - apply late_unset_forward_pass. }
  assert (H2 : all_tasks (fun t => total_float t = None /\ is_critical t = false)
                 (scheduled limit df)).
  { apply (scheduled_all_entries
             (fun _ t => total_float t = None /\ is_critical t = false)).
    - intros k t es _ H. exact H.
    - intros k t v H. split; exact H.
    - assert (H := create_fresh df). unfold all_tasks, all_entries in *.
      eapply Forall_impl; [|exact H].
      now intros [k t] (_ & _ & _ & _ & Htf & _ & Hic). }
  unfold all_tasks in *. rewrite Forall_forall in *.
  intros kt Hkt. split; [exact (H1 kt Hkt)|exact (H2 kt Hkt)].
Qed.

Lemma calc_floats_no_late_start t : late_start t = None -> calc_floats t = t.
Proof. intros H. unfold calc_floats. rewrite H. now destruct (early_start t). Qed.

End NoSink.

(** X10. When every task of the table has a successor, no task gets a
    late start: a result that [perform_critical_path_analysis] returns has
    an empty critical path, and no row has a late start, a total float or
    the critical flag. *)
Theorem X10_without_sink_nothing_is_critical limit df rows cp :
  end_tasks (create_task_objects df) = [] ->
  perform_critical_path_analysis limit df = Ok (rows, cp) ->
  cp = [] /\
  forall r, In r rows ->
            r_late_start r = None /\ r_total_float r = None /\ r_is_critical r = false.
Proof.
  intros Hend. unfold perform_critical_path_analysis. rewrite run_analysis_eq.
  assert (Hk := keys_calculate (scheduled limit df)).
  assert (HQ : all_tasks (fun t => late_start t = None /\ total_float t = None /\
                                   is_critical t = false)
                 (fst (calculate_floats_and_critical_path (scheduled limit df)))).
  { apply calculate_inv; [| |now apply scheduled_no_sink].
    - intros k s H. apply all_tasks_update; [|assumption].
      intros t _ Ht. now rewrite (calc_floats_no_late_start t (proj1 Ht)).
    - intros k g s H. apply all_tasks_update; [|assumption]. intros t _ Ht. exact Ht. }
  destruct (calculate_floats_and_critical_path (scheduled limit df))
    as [s' [cp'|e]] eqn:E0; [|discriminate].
  assert (E : calc_loop (keys (scheduled limit df)) [] (scheduled limit df)
              = (s', Ok cp')) by exact E0.
  simpl in *. intros [= <- <-]. split.
  - rewrite (calc_loop_cp _ _ _ _ _ E).
    + apply crit_ids_nil. unfold all_tasks in *. eapply Forall_impl; [|exact HQ].
      now intros [k t] (_ & _ & H).
    + rewrite keys_scheduled. apply create_NoDup.
    + intros k _ t L. exact (all_tasks_lookup _ _ _ _ (not_critical_scheduled limit df) L).
  - intros r Hr. apply in_map_iff in Hr. destruct Hr as (t & <- & Ht).
    unfold values in Ht. apply in_map_iff in Ht. destruct Ht as ([k t'] & <- & Hin).
    exact (all_tasks_In _ _ _ _ HQ Hin).
Qed.

Lemma X10_witness :
  let rows := map result_of_task (values (fst (run_analysis 10 closed_loop_rows))) in
  end_tasks (create_task_objects closed_loop_rows) = [] /\
  perform_critical_path_analysis 10 closed_loop_rows = Ok (rows, []) /\
  forall r, In r rows ->
            r_late_start r = None /\ r_total_float r = None /\ r_is_critical r = false.
Proof.
  intros rows.
  assert (H1 : end_tasks (create_task_objects closed_loop_rows) = [])
    by (vm_compute; reflexivity).
  assert (H2 : perform_critical_path_analysis 10 closed_loop_rows = Ok (rows, []))
    by (vm_compute; reflexivity).
  split; [exact H1|]. split; [exact H2|].
  exact (proj2 (X10_without_sink_nothing_is_critical 10 closed_loop_rows rows [] H1 H2)).
Defined.

(** ** The backward pass after a forward pass that left no gap *)

Section AfterForward.

Variable F : store.
Hypothesis F_finish : all_tasks successors_finish F.
Hypothesis F_mirrored : mirrored F.

Lemma same_early_bwd_visit k task s : same_early s (bwd_visit k task s).
Proof.
  intros j. assert (H := bwd_visit_frame k task s j).
  destruct (lookup j (bwd_visit k task s)) as [t'|], (lookup j s) as [t|];
    simpl in *; try discriminate; [|reflexivity].
  f_equal. apply early_part_unlate. congruence.
Qed.

(** A predecessor in the table has an early finish. *)
Lemma predecessor_finished s k task x :
  same_early F s -> lookup k s = Some task -> In x (predecessors task) ->
  mem x s = true ->
  exists tx e, lookup x s = Some tx /\ early_finish tx = Some e.
Proof.
  intros Hs L Hin Hm.
  destruct (same_early_lookup s F k task (same_early_sym _ _ Hs) L) as (tF & LF & Eq).
  destruct (early_part_fields _ _ Eq) as (_ & Hp & _).
  destruct (F_mirrored x k tF LF) as (tx & Lx & Hx).
  - now rewrite Hp.
  - now rewrite <- (same_early_mem F s x Hs).
  - assert (Hef : early_finish tx <> None).
    { apply (all_tasks_lookup _ _ _ _ F_finish Lx). intros E. now rewrite E in Hx. }
    destruct (same_early_lookup F s x tx Hs Lx) as (tx' & Lx' & Eqx).
    destruct (early_part_fields _ _ Eqx) as (_ & _ & _ & Hef').
    exists tx'. destruct (early_finish tx) as [e|] eqn:E; [|contradiction].
    exists e. split; [assumption|congruence].
Qed.

End AfterForward.

(** ** A returned result *)

Section Returned.

Lemma extends_forward_pass limit s : extends s (fst (forward_pass limit s)).
Proof.
  apply (forward_pass_inv (extends s)); [|apply extends_refl].
  intros j task s1 L _ H. apply (extends_trans _ _ _ H). now apply extends_fwd_visit.
Qed.

Lemma mirrored_forward_pass limit df :
  mirrored (fst (forward_pass limit (create_task_objects df))).
Proof.
  assert (Hx := extends_forward_pass limit (create_task_objects df)).
  intros p x tx Lx Hin Hm.
  destruct (extends_successors _ _ x tx Hx Lx) as (t0 & L0 & _ & Hp0).
  destruct (create_lists_successor df p x t0 L0) as (tp0 & Lp0 & Hs0).
  - now rewrite <- Hp0.
  - now rewrite <- (extends_mem _ _ p Hx).
  - destruct (extends_successors_back _ _ p tp0 Hx Lp0) as (tp & Lp & Hs & _).
    exists tp. split; [assumption|]. now rewrite Hs.
Qed.

Lemma returned_successors_finish limit df r :
  perform_critical_path_analysis limit df = Ok r ->
  all_tasks successors_finish (fst (forward_pass limit (create_task_objects df))).
Proof.
  intros Hr. assert (R := analysis_result limit df). rewrite Hr in R.
  assert (Hse := same_early_forward_scheduled limit df).
  assert (ND : NoDup (keys (fst (forward_pass limit (create_task_objects df))))).
  { rewrite keys_forward_pass. apply create_NoDup. }
  unfold all_tasks. rewrite Forall_forall. intros [k t] Hin Hs Hef. simpl in *.
  assert (L := In_lookup _ _ _ ND Hin).
  destruct (same_early_lookup _ _ k t Hse L) as (tG & LG & Eq).
  destruct (early_part_fields _ _ Eq) as (HsG & _ & _ & HefG).
  apply (R k). exists tG. split; [assumption|]. split; [congruence|].
  left. congruence.
Qed.

Lemma create_nonempty df : df <> [] -> create_task_objects df <> [].
Proof.
  intros Hne E. destruct df as [|r df]; [now apply Hne|].
  assert (H := create_mem (r :: df) (row_task_id r)).
  rewrite E in H. unfold defined_in in H. simpl in H.
  rewrite String.eqb_refl in H. discriminate.
Qed.

Lemma unfloat_fields t t' :
  unfloat t' = unfloat t ->
  successors t' = successors t /\ duration t' = duration t /\
  early_start t' = early_start t /\ early_finish t' = early_finish t /\
  late_start t' = late_start t /\ late_finish t' = late_finish t.
Proof.
  intros H.
  repeat split;
    [ apply (f_equal successors) in H | apply (f_equal duration) in H
    | apply (f_equal early_start) in H | apply (f_equal early_finish) in H
    | apply (f_equal late_start) in H | apply (f_equal late_finish) in H ];
    exact H.
Qed.

Lemma unfloat_calc_floats t : unfloat (calc_floats t) = unfloat t.
Proof.
  unfold calc_floats. destruct (early_start t); [|reflexivity].
  destruct (late_start t); reflexivity.
Qed.

Lemma calculate_frame s j :
  option_map unfloat (lookup j (fst (calculate_floats_and_critical_path s)))
  = option_map unfloat (lookup j s).
Proof.
  apply (calculate_inv
           (fun s' => option_map unfloat (lookup j s') = option_map unfloat (lookup j s)));
    [| |reflexivity].
  - intros k s1 H. rewrite lookup_update. destruct (String.eqb k j); [|assumption].
    rewrite <- H. destruct (lookup j s1); simpl; [|reflexivity].
    now rewrite unfloat_calc_floats.
  - intros k g s1 H. rewrite lookup_update. destruct (String.eqb k j); [|assumption].
    rewrite <- H. now destruct (lookup j s1).
Qed.

Lemma calc_loop_end_task_free_float ks : forall cp s s' cp',
  calc_loop ks cp s = (s', Ok cp') -> NoDup ks ->
  forall k, In k ks -> forall t, lookup k s' = Some t -> successors t = [] ->
            free_float t = total_float t.
Proof.
  induction ks as [|k0 ks IH]; simpl; intros cp s s' cp' H ND k Hk t Ht Hs; [easy|].
  unfold bind in H. destruct (calc_task k0 cp s) as [s1 [cp1|e]] eqn:E1; [|discriminate].
  inversion ND as [|? ? Hnin ND']; subst.
  destruct Hk as [->|Hk]; [|exact (IH _ _ _ _ H ND' k Hk t Ht Hs)].
  assert (L1 : lookup k s1 = Some t).
  { rewrite <- Ht. replace s' with (fst (calc_loop ks cp1 s1)) by now rewrite H.
    symmetry. now apply calc_loop_other. }
  rewrite calc_task_eq in E1.
  destruct (lookup k s) as [task|] eqn:L; [|discriminate]. cbv zeta in E1.
  destruct (calc_floats_dates task) as (_ & _ & _ & _ & _ & _ & Hsc & _).
  destruct (successors task) as [|x xs] eqn:Hst.
  - injection E1 as <- _. rewrite !lookup_update_same, L in L1. simpl in L1.
    injection L1 as <-. reflexivity.
  - destruct (min_free_float _ _ _) as [ff|e]; [|discriminate].
    injection E1 as <- _. rewrite !lookup_update_same, L in L1. simpl in L1.
    injection L1 as <-. simpl in Hs. congruence.
Qed.

End Returned.

(** X18. Every id in a successor list is a key of the table: when the
    table is built, after the two passes, and when
    [perform_critical_path_analysis] is left.  The lookups
    [tasks[succ_id]] of the float calculation find their task. *)
Theorem X18_successor_lists_name_tasks_of_the_table limit df :
  closed (create_task_objects df) /\
  closed (scheduled limit df) /\
  closed (fst (run_analysis limit df)).
Proof.
  assert (Hs := closed_scheduled limit df).
  split; [|split; [exact Hs|]].
  - intros k t x L Hin. apply mem_keys.
    exact (all_tasks_lookup _ _ _ _ (create_successors_within df) L x Hin).
  - rewrite run_analysis_eq.
    assert (Hfr := calculate_frame (scheduled limit df)).
    assert (Hk := keys_calculate (scheduled limit df)).
    destruct (calculate_floats_and_critical_path (scheduled limit df)) as [s' [cp|e]];
      simpl in *; intros k t x L Hin;
      destruct (frame_lookup _ _ _ _ _ (Hfr k) L) as (tG & LG & Eq);
      destruct (unfloat_fields _ _ Eq) as (Hsu & _);
      apply mem_keys; rewrite Hk; apply mem_keys;
      apply (Hs k tG x LG); congruence.
Qed.

(** X9. When [perform_critical_path_analysis] returns a result, every
    task that has a successor is reachable from a task without
    predecessors along successor lists.  When it raises a [TypeError]
    after a forward pass that has run to its end, some task that has a
    successor is not. *)
Theorem X9_returned_run_reached_every_task_with_a_successor limit df :
  (forall r k t,
      perform_critical_path_analysis limit df = Ok r ->
      lookup k (create_task_objects df) = Some t -> successors t <> [] ->
      reachable (create_task_objects df) k) /\
  (snd (forward_pass limit (create_task_objects df)) = Ok tt ->
   perform_critical_path_analysis limit df = Raise TypeError ->
   exists k t, lookup k (create_task_objects df) = Some t /\ successors t <> [] /\
               ~ reachable (create_task_objects df) k).
Proof.
  assert (Hse := same_early_forward_scheduled limit df).
  assert (Hsr := forward_pass_scheduled_reachable limit (create_task_objects df)
                   (fun p x tx => create_lists_successor df p x tx) (create_fresh df)).
  assert (R := analysis_result limit df).
  assert (Hx := extends_forward_pass limit (create_task_objects df)).
  destruct (early_start_source_forward_pass limit _ (create_fresh df)) as [Hord _].
  split.
  - intros r k t Hr L Hs. rewrite Hr in R.
    destruct (extends_successors_back _ _ k t Hx L) as (tF & LF & HsF & _).
    destruct (same_early_lookup _ _ k tF Hse LF) as (tG & LG & Eq).
    destruct (early_part_fields _ _ Eq) as (HsG & _ & HesG & HefG).
    destruct (early_start tF) as [e|] eqn:Es; [exact (Hsr k tF e LF Es)|].
    exfalso. apply (R k). exists tG. split; [assumption|]. split; [congruence|].
    left. rewrite HefG. exact (all_tasks_lookup _ _ _ _ Hord LF Es).
  - intros Hok Hr. rewrite Hr in R. destruct R as (_ & k & Hf).
    apply (floats_fail_same k _ _ (same_early_sym _ _ Hse)) in Hf.
    destruct (forward_pass limit (create_task_objects df)) as [F r0] eqn:E.
    simpl in *. subst r0.
    destruct (forward_pass_facts limit _ F (create_link_ok df) (create_fresh df) E)
      as (Ho & _ & Hcons & _).
    destruct Hf as (tF & LF & HsF & Hc).
    destruct (extends_successors _ F k tF Hx LF) as (t0 & L0 & Hs0 & _).
    exists k, t0. split; [assumption|]. split; [congruence|]. intros Hr0.
    destruct (forward_pass_reaches limit _ F (create_link_ok df) (create_fresh df) E k Hr0)
      as (t1 & e1 & L1 & E1).
    assert (t1 = tF) by congruence. subst t1.
    assert (Hef := all_tasks_lookup _ _ _ _ Hcons LF e1 E1).
    destruct Hc as [Hn|(x & tx & Hin & Lx & Hes)]; [congruence|].
    assert (Hfx : finished x F).
    { apply (Ho k tF x LF); [congruence|auto|assumption|unfold mem; now rewrite Lx]. }
    destruct Hfx as (tx' & ef & Lx' & Ef). assert (tx' = tx) by congruence. subst tx'.
    assert (Hn := all_tasks_lookup _ _ _ _ Hord Lx Hes). congruence.
Qed.

Lemma X9_witness :
  snd (forward_pass 10 (create_task_objects cycle_beside_source_rows)) = Ok tt /\
  perform_critical_path_analysis 10 cycle_beside_source_rows = Raise TypeError /\
  exists k t, lookup k (create_task_objects cycle_beside_source_rows) = Some t /\
              successors t <> [] /\
              ~ reachable (create_task_objects cycle_beside_source_rows) k.
Proof.
  assert (H1 : snd (forward_pass 10 (create_task_objects cycle_beside_source_rows)) = Ok tt)
    by (vm_compute; reflexivity).
  assert (H2 : perform_critical_path_analysis 10 cycle_beside_source_rows = Raise TypeError)
    by (vm_compute; reflexivity).
  split; [exact H1|]. split; [exact H2|].
  exact (proj2 (X9_returned_run_reached_every_task_with_a_successor
                  10 cycle_beside_source_rows) H1 H2).
Defined.

(** ** Cycles that no source leads into *)

Section Unreached.

Lemma unreachable_unscheduled limit df k t :
  ~ reachable (create_task_objects df) k ->
  lookup k (scheduled limit df) = Some t ->
  early_start t = None /\ early_finish t = None.
Proof.
  intros Hn L.
  assert (Hse := same_early_forward_scheduled limit df).
  assert (Hsr := forward_pass_scheduled_reachable limit (create_task_objects df)
                   (fun p x tx => create_lists_successor df p x tx) (create_fresh df)).
  destruct (early_start_source_forward_pass limit _ (create_fresh df)) as [Hord _].
  destruct (same_early_lookup _ _ k t (same_early_sym _ _ Hse) L) as (tF & LF & Eq).
  destruct (early_part_fields _ _ Eq) as (_ & _ & Hes & Hef).
  assert (E : early_start tF = None).
  { destruct (early_start tF) as [e|] eqn:Es; [|reflexivity].
    elim Hn. exact (Hsr k tF e LF Es). }
  split; [congruence|]. rewrite <- Hef. exact (all_tasks_lookup _ _ _ _ Hord LF E).
Qed.

Lemma unreachable_predecessor df k p :
  depends_on (create_task_objects df) k p ->
  ~ reachable (create_task_objects df) k ->
  ~ reachable (create_task_objects df) p /\
  lists_successor p k (create_task_objects df).
Proof.
  intros (t & L & Hin & Hm) Hn.
  destruct (create_lists_successor df p k t L Hin Hm) as (tp & Lp & Hs).
  split; [|now exists tp].
  intros Hr. apply Hn. apply (reach_step _ p tp k Hr Lp Hs).
  unfold mem. now rewrite L.
Qed.

Lemma no_source_unreachable s k : no_source s -> ~ reachable s k.
Proof.
  intros Hn Hr. induction Hr as [k t L Hp|p tp x _ IH _ _ _]; [|exact IH].
  exact (all_tasks_lookup _ _ _ _ Hn L Hp).
Qed.

Lemma cycle_beside_source_reachable k :
  reachable (create_task_objects cycle_beside_source_rows) k -> k = "X".
Proof.
  induction 1 as [k t L Hp|p tp x _ IH L Hin _].
  - apply lookup_In in L. vm_compute in L.
    destruct L as [E|[E|[E|[E|[]]]]]; injection E as <- <-;
      [reflexivity|discriminate|discriminate|discriminate].
  - subst p. vm_compute in L. injection L as <-. destruct Hin.
Qed.

End Unreached.

(** C2, as the code has it.  The engine has no cycle detection and no
    error that names the tasks of a cycle.  A task on a cycle that no walk
    from a task without predecessors enters is never scheduled: it keeps
    no early start and no early finish, and the run ends in an exception
    of the float calculation, so the caller gets no results.  When no task
    at all has an empty predecessor list, the two passes leave the table
    as it was built and that exception is a [TypeError]. *)
Theorem C2_cycle_not_entered_from_a_source_raises limit df k :
  clos_trans string (depends_on (create_task_objects df)) k k ->
  ~ reachable (create_task_objects df) k ->
  (forall t, lookup k (scheduled limit df) = Some t ->
             early_start t = None /\ early_finish t = None) /\
  (exists e, perform_critical_path_analysis limit df = Raise e) /\
  (no_source (create_task_objects df) ->
   scheduled limit df = create_task_objects df /\
   perform_critical_path_analysis limit df = Raise TypeError).
Proof.
  intros Hc Hn.
  destruct (clos_trans_first_step _ _ _ Hc) as (p & Hd).
  split; [intros t; now apply unreachable_unscheduled|]. split.
  - destruct (unreachable_predecessor df k p Hd Hn) as (Hnp & tp & Lp & Hs).
    assert (Hx := extends_forward_pass limit (create_task_objects df)).
    assert (Hse := same_early_forward_scheduled limit df).
    destruct (extends_successors_back _ _ p tp Hx Lp) as (tF & LF & HsF & _).
    destruct (same_early_lookup _ _ p tF Hse LF) as (tG & LG & Eq).
    destruct (early_part_fields _ _ Eq) as (HsG & _).
    assert (Hf : floats_fail p (scheduled limit df)).
    { exists tG. split; [assumption|]. split.
      - rewrite HsG, HsF. intros E. now rewrite E in Hs.
      - left. exact (proj2 (unreachable_unscheduled limit df p tG Hnp LG)). }
    assert (R := analysis_result limit df).
    destruct (perform_critical_path_analysis limit df) as [r|e]; [|now exists e].
    elim (R p Hf).
  - intros Hns.
    assert (Hs : scheduled limit df = create_task_objects df).
    { unfold scheduled, swallow. simpl. rewrite (forward_pass_no_source _ _ Hns). simpl.
      apply backward_pass_unscheduled, fresh_unscheduled, create_fresh. }
    split; [exact Hs|].
    unfold perform_critical_path_analysis. rewrite run_analysis_eq, Hs.
    destruct (depends_on_has_successor df k p Hd) as (tp & Lp & Hsp).
    change (calculate_floats_and_critical_path (create_task_objects df))
      with (calc_loop (keys (create_task_objects df)) [] (create_task_objects df)).
    rewrite (calc_loop_unscheduled _ (create_fresh df) (create_successors_within df)).
    + reflexivity.
    + auto.
    + exists p, tp. repeat split; try assumption.
      apply mem_keys. unfold mem. now rewrite Lp.
Qed.

Lemma C2_witness :
  (clos_trans string (depends_on (create_task_objects cycle_beside_source_rows)) "A" "A" /\
   ~ reachable (create_task_objects cycle_beside_source_rows) "A" /\
   option_map early_start (lookup "X" (scheduled 1000 cycle_beside_source_rows))
   = Some (Some (whole_days 0)) /\
   (forall t, lookup "A" (scheduled 1000 cycle_beside_source_rows) = Some t ->
              early_start t = None /\ early_finish t = None) /\
   exists e, perform_critical_path_analysis 1000 cycle_beside_source_rows = Raise e) /\
  (clos_trans string (depends_on (create_task_objects cycle_rows)) "A" "A" /\
   no_source (create_task_objects cycle_rows) /\
   scheduled 1000 cycle_rows = create_task_objects cycle_rows /\
   perform_critical_path_analysis 1000 cycle_rows = Raise TypeError).
Proof.
  assert (Hd : forall df k p,
             (exists t, lookup k (create_task_objects df) = Some t /\
                        predecessors t = [p]) ->
             mem p (create_task_objects df) = true ->
             depends_on (create_task_objects df) k p).
  { intros df k p (t & L & Hp) Hm. exists t. rewrite Hp. simpl. auto. }
  assert (Hc : clos_trans string
                 (depends_on (create_task_objects cycle_beside_source_rows)) "A" "A").
  { apply t_trans with "C"; [|apply t_trans with "B"];
      apply t_step; apply Hd; try reflexivity;
      vm_compute; eexists; split; reflexivity. }
  assert (Hn : ~ reachable (create_task_objects cycle_beside_source_rows) "A").
  { intros Hr. apply cycle_beside_source_reachable in Hr. discriminate. }
  assert (Hx : option_map early_start (lookup "X" (scheduled 1000 cycle_beside_source_rows))
               = Some (Some (whole_days 0))) by (vm_compute; reflexivity).
  assert (Hc' : clos_trans string (depends_on (create_task_objects cycle_rows)) "A" "A").
  { apply t_trans with "C"; [|apply t_trans with "B"];
      apply t_step; apply Hd; try reflexivity;
      vm_compute; eexists; split; reflexivity. }
  assert (Hs : no_source (create_task_objects cycle_rows)).
  { unfold no_source, all_tasks. vm_compute.
    repeat (apply Forall_cons; [discriminate|]). apply Forall_nil. }
  split.
  - split; [exact Hc|]. split; [exact Hn|]. split; [exact Hx|].
    destruct (C2_cycle_not_entered_from_a_source_raises
                1000 cycle_beside_source_rows "A" Hc Hn) as (H1 & H2 & _).
    split; [exact H1|exact H2].
  - split; [exact Hc'|]. split; [exact Hs|].
    exact (proj2 (proj2 (C2_cycle_not_entered_from_a_source_raises
                           1000 cycle_rows "A" Hc' (no_source_unreachable _ "A" Hs))) Hs).
Defined.

(** C2 as stated fails when the cycle can be entered from a task
    without predecessors: with S before the cycle A -> B -> A and E after
    it, the run raises nothing and returns a full table and a critical
    path. *)
Lemma C2_counterexample_cycle_not_detected :
  cyclic (create_task_objects entered_cycle_rows) /\
  perform_critical_path_analysis 1000 entered_cycle_rows =
  Ok ([ day_row "S" 0 1 0 1 0 0 true; day_row "A" 1 2 1 2 0 0 true;
        day_row "B" 2 3 2 3 0 (-2) true; day_row "E" 3 4 3 4 0 0 true ],
      ["S"; "A"; "B"; "E"]).
Proof.
  split; [|vm_compute; reflexivity].
  exists "A". apply t_trans with "B"; apply t_step.
  - vm_compute. eexists. split; [reflexivity|]. split; [|reflexivity].
    simpl. right. left. reflexivity.
  - vm_compute. eexists. split; [reflexivity|]. split; [|reflexivity].
    simpl. left. reflexivity.
Qed.

(** ** Tasks without successors *)

Section SinkDates.

Lemma sink_seeded_scheduled limit df : all_tasks sink_seeded (scheduled limit df).
Proof.
  unfold scheduled, swallow. simpl.
  apply (backward_pass_inv (all_tasks late_unset) (all_tasks sink_seeded)).
  - intros s H. unfold all_tasks in *. eapply Forall_impl; [|exact H].
    intros [k t] [_ Hlf] _. now left.
  - intros k task s L _. now apply sink_seeded_bwd_visit.
  - intros k task s L H. apply all_tasks_update.
    + intros t Ht _ _. assert (t = task) by congruence. subst t. now right.
    + unfold all_tasks in *. eapply Forall_impl; [|exact H].
      intros [k1 t1] [_ Hlf] _. now left.
  - apply late_unset_forward_pass.
Qed.

Lemma early_ordered_scheduled limit df : all_tasks early_ordered (scheduled limit df).
Proof.
  apply (scheduled_all_entries (fun _ => early_ordered)).
  - intros k t es _ _. simpl. discriminate.
  - intros k t v H. split; exact H.
  - assert (H := create_fresh df). unfold all_tasks, all_entries in *.
    eapply Forall_impl; [|exact H]. now intros [k t] (_ & Hef & _) _.
Qed.

End SinkDates.



(** ** Splitting a joined predecessor string *)

Section Split.

Lemma append_empty_r s : (s ++ "")%string = s.
Proof. induction s as [|c s IH]; simpl; [reflexivity|now rewrite IH]. Qed.

Lemma append_assoc s1 s2 s3 : ((s1 ++ s2) ++ s3)%string = (s1 ++ (s2 ++ s3))%string.
Proof. induction s1 as [|c s1 IH]; simpl; [reflexivity|now rewrite IH]. Qed.

Lemma prefix_comma_other c s :
  Ascii.eqb c ","%char = false -> String.prefix ", " (String c s) = false.
Proof.
  intros H.
  change (String.prefix ", " (String c s))
    with (if Ascii.ascii_dec ","%char c then String.prefix " " s else false).
  destruct (Ascii.ascii_dec ","%char c) as [E|E]; [|reflexivity].
  subst c. discriminate.
Qed.

Lemma prefix_comma_space r :
  String.prefix ", " (String ","%char (String " "%char r)) = true.
Proof. destruct r; reflexivity. Qed.

Lemma split_go_last id : forall cur,
  has_comma id = false -> split_go ", " 0 cur id = [(cur ++ id)%string].
Proof.
  induction id as [|c id IH]; intros cur H.
  - simpl. now rewrite append_empty_r.
  - simpl in H. apply orb_false_iff in H. destruct H as [Hc Hid].
    cbn [split_go]. rewrite (prefix_comma_other c id Hc), (IH _ Hid), append_assoc.
    reflexivity.
Qed.

Lemma split_go_next id r : forall cur,
  has_comma id = false ->
  split_go ", " 0 cur (id ++ ", " ++ r)%string
  = (cur ++ id)%string :: split_go ", " 0 "" r.
Proof.
  induction id as [|c id IH]; intros cur H.
  - change ("" ++ ", " ++ r)%string with (String ","%char (String " "%char r)).
    cbn [split_go]. rewrite prefix_comma_space, append_empty_r. reflexivity.
  - simpl in H. apply orb_false_iff in H. destruct H as [Hc Hid].
    change (String c id ++ ", " ++ r)%string with (String c (id ++ ", " ++ r))%string.
    cbn [split_go]. rewrite (prefix_comma_other c _ Hc), (IH _ Hid), append_assoc.
    reflexivity.
Qed.

Lemma split_join ids :
  ids <> [] -> Forall (fun id => has_comma id = false) ids ->
  split ", " (join ", " ids) = ids.
Proof.
  unfold split, join. induction ids as [|id ids IH]; intros Hne H; [now elim Hne|].
  inversion H as [|? ? Hid Hids]; subst.
  destruct ids as [|id2 ids].
  - simpl. now rewrite (split_go_last id "" Hid).
  - change (String.concat ", " (id :: id2 :: ids))
      with (id ++ ", " ++ String.concat ", " (id2 :: ids))%string.
    rewrite (split_go_next id _ "" Hid), IH; [reflexivity|discriminate|assumption].
Qed.

End Split.

(** X13. The predecessor string that the merge step joins with [", "]
    is split back into the same ids: for a non-empty list of ids without
    a comma, the record carrying their join gets exactly these
    predecessors, in the same order. *)
Theorem X13_split_undoes_join r ids :
  ids <> [] -> Forall (fun id => has_comma id = false) ids ->
  pred_task_id r = Some (join ", " ids) ->
  row_predecessors r = ids /\ predecessors (task_of_row r) = ids.
Proof.
  intros Hne H Hp. unfold task_of_row, row_predecessors. rewrite Hp. simpl.
  now rewrite (split_join ids Hne H).
Qed.

Lemma X13_witness :
  pred_task_id (row "C" 0 1 (Some "A, B")) = Some (join ", " ["A"; "B"]) /\
  row_predecessors (row "C" 0 1 (Some "A, B")) = ["A"; "B"] /\
  predecessors (task_of_row (row "C" 0 1 (Some "A, B"))) = ["A"; "B"].
Proof.
  assert (H1 : ["A"; "B"] <> []) by discriminate.
  assert (H2 : Forall (fun id => has_comma id = false) ["A"; "B"]).
  { repeat (apply Forall_cons; [reflexivity|]). apply Forall_nil. }
  assert (H3 : pred_task_id (row "C" 0 1 (Some "A, B")) = Some (join ", " ["A"; "B"]))
    by reflexivity.
  split; [exact H3|].
  exact (X13_split_undoes_join (row "C" 0 1 (Some "A, B")) ["A"; "B"] H1 H2 H3).
Defined.

(** ** The highlighted rows *)

Section Highlight.

Lemma highlight_from_ge flags : forall n i,
  In i (highlight_from n flags) -> (n <= i)%nat.
Proof.
  induction flags as [|b flags IH]; simpl; intros n i H; [easy|].
  destruct b.
  - destruct H as [<-|H]; [lia|]. specialize (IH _ _ H). lia.
  - specialize (IH _ _ H). lia.
Qed.

Lemma highlight_from_filter {A : Type} (f : A -> bool) (l : list A) : forall n,
  map (fun i => nth_error l (i - n)) (highlight_from n (map f l))
  = map Some (filter f l).
Proof.
  induction l as [|x l IH]; intros n; simpl; [reflexivity|].
  assert (E : map (fun i => nth_error (x :: l) (i - n)) (highlight_from (S n) (map f l))
              = map Some (filter f l)).
  { rewrite <- (IH (S n)). apply map_ext_in. intros i Hi.
    apply highlight_from_ge in Hi.
    replace (i - n)%nat with (S (i - S n)) by lia. reflexivity. }
  destruct (f x); simpl; [|exact E].
  rewrite E. replace (n - n)%nat with 0%nat by lia. reflexivity.
Qed.

Lemma calculate_critical_path limit df s cp :
  calculate_floats_and_critical_path (scheduled limit df) = (s, Ok cp) ->
  cp = map task_id (filter is_critical (values s)).
Proof.
  intros E0.
  assert (Hk := keys_calculate (scheduled limit df)). rewrite E0 in Hk. simpl in Hk.
  assert (E : calc_loop (keys (scheduled limit df)) [] (scheduled limit df)
              = (s, Ok cp)) by exact E0.
  assert (ND : NoDup (keys (scheduled limit df))).
  { rewrite keys_scheduled. apply create_NoDup. }
  rewrite <- crit_ids_values by now rewrite Hk.
  rewrite Hk. apply (calc_loop_cp _ _ _ _ _ E ND).
  intros k _ t L. exact (all_tasks_lookup _ _ _ _ (not_critical_scheduled limit df) L).
Qed.

End Highlight.

(** X14. When the analysis of at least one record returns, the loop of
    the report that highlights the critical rows passes to [set_row], in
    order, exactly the 1-based positions of the rows of the returned
    critical path: the record at position [i - 1] of the results carries
    the id that the critical path lists at that place. *)
Theorem X14_highlighted_rows_are_the_critical_path limit df rows cp :
  df <> [] ->
  perform_critical_path_analysis limit df = Ok (rows, cp) ->
  exists hl, highlighted_rows rows = Ok hl /\
             map (fun i => option_map r_task_id (nth_error rows (i - 1))) hl
             = map Some cp.
Proof.
  intros Hne. unfold perform_critical_path_analysis. rewrite run_analysis_eq.
  assert (Hk := keys_calculate (scheduled limit df)).
  destruct (calculate_floats_and_critical_path (scheduled limit df))
    as [s [cp'|e]] eqn:E0; [|discriminate].
  simpl in *. intros [= <- <-].
  rewrite (calculate_critical_path limit df s cp' E0), <- filter_result_rows.
  set (rows := map result_of_task (values s)).
  assert (Hrows : rows <> []).
  { unfold rows, values. intros E. apply (create_nonempty df Hne).
    apply map_eq_nil in E. apply map_eq_nil in E. subst s.
    rewrite keys_scheduled in Hk. simpl in Hk.
    destruct (create_task_objects df); [reflexivity|discriminate]. }
  exists (highlight_from 1 (map r_is_critical rows)). split.
  - unfold highlighted_rows. destruct rows; [now elim Hrows|reflexivity].
  - rewrite <- (map_map (fun i => nth_error rows (i - 1)) (option_map r_task_id)).
    rewrite (highlight_from_filter r_is_critical rows 1), !map_map. reflexivity.
Qed.

Lemma X14_witness :
  let rows := map result_of_task (values (fst (run_analysis 10 two_sink_rows))) in
  perform_critical_path_analysis 10 two_sink_rows = Ok (rows, ["X"; "B"; "C"; "D"]) /\
  highlighted_rows rows = Ok [1; 3; 4; 5]%nat /\
  exists hl, highlighted_rows rows = Ok hl /\
             map (fun i => option_map r_task_id (nth_error rows (i - 1))) hl
             = map Some ["X"; "B"; "C"; "D"].
Proof.
  intros rows.
  assert (H1 : two_sink_rows <> []) by discriminate.
  assert (H2 : perform_critical_path_analysis 10 two_sink_rows
               = Ok (rows, ["X"; "B"; "C"; "D"])) by (vm_compute; reflexivity).
  split; [exact H2|]. split; [vm_compute; reflexivity|].
  exact (X14_highlighted_rows_are_the_critical_path 10 two_sink_rows rows _ H1 H2).
Defined.

(** ** Free float *)

Section FreeFloat.

Lemma min_list_le xs : forall x v, In v (x :: xs) -> min_list x xs <= v.
Proof.
  unfold min_list. induction xs as [|y ys IH]; simpl; intros x v H.
  - destruct H as [E|[]]. lia.
  - assert (H1 := IH (Z.min x y) (Z.min x y) (or_introl eq_refl)).
    destruct H as [E|[E|H]]; [lia|lia|].
    apply IH. now right.
Qed.

Lemma free_float_terms_gaps s ef succs l :
  free_float_terms s (Some ef) succs = Ok l ->
  (forall v, In v l ->
     exists x tx es, In x succs /\ lookup x s = Some tx /\
                     early_start tx = Some es /\ v = days (es - ef)) /\
  (forall x tx, In x succs -> lookup x s = Some tx ->
     exists es, early_start tx = Some es /\ In (days (es - ef)) l).
Proof.
  revert l. induction succs as [|x succs IH]; simpl; intros l.
  { intros [= <-]. split; [intros v []|intros x tx []]. }
  destruct (lookup x s) as [tx|] eqn:Lx.
  - destruct (early_start tx) as [es|] eqn:Es; [|discriminate]. simpl.
    destruct (free_float_terms s (Some ef) succs) as [l'|e'] eqn:E; [|discriminate].
    intros [= <-]. destruct (IH l' eq_refl) as [H1 H2]. split.
    + intros v [<-|Hv].
      * exists x, tx, es. auto.
      * destruct (H1 v Hv) as (y & ty & ey & Hy & Ly & Ey & Hvy).
        exists y, ty, ey. auto.
    + intros y ty [<-|Hy] Ly.
      * assert (ty = tx) by congruence. subst ty. exists es. split; [assumption|now left].
      * destruct (H2 y ty Hy Ly) as (ey & Ey & Hin). exists ey. split; [assumption|now right].
  - intros H. destruct (IH l H) as [H1 H2]. split.
    + intros v Hv. destruct (H1 v Hv) as (y & ty & ey & Hy & Ly & Ey & Hvy).
      exists y, ty, ey. auto.
    + intros y ty [<-|Hy] Ly; [congruence|exact (H2 y ty Hy Ly)].
Qed.

Lemma free_float_terms_absent s ef succs l :
  free_float_terms s ef succs = Ok l ->
  (forall x, In x succs -> lookup x s = None) -> l = [].
Proof.
  induction succs as [|x succs IH]; simpl; intros H Hx; [congruence|].
  rewrite (Hx x (or_introl eq_refl)) in H. apply IH; [assumption|].
  intros y Hy. apply Hx. now right.
Qed.

Lemma free_float_terms_frame s s' ef succs :
  (forall j, option_map unfloat (lookup j s') = option_map unfloat (lookup j s)) ->
  free_float_terms s' ef succs = free_float_terms s ef succs.
Proof.
  intros H. induction succs as [|x succs IH]; simpl; [reflexivity|].
  rewrite IH. specialize (H x).
  destruct (lookup x s') as [t'|], (lookup x s) as [t|]; simpl in H;
    try discriminate; [|reflexivity].
  assert (E : unfloat t' = unfloat t) by congruence.
  destruct (unfloat_fields _ _ E) as (_ & _ & Hes & _). now rewrite Hes.
Qed.

Lemma calc_loop_frame ks cp s j :
  option_map unfloat (lookup j (fst (calc_loop ks cp s)))
  = option_map unfloat (lookup j s).
Proof.
  apply (calc_loop_inv
           (fun s' => option_map unfloat (lookup j s') = option_map unfloat (lookup j s)));
    [| |reflexivity].
  - intros k s1 H. rewrite lookup_update. destruct (String.eqb k j); [|assumption].
    rewrite <- H. destruct (lookup j s1); simpl; [|reflexivity].
    now rewrite unfloat_calc_floats.
  - intros k g s1 H. rewrite lookup_update. destruct (String.eqb k j); [|assumption].
    rewrite <- H. now destruct (lookup j s1).
Qed.

Lemma calc_loop_free_float ks : forall cp s s' cp',
  calc_loop ks cp s = (s', Ok cp') -> NoDup ks ->
  forall k, In k ks -> forall t, lookup k s' = Some t -> successors t <> [] ->
  exists ff, min_free_float s' (early_finish t) (successors t) = Ok ff /\
             free_float t = Some ff.
Proof.
  induction ks as [|k0 ks IH]; simpl; intros cp s s' cp' H ND k Hk t Ht Hs; [easy|].
  unfold bind in H. destruct (calc_task k0 cp s) as [s1 [cp1|e]] eqn:E1; [|discriminate].
  inversion ND as [|? ? Hnin ND']; subst.
  destruct Hk as [->|Hk]; [|exact (IH _ _ _ _ H ND' k Hk t Ht Hs)].
  assert (Hs' : s' = fst (calc_loop ks cp1 s1)) by now rewrite H.
  assert (L1 : lookup k s1 = Some t).
  { rewrite <- Ht, Hs'. symmetry. now apply calc_loop_other. }
  assert (Hfr : forall j, option_map unfloat (lookup j s')
                          = option_map unfloat (lookup j s1)).
  { intros j. rewrite Hs'. apply calc_loop_frame. }
  rewrite calc_task_eq in E1.
  destruct (lookup k s) as [task|] eqn:L; [|discriminate]. cbv zeta in E1.
  destruct (calc_floats_dates task) as (_ & Hef & _ & _ & _ & _ & Hsc & _).
  destruct (successors task) as [|x xs] eqn:Hst.
  - injection E1 as <- _. rewrite !lookup_update_same, L in L1. simpl in L1.
    injection L1 as <-. simpl in Hs. congruence.
  - destruct (min_free_float (update k calc_floats s) (early_finish task) (x :: xs))
      as [ff|e] eqn:Em; [|discriminate].
    injection E1 as <- _. rewrite !lookup_update_same, L in L1. simpl in L1.
    injection L1 as <-. simpl. exists ff. split; [|reflexivity].
    rewrite Hef, Hsc. rewrite <- Em. unfold min_free_float.
    rewrite (free_float_terms_frame (update k calc_floats s) s'); [reflexivity|].
    intros j. rewrite Hfr, lookup_update. destruct (String.eqb k j); [|reflexivity].
    now destruct (lookup j (update k calc_floats s)).
Qed.

End FreeFloat.

(** X15. When the analysis returns, the free float of a task with
    successors is the least gap, in whole days, between its early finish
    and the early start of a successor: no successor in the table starts
    earlier than that after the task ends, and one successor starts
    exactly then. *)
Theorem X15_free_float_is_least_gap_to_a_successor limit df s out k t :
  run_analysis limit df = (s, Ok out) ->
  lookup k s = Some t -> successors t <> [] ->
  exists ff ef,
    free_float t = Some ff /\ early_finish t = Some ef /\
    (forall x tx, In x (successors t) -> lookup x s = Some tx ->
       exists es, early_start tx = Some es /\ ff <= days (es - ef)) /\
    (exists x tx es, In x (successors t) /\ lookup x s = Some tx /\
                     early_start tx = Some es /\ ff = days (es - ef)).
Proof.
  rewrite run_analysis_eq. intros Hrun L Hs.
  assert (Hk := keys_calculate (scheduled limit df)).
  destruct (calculate_floats_and_critical_path (scheduled limit df))
    as [s' [cp|e]] eqn:E0; [|discriminate].
  assert (E : calc_loop (keys (scheduled limit df)) [] (scheduled limit df)
              = (s', Ok cp)) by exact E0.
  injection Hrun as <- _. simpl in Hk.
  assert (ND : NoDup (keys (scheduled limit df))).
  { rewrite keys_scheduled. apply create_NoDup. }
  assert (Hkin : In k (keys (scheduled limit df))).
  { rewrite <- Hk. apply mem_keys. unfold mem. now rewrite L. }
  destruct (calc_loop_free_float _ _ _ _ _ E ND k Hkin t L Hs) as (ff & Hm & Hff).
  unfold min_free_float in Hm.
  destruct (free_float_terms s' (early_finish t) (successors t)) as [l|e] eqn:Et;
    [|discriminate].
  destruct l as [|v l]; [discriminate|]. injection Hm as <-.
  destruct (early_finish t) as [ef|] eqn:Ef.
  - destruct (free_float_terms_gaps s' ef (successors t) (v :: l) Et) as [H1 H2].
    exists (min_list v l), ef. split; [assumption|]. split; [reflexivity|]. split.
    + intros x tx Hx Lx. destruct (H2 x tx Hx Lx) as (es & Es & Hin).
      exists es. split; [assumption|]. now apply min_list_le.
    + destruct (H1 _ (min_list_In l v)) as (x & tx & es & Hx & Lx & Es & Hv).
      exists x, tx, es. auto.
  - exfalso. destruct (free_float_terms_ok s' None (successors t) (v :: l) Et) as [_ H2].
    assert (Hnil := free_float_terms_absent s' None (successors t) (v :: l) Et).
    discriminate Hnil. intros x Hx.
    destruct (lookup x s') as [tx|] eqn:Lx; [|reflexivity].
    destruct (H2 x tx Hx Lx) as [Hn _]. now elim Hn.
Qed.

Lemma X15_witness :
  let s := fst (run_analysis 10 parallel_rows) in
  let t := snd (nth 1 s (EmptyString, Task_init EmptyString EmptyString 0 0 0 [])) in
  lookup "B" s = Some t /\ successors t = ["C"] /\
  exists ff ef,
    free_float t = Some ff /\ early_finish t = Some ef /\
    (forall x tx, In x (successors t) -> lookup x s = Some tx ->
       exists es, early_start tx = Some es /\ ff <= days (es - ef)) /\
    (exists x tx es, In x (successors t) /\ lookup x s = Some tx /\
                     early_start tx = Some es /\ ff = days (es - ef)).
Proof.
  intros s t.
  assert (H1 : run_analysis 10 parallel_rows
               = (s, Ok (map result_of_task (values s), ["A"; "C"])))
    by (vm_compute; reflexivity).
  assert (H2 : lookup "B" s = Some t) by (vm_compute; reflexivity).
  assert (H3 : successors t = ["C"]) by (vm_compute; reflexivity).
  split; [exact H2|]. split; [exact H3|].
  apply (X15_free_float_is_least_gap_to_a_successor 10 parallel_rows s _ "B" t H1 H2).
  rewrite H3. discriminate.
Defined.

(** ** Which tasks the backward pass reaches *)

Section BackwardCoverage.

Variable F : store.
Hypothesis F_finish : all_tasks successors_finish F.
Hypothesis F_mirrored : mirrored F.

Lemma late_extends_refl s : late_extends s s.
Proof. split; [auto|apply same_early_refl]. Qed.

Lemma late_extends_trans s1 s2 s3 :
  late_extends s1 s2 -> late_extends s2 s3 -> late_extends s1 s3.
Proof.
  intros [H1 H2] [H3 H4]. split; [auto|exact (same_early_trans _ _ _ H2 H4)].
Qed.

Lemma succ_start_dates_started s x l :
  In x l -> late_started x s -> succ_start_dates s l <> [].
Proof.
  intros Hx (t & ls & L & Hls). induction l as [|y l IH]; simpl; [easy|].
  destruct Hx as [->|Hx].
  - rewrite L, Hls. discriminate.
  - destruct (lookup y s) as [ty|]; [|now apply IH].
    destruct (late_start ty); [discriminate|now apply IH].
Qed.

Lemma bwd_late_finish_ready s k task e :
  lookup k s = Some task -> late_finish task = None -> bwd_ready k s ->
  early_finish task = Some e ->
  exists lf, bwd_late_finish s task = Some lf /\
             (successors task = [] \/
              exists x tx, In x (successors task) /\ lookup x s = Some tx /\
                           late_start tx = Some lf).
Proof.
  intros L Lf Hr He. unfold bwd_late_finish.
  destruct (successors task) as [|x xs] eqn:Hs.
  - exists e. auto.
  - destruct (Hr task L) as [H|[H|H]]; [congruence|congruence|].
    rewrite Hs in H.
    destruct (succ_start_dates s (x :: xs)) as [|y ys] eqn:Sd; [now elim H|].
    exists (min_list y ys). split; [reflexivity|]. right.
    apply succ_start_dates_In. rewrite Sd. apply min_list_In.
Qed.

Lemma bwd_closure d : forall k s s' stack,
  same_early F s -> back_inv F s ->
  (exists t e, lookup k s = Some t /\ early_finish t = Some e) ->
  bwd_ready k s -> late_open stack s ->
  BackwardPass.process_task d k s = (s', Ok tt) ->
  late_open stack s' /\ late_started k s' /\ back_inv F s' /\ late_extends s s'.
Proof.
  induction d as [|d IH]; intros k s s' stack HF Hinv (task & e & L & He) Hr Ho;
    [discriminate|].
  rewrite bwd_process_task_eq, L.
  destruct (late_finish task) as [lf0|] eqn:Lf; simpl.
  { intros [= <-]. split; [assumption|].
    split; [|split; [assumption|apply late_extends_refl]].
    exists task, (lf0 - duration task). split; [assumption|].
    exact (all_tasks_lookup _ _ _ _ (proj1 Hinv) L lf0 Lf). }
  destruct (bwd_late_finish_ready s k task e L Lf Hr He) as (lf & Hlf & Hsrc).
  set (s1 := bwd_visit k task s).
  assert (Es1 : s1 = update k (fun t => set_late_start (Some (lf - duration task))
                                          (set_late_finish (Some lf) t)) s).
  { unfold s1, bwd_visit. now rewrite Hlf. }
  assert (L1 : lookup k s1 = Some (set_late_start (Some (lf - duration task))
                                     (set_late_finish (Some lf) task))).
  { rewrite Es1, lookup_update_same, L. reflexivity. }
  assert (Hst1 : late_started k s1).
  { eexists. eexists. split; [exact L1|reflexivity]. }
  assert (Hx1 : late_extends s s1).
  { split; [|apply same_early_bwd_visit].
    intros j (tj & lsj & Lj & Hj). destruct (String.eqb k j) eqn:E.
    - apply String.eqb_eq in E; subst j. exact Hst1.
    - apply String.eqb_neq in E. exists tj, lsj. split; [|assumption].
      now rewrite Es1, lookup_update_other. }
  assert (HF1 : same_early F s1) by exact (same_early_trans _ _ _ HF (proj2 Hx1)).
  destruct (same_early_lookup s F k task (same_early_sym _ _ HF) L) as (tF & LF & EqF).
  destruct (early_part_fields _ _ EqF) as (HsF & HpF & _).
  assert (Hinv1 : back_inv F s1).
  { split.
    - rewrite Es1. apply all_tasks_update; [|exact (proj1 Hinv)].
      intros t Lt _ l. assert (t = task) by congruence. subst t. simpl.
      now intros [= <-].
    - intros j tj Lj Hls. destruct (String.eqb k j) eqn:E.
      + apply String.eqb_eq in E; subst j. rewrite L1 in Lj. injection Lj as <-.
        simpl. split; [rewrite He; discriminate|].
        destruct Hsrc as [Hnil|(x & tx & Hx & Lx & Hlsx)].
        * apply (coreach_end F k tF LF). congruence.
        * apply (coreach_step F k tF x LF); [congruence|].
          apply (proj2 Hinv x tx Lx). rewrite Hlsx. discriminate.
      + apply String.eqb_neq in E. rewrite Es1, lookup_update_other in Lj by assumption.
        exact (proj2 Hinv j tj Lj Hls). }
  assert (Ho1 : late_open (k :: stack) s1).
  { intros x tx p Lx Hls Hnin Hp Hm.
    assert (Hne : k <> x) by (intros ->; apply Hnin; now left).
    assert (Lx0 : lookup x s = Some tx).
    { now rewrite Es1, lookup_update_other in Lx. }
    apply (proj1 Hx1). apply (Ho x tx p Lx0 Hls); [|assumption|].
    - intros Hin. apply Hnin. now right.
    - now rewrite <- (same_early_mem s s1 p (proj2 Hx1)). }
  assert (Loop : forall ps si sf,
            for_each ps (bwd_recurse d) si = (sf, Ok tt) ->
            back_inv F si -> late_extends s1 si -> late_open (k :: stack) si ->
            (forall p, In p ps -> In p (predecessors task)) ->
            late_open (k :: stack) sf /\ back_inv F sf /\ late_extends si sf /\
            (forall p, In p ps -> mem p sf = true -> late_started p sf)).
  { induction ps as [|p ps IHps]; simpl; intros si sf Hrun Hvi Hxi Hoi Hsub.
    { injection Hrun as <-. split; [assumption|]. split; [assumption|].
      split; [apply late_extends_refl|]. intros p []. }
    unfold bind at 1 in Hrun.
    destruct (bwd_recurse d p si) as [sj [[]|err]] eqn:Ex; [|discriminate].
    assert (HFi : same_early F si) by exact (same_early_trans _ _ _ HF1 (proj2 Hxi)).
    assert (Hxj : late_open (k :: stack) sj /\ back_inv F sj /\ late_extends si sj /\
                  (mem p si = true -> late_started p sj)).
    { unfold bwd_recurse, bind, get, ret in Ex.
      destruct (mem p si) eqn:Hmp.
      - destruct (same_early_lookup F si k tF HFi LF) as (tk & Lk & Eqk).
        destruct (early_part_fields _ _ Eqk) as (_ & Hpk & _).
        assert (Hpin : In p (predecessors tk)).
        { rewrite Hpk, HpF. apply Hsub. now left. }
        assert (Hfin := predecessor_finished F F_finish F_mirrored si k tk p
                          HFi Lk Hpin Hmp).
        assert (Hrp : bwd_ready p si).
        { intros tp Lp. right. right.
          apply (succ_start_dates_started si k); [|exact (proj1 Hxi k Hst1)].
          destruct (same_early_lookup si F p tp (same_early_sym _ _ HFi) Lp)
            as (tpF & LpF & EqpF).
          destruct (early_part_fields _ _ EqpF) as (HspF & _).
          destruct (F_mirrored p k tF LF) as (tp' & Lp' & Hk').
          - rewrite HpF. apply Hsub. now left.
          - unfold mem. now rewrite LpF.
          - assert (tp' = tpF) by congruence. subst tp'. now rewrite <- HspF. }
        destruct (IH p si sj (k :: stack) HFi Hvi Hfin Hrp Hoi Ex) as (H1 & H2 & H3 & H4).
        split; [assumption|]. split; [assumption|]. split; [assumption|].
        intros _. exact H2.
      - injection Ex as <-. split; [assumption|]. split; [assumption|].
        split; [apply late_extends_refl|discriminate]. }
    destruct Hxj as (Hoj & Hvj & Hxij & Hfp).
    destruct (IHps sj sf Hrun Hvj (late_extends_trans _ _ _ Hxi Hxij) Hoj)
      as (H1 & H2 & H3 & H4).
    { intros q Hq. apply Hsub. now right. }
    split; [assumption|]. split; [assumption|].
    split; [exact (late_extends_trans _ _ _ Hxij H3)|].
    intros q [<-|Hq] Hmq; [|now apply H4].
    apply (proj1 H3). apply Hfp.
    now rewrite <- (same_early_mem si sj p (proj2 Hxij)),
                <- (same_early_mem sj sf p (proj2 H3)). }
  intros Hrun.
  destruct (Loop (predecessors task) s1 s' Hrun Hinv1 (late_extends_refl s1) Ho1)
    as (H1 & H2 & H3 & H4); [auto|].
  split; [|split; [exact (proj1 H3 k Hst1)|
                   split; [assumption|exact (late_extends_trans _ _ _ Hx1 H3)]]].
  intros x tx p Lx Hls Hnin Hp Hm.
  destruct (String.eqb k x) eqn:E.
  - apply String.eqb_eq in E; subst x.
    apply H4; [|assumption].
    assert (HFs' : same_early F s').
    { exact (same_early_trans _ _ _ HF1 (proj2 H3)). }
    destruct (same_early_lookup s' F k tx (same_early_sym _ _ HFs') Lx) as (tF' & LF' & Eq').
    destruct (early_part_fields _ _ Eq') as (_ & Hp' & _).
    assert (tF' = tF) by congruence. subst tF'. now rewrite <- HpF, Hp'.
  - apply String.eqb_neq in E. apply (H1 x tx p Lx Hls); [|assumption|assumption].
    intros [->|Hin]; [now apply E|now apply Hnin].
Qed.


Hypothesis F_open : open_except [] F.
Hypothesis F_link : link_ok F.
Hypothesis F_late : all_tasks late_unset F.

Lemma for_each_skip {A : Type} (body : A -> M unit) (l : list A) s :
  (forall x, In x l -> body x s = (s, Ok tt)) -> for_each l body s = (s, Ok tt).
Proof.
  induction l as [|x l IH]; simpl; intros H; [reflexivity|].
  unfold bind. rewrite (H x (or_introl eq_refl)). apply IH.
  intros y Hy. apply H. now right.
Qed.

(** An end task without an early finish has no predecessor in the table,
    and its visit changes nothing. *)
Lemma bwd_unscheduled_end d e s t :
  same_early F s -> lookup e s = Some t -> successors t = [] ->
  early_finish t = None ->
  fst (BackwardPass.process_task d e s) = s.
Proof.
  intros HF L Hs He. destruct d as [|d]; [reflexivity|].
  rewrite bwd_process_task_eq, L.
  destruct (late_finish t) eqn:Lf; [reflexivity|]. simpl.
  assert (E : bwd_visit e t s = s).
  { unfold bwd_visit, bwd_late_finish. rewrite Hs, He.
    apply update_id. intros t0 Ht0. assert (t0 = t) by congruence. subst t0.
    now apply set_late_finish_same. }
  rewrite E, for_each_skip; [reflexivity|].
  intros p Hp. unfold bwd_recurse, bind, get, ret.
  destruct (mem p s) eqn:Hm; [|reflexivity]. exfalso.
  destruct (predecessor_finished F F_finish F_mirrored s e t p HF L Hp Hm)
    as (tp & ef & Lp & Hef).
  destruct (same_early_lookup s F e t (same_early_sym _ _ HF) L) as (tF & LF & EqF).
  destruct (early_part_fields _ _ EqF) as (_ & HpF & _ & HefF).
  destruct (same_early_lookup s F p tp (same_early_sym _ _ HF) Lp) as (tpF & LpF & EqpF).
  destruct (early_part_fields _ _ EqpF) as (_ & _ & _ & HefpF).
  destruct (F_mirrored p e tF LF) as (tp' & Lp' & Hin).
  - now rewrite HpF.
  - unfold mem. now rewrite LpF.
  - assert (tp' = tpF) by congruence. subst tp'.
    destruct (F_open p tpF e LpF) as (t1 & e1 & L1 & E1); [congruence|auto|assumption| |].
    + unfold mem. now rewrite LF.
    + congruence.
Qed.

Lemma bwd_ends_closure limit ends : forall s s',
  same_early F s -> back_inv F s -> late_open [] s ->
  (forall e, In e ends -> exists t, lookup e F = Some t /\ successors t = []) ->
  for_each ends (BackwardPass.process_task limit) s = (s', Ok tt) ->
  late_open [] s' /\ back_inv F s' /\ same_early F s'.
Proof.
  induction ends as [|e ends IH]; simpl; intros s s' HF Hinv Ho Hends Hrun.
  { injection Hrun as <-. auto. }
  unfold bind at 1 in Hrun.
  destruct (BackwardPass.process_task limit e s) as [sj [[]|err]] eqn:Ex; [|discriminate].
  destruct (Hends e (or_introl eq_refl)) as (tF & LF & HsF).
  destruct (same_early_lookup F s e tF HF LF) as (t & L & Eq).
  destruct (early_part_fields _ _ Eq) as (Hs & _ & _ & Hef).
  assert (Hj : late_open [] sj /\ back_inv F sj /\ same_early F sj).
  { destruct (early_finish t) as [ef|] eqn:Ef.
    - destruct (bwd_closure limit e s sj [] HF Hinv) as (H1 & _ & H3 & H4);
        try assumption.
      + now exists t, ef.
      + intros t0 L0. assert (t0 = t) by congruence. subst t0. right. left. congruence.
      + split; [assumption|]. split; [assumption|].
        exact (same_early_trans _ _ _ HF (proj2 H4)).
    - assert (E : sj = s).
      { replace sj with (fst (BackwardPass.process_task limit e s)) by now rewrite Ex.
        apply (bwd_unscheduled_end limit e s t); try assumption. congruence. }
      subst sj. auto. }
  destruct Hj as (Hoj & Hvj & HFj).
  apply (IH sj s' HFj Hvj Hoj); [|assumption].
  intros e' He'. apply Hends. now right.
Qed.

Lemma end_tasks_lookup s k :
  In k (end_tasks s) -> exists t, In (k, t) s /\ successors t = [].
Proof.
  unfold end_tasks, keys. rewrite in_map_iff. intros ([k' t] & <- & H).
  apply filter_In in H. destruct H as [Hin Hs]. simpl in *.
  exists t. split; [assumption|]. now destruct (successors t).
Qed.

Lemma coreachable_end_tasks k : coreachable F k -> end_tasks F <> [].
Proof.
  induction 1 as [k t L Hs|k t x L Hx Hc IH]; [|assumption].
  intros E. assert (H := lookup_end_tasks F k t L Hs). now rewrite E in H.
Qed.

Lemma coreachable_mem k : coreachable F k -> mem k F = true.
Proof. intros H. unfold mem. destruct H as [k t L _|k t x L _ _]; now rewrite L. Qed.

Lemma backward_pass_with_sinks limit G :
  NoDup (keys F) -> end_tasks F <> [] ->
  backward_pass limit F = (G, Ok tt) ->
  late_open [] G /\ back_inv F G /\ same_early F G.
Proof.
  intros ND Hend. unfold backward_pass, bind at 1, get. unfold bind at 1.
  assert (Hl := end_tasks_lookup F).
  destruct (end_tasks F) as [|e es]; [contradiction|].
  unfold ret at 1. apply bwd_ends_closure.
  - apply same_early_refl.
  - split.
    + unfold all_tasks in *. eapply Forall_impl; [|exact F_late].
      intros [k t] [_ Hlf] l. simpl in *. congruence.
    + intros k t L Hls. destruct (all_tasks_lookup _ _ _ _ F_late L) as [H _]. congruence.
  - intros x tx p Lx Hls. destruct (all_tasks_lookup _ _ _ _ F_late Lx) as [H _]. congruence.
  - intros e' He'. destruct (Hl e' He') as (t & Hin & Hs).
    exists t. split; [now apply In_lookup|assumption].
Qed.

Lemma backward_pass_covers limit G :
  NoDup (keys F) -> backward_pass limit F = (G, Ok tt) ->
  forall k, coreachable F k -> finished k F -> late_started k G.
Proof.
  intros ND Hrun k Hc. assert (Hend := coreachable_end_tasks k Hc).
  destruct (backward_pass_with_sinks limit G ND Hend Hrun) as (Ho & Hinv & HFG).
  induction Hc as [k t L Hs|k t x L Hx Hc IH]; intros (t1 & e & L1 & He).
  - destruct (same_early_lookup F G k t HFG L) as (tG & LG & Eq).
    destruct (early_part_fields _ _ Eq) as (HsG & _ & _ & HefG).
    assert (Hlf : late_finish tG = early_finish tG).
    { apply (backward_pass_sinks limit F G F_late Hrun k tG LG). congruence. }
    assert (t1 = t) by congruence. subst t1.
    exists tG, (e - duration tG). split; [assumption|].
    apply (all_tasks_lookup _ _ _ _ (proj1 Hinv) LG). congruence.
  - assert (t1 = t) by congruence. subst t1.
    assert (Hmx := coreachable_mem x Hc).
    assert (Hfx : finished x F).
    { apply (F_open k t x L); [congruence|auto|assumption|assumption]. }
    destruct (IH Hfx) as (txG & ls & LxG & Hls).
    apply (Ho x txG k LxG); [congruence|auto| |].
    + destruct (same_early_lookup G F x txG (same_early_sym _ _ HFG) LxG)
        as (txF & LxF & Eq).
      destruct (early_part_fields _ _ Eq) as (_ & Hp & _).
      rewrite <- Hp. exact (F_link k t x txF L Hx LxF).
    + rewrite (same_early_mem F G k HFG). unfold mem. now rewrite L.
Qed.

End BackwardCoverage.

Section TotalFloat.

Lemma coreachable_extends s s' k :
  extends s s' -> coreachable s k <-> coreachable s' k.
Proof.
  intros Hx. split.
  - induction 1 as [k t L Hs|k t x L Hin Hc IH].
    + destruct (extends_successors_back s s' k t Hx L) as (t' & L' & Hs' & _).
      apply (coreach_end s' k t' L'). congruence.
    + destruct (extends_successors_back s s' k t Hx L) as (t' & L' & Hs' & _).
      apply (coreach_step s' k t' x L'); [congruence|assumption].
  - induction 1 as [k t L Hs|k t x L Hin Hc IH].
    + destruct (extends_successors s s' k t Hx L) as (t0 & L0 & Hs0 & _).
      apply (coreach_end s k t0 L0). congruence.
    + destruct (extends_successors s s' k t Hx L) as (t0 & L0 & Hs0 & _).
      apply (coreach_step s k t0 x L0); [congruence|assumption].
Qed.

Lemma link_ok_forward_pass limit s : link_ok s -> link_ok (fst (forward_pass limit s)).
Proof.
  apply forward_pass_inv. intros k task s1 _ _. apply link_ok_fwd_visit.
Qed.

Lemma total_float_dates s :
  all_tasks (fun t => total_float t = None) s ->
  all_tasks (fun t => total_float t <> None ->
                      early_start t <> None /\ late_start t <> None)
            (fst (calculate_floats_and_critical_path s)).
Proof.
  intros H0. apply calculate_inv.
  - intros k s1 H. apply all_tasks_update; [|assumption].
    intros t _ Ht.
    assert (C : calc_floats t = t \/ (early_start t <> None /\ late_start t <> None)).
    { unfold calc_floats. destruct (early_start t); [|now left].
      destruct (late_start t); [right; split; discriminate|now left]. }
    destruct C as [C|C]; [now rewrite C|].
    destruct (calc_floats_dates t) as (Hes & _ & Hls & _).
    rewrite Hes, Hls. intros _. exact C.
  - intros k g s1 H. apply all_tasks_update; [|assumption]. intros t _ Ht. exact Ht.
  - unfold all_tasks in *. eapply Forall_impl; [|exact H0].
    intros [k t] Ht Hn. simpl in *. contradiction.
Qed.

Lemma total_float_unset_scheduled limit df :
  all_tasks (fun t => total_float t = None) (scheduled limit df).
Proof.
  apply (scheduled_all_entries (fun _ t => total_float t = None)).
  - intros k t es _ H. exact H.
  - intros k t v H. split; exact H.
  - assert (H := create_fresh df). unfold all_tasks, all_entries in *.
    eapply Forall_impl; [|exact H]. now intros [k t] (_ & _ & _ & _ & Htf & _).
Qed.

End TotalFloat.

(** ** Where late starts come from *)

Section LateStarts.

Variable F : store.
Hypothesis F_mirrored : mirrored F.

Lemma late_from_ends_bwd_visit k task s :
  lookup k s = Some task -> coreachable F k ->
  late_from_ends F s -> late_from_ends F (bwd_visit k task s).
Proof.
  intros L Hc [Hse Hl]. split.
  - exact (same_early_trans _ _ _ Hse (same_early_bwd_visit k task s)).
  - intros j t. unfold bwd_visit.
    destruct (bwd_late_finish s task); rewrite lookup_update;
      (destruct (String.eqb k j) eqn:Ekj;
       [apply String.eqb_eq in Ekj; subst j; intros _ _; exact Hc|apply Hl]).
Qed.

Lemma bwd_process_task_late_from_ends d : forall k s,
  coreachable F k -> late_from_ends F s ->
  late_from_ends F (fst (BackwardPass.process_task d k s)).
Proof.
  induction d as [|d IH]; intros k s Hc Hs; [exact Hs|].
  rewrite bwd_process_task_eq.
  destruct (lookup k s) as [task|] eqn:L; [|exact Hs].
  destruct (late_finish task) eqn:Es; [exact Hs|]. simpl.
  apply for_each_inv; [|now apply late_from_ends_bwd_visit].
  intros x s1 Hin H1. unfold bwd_recurse, bind, get, ret.
  destruct (mem x s1) eqn:Hm; [|assumption].
  apply IH; [|assumption].
  destruct (same_early_lookup _ _ k task (same_early_sym _ _ (proj1 Hs)) L)
    as (tF & LF & Eq).
  destruct (early_part_fields _ _ Eq) as (_ & Hp & _).
  destruct (F_mirrored x k tF LF) as (tx & Lx & Hsx).
  - now rewrite Hp.
  - now rewrite <- (same_early_mem F s1 x (proj1 H1)).
  - exact (coreach_step F x tx k Lx Hsx Hc).
Qed.

Lemma backward_pass_late_from_ends limit :
  NoDup (keys F) -> all_tasks late_unset F ->
  forall k t, lookup k (fst (backward_pass limit F)) = Some t ->
              late_start t <> None -> coreachable F k.
Proof.
  intros ND Hlate k t L Hls.
  destruct (end_tasks F) as [|e0 es0] eqn:Hend.
  - elim Hls.
    exact (all_tasks_lookup _ _ _ _ (backward_pass_no_sink limit F ND Hend Hlate) L).
  - assert (H0 : late_from_ends F F).
    { split; [apply same_early_refl|].
      intros j tj Lj Hj. destruct (all_tasks_lookup _ _ _ _ Hlate Lj) as [H _].
      congruence. }
    assert (Hl := end_tasks_lookup F).
    revert L. unfold backward_pass, bind at 1, get. unfold bind at 1.
    rewrite Hend in *. unfold ret at 1. intros L.
    assert (H : late_from_ends F
                  (fst (for_each (e0 :: es0) (BackwardPass.process_task limit) F))).
    { apply for_each_inv; [|exact H0].
      intros x s1 Hin H1. apply bwd_process_task_late_from_ends; [|assumption].
      destruct (Hl x Hin) as (tx & Hx & Hsx).
      exact (coreach_end F x tx (In_lookup _ _ _ ND Hx) Hsx). }
    exact (proj2 H k t L Hls).
Qed.

End LateStarts.

(** X16. When the analysis returns, a task has a total float only if it
    lies between a start and an end of the network: it can be reached
    from a task without predecessors along successor lists, and a task
    without successors can be reached from it.  When the two passes have
    run to their end, every such task has a total float. *)
Theorem X16_total_float_between_a_source_and_an_end limit df s out k t :
  run_analysis limit df = (s, Ok out) ->
  lookup k s = Some t ->
  (total_float t <> None ->
   reachable (create_task_objects df) k /\ coreachable (create_task_objects df) k) /\
  (snd (forward_pass limit (create_task_objects df)) = Ok tt ->
   snd (backward_pass limit (fst (forward_pass limit (create_task_objects df)))) = Ok tt ->
   reachable (create_task_objects df) k -> coreachable (create_task_objects df) k ->
   total_float t <> None).
Proof.
  intros Hrun L.
  assert (Hperf : perform_critical_path_analysis limit df = Ok out).
  { unfold perform_critical_path_analysis. now rewrite Hrun. }
  rewrite run_analysis_eq in Hrun.
  assert (Hfr := calculate_frame (scheduled limit df) k).
  assert (Hdates := total_float_dates _ (total_float_unset_scheduled limit df)).
  destruct (calculate_floats_and_critical_path (scheduled limit df))
    as [s' [cp|e]] eqn:E0; [|discriminate].
  assert (E : calc_loop (keys (scheduled limit df)) [] (scheduled limit df)
              = (s', Ok cp)) by exact E0.
  injection Hrun as <- _. simpl in *.
  destruct (frame_lookup _ _ _ _ _ Hfr L) as (tG & LG & Eq).
  destruct (unfloat_fields _ _ Eq) as (_ & _ & HesG & _ & HlsG & _).
  assert (Hfin := returned_successors_finish limit df out Hperf).
  assert (Hmir := mirrored_forward_pass limit df).
  assert (Hlate := late_unset_forward_pass limit df).
  assert (Hlink := link_ok_forward_pass limit _ (create_link_ok df)).
  assert (Hsr := forward_pass_scheduled_reachable limit (create_task_objects df)
                   (fun p x tx => create_lists_successor df p x tx) (create_fresh df)).
  assert (Hse := same_early_forward_scheduled limit df).
  assert (Hx := extends_forward_pass limit (create_task_objects df)).
  assert (ND : NoDup (keys (fst (forward_pass limit (create_task_objects df))))).
  { rewrite keys_forward_pass. apply create_NoDup. }
  destruct (same_early_lookup _ _ k tG (same_early_sym _ _ Hse) LG) as (tF & LF & EqF).
  destruct (early_part_fields _ _ EqF) as (_ & _ & HesF & HefF).
  assert (Hkin : In k (keys (scheduled limit df))).
  { apply mem_keys. unfold mem. now rewrite LG. }
  split.
  - intros Htf.
    destruct (all_tasks_lookup _ _ _ _ Hdates L Htf) as [Hes Hls].
    split.
    + destruct (early_start tF) as [es|] eqn:Es; [exact (Hsr k tF es LF Es)|].
      congruence.
    + apply (coreachable_extends _ _ k Hx).
      apply (backward_pass_late_from_ends _ Hmir limit ND Hlate k tG); [exact LG|].
      congruence.
  - intros Hfwd Hbwd Hr Hc.
    destruct (forward_pass limit (create_task_objects df)) as [F r0] eqn:EF.
    simpl in *. subst r0.
    destruct (forward_pass_facts limit _ F (create_link_ok df) (create_fresh df) EF)
      as (Hopen & _ & Hcons & Hord).
    assert (HG : backward_pass limit F = (scheduled limit df, Ok tt)).
    { unfold scheduled, swallow. simpl. rewrite EF. simpl.
      destruct (backward_pass limit F) as [G r]. simpl in *. now subst r. }
    destruct (forward_pass_reaches limit _ F (create_link_ok df) (create_fresh df) EF k Hr)
      as (t1 & e1 & L1 & E1).
    assert (t1 = tF) by congruence. subst t1.
    assert (Hef := all_tasks_lookup _ _ _ _ Hcons LF e1 E1).
    assert (Hst : late_started k (scheduled limit df)).
    { apply (backward_pass_covers F Hfin Hmir Hopen Hlink Hlate limit
               (scheduled limit df) ND HG).
      - now apply (coreachable_extends _ F k Hx).
      - now exists tF, (e1 + duration tF). }
    destruct Hst as (tG' & ls & LG' & Hls).
    assert (tG' = tG) by congruence. subst tG'.
    rewrite (calc_loop_float_computed _ _ _ _ _ E k Hkin t L e1 ls); [discriminate| |];
      congruence.
Qed.

Lemma X16_witness :
  let s := fst (run_analysis 10 two_sink_rows) in
  let t := snd (nth 1 s (EmptyString, Task_init EmptyString EmptyString 0 0 0 [])) in
  lookup "A" s = Some t /\
  total_float t = Some 9 /\
  snd (forward_pass 10 (create_task_objects two_sink_rows)) = Ok tt /\
  snd (backward_pass 10 (fst (forward_pass 10 (create_task_objects two_sink_rows)))) = Ok tt /\
  reachable (create_task_objects two_sink_rows) "A" /\
  coreachable (create_task_objects two_sink_rows) "A" /\
  total_float t <> None.
Proof.
  intros s t.
  assert (H2 : run_analysis 10 two_sink_rows
               = (s, Ok (map result_of_task (values s), ["X"; "B"; "C"; "D"])))
    by (vm_compute; reflexivity).
  assert (H3 : lookup "A" s = Some t) by (vm_compute; reflexivity).
  assert (H4 : total_float t = Some 9) by (vm_compute; reflexivity).
  assert (H5 : snd (forward_pass 10 (create_task_objects two_sink_rows)) = Ok tt)
    by (vm_compute; reflexivity).
  assert (H6 : snd (backward_pass 10 (fst (forward_pass 10
                 (create_task_objects two_sink_rows)))) = Ok tt)
    by (vm_compute; reflexivity).
  assert (H7 : total_float t <> None) by (rewrite H4; discriminate).
  destruct (X16_total_float_between_a_source_and_an_end 10 two_sink_rows s _ "A" t H2 H3)
    as [P1 P2].
  split; [exact H3|]. split; [exact H4|]. split; [exact H5|]. split; [exact H6|].
  split; [exact (proj1 (P1 H7))|]. split; [exact (proj2 (P1 H7))|].
  exact (P2 H5 H6 (proj1 (P1 H7)) (proj2 (P1 H7))).
Defined.

